(** * A shallow embedding of [src/index.js] (straits-utils)

    The module implements traits: a trait is a [Symbol]; a value implements
    a trait by carrying, or inheriting, a property keyed by that symbol;
    a trait set is an object whose string-keyed properties are symbols.

    The embedding follows the JavaScript of the source statement by
    statement, over an explicit store:

    - values are the JavaScript primitives and references to heap objects;
    - an object has a prototype link, an extensibility flag, the list of
      its own data properties with their attributes, in creation order,
      and (for functions) a [[Call]] slot;
    - every operation is a computation in a state-and-exception monad:
      a thrown exception keeps the store as it was when it was thrown;
    - calls are interpreted with fuel, because closures stored in the heap
      may call each other without bound; the functions of the host and of
      the user are given by an interpretation [native], any function from
      receiver, arguments and store to an outcome and a store.

    Scope of the host model: ordinary objects with data properties, and
    the one accessor that every object inherits, [__proto__] of
    [Object.prototype]: a read or an assignment of the name [__proto__]
    that reaches [Object.prototype] without meeting a data property of
    that name runs its getter or its setter, so that [o.__proto__ = v]
    stores no property (it changes the prototype of [o] when [v] is an
    object or [null], and does nothing otherwise).  No proxies and no
    other accessors; numbers as IEEE 754 binary64 values with their
    printing left to the host, strings as byte strings, no BigInt.  Arrays
    passed to the module are taken as the list of their elements, and the
    names in them are strings.

    The module is strict-mode code: in [Symbol.prototype.*asFreeFunction]
    the expression [String(this)] (l.79) only succeeds when [this] is the
    symbol itself and not a wrapper object, so every function receives its
    receiver unboxed and a refused assignment throws.

    The calls [x.*impl(...)], [x.*addSymbol(...)], [x.*defineTrait(...)]
    and [x.*asFreeFunction()] that the module makes on its own traits are
    bound to the functions it installs for them on [Symbol.prototype] and
    [Object.prototype] (l.66-199).  The set-up of the module (l.27-61 and
    l.203-215) is not part of the embedding: the store starts with the
    [defaultImpls] map of the shared namespace. *)

From Stdlib Require Import ZArith SpecFloat Ascii.
From stdpp Require Import base option list strings gmap pretty sorting.

Set Default Proof Using "Type".
Open Scope string_scope.

(** ** Values *)

(** A symbol: an identity, and the description given at creation. *)
Record symbol := Sym { sym_id : N; sym_description : option string }.

Abbreviation loc := nat (only parsing).

Inductive value :=
| VUndefined
| VNull
| VBool (b : bool)
| VNum (n : spec_float)
| VStr (s : string)
| VSym (s : symbol)
| VObj (l : loc).

(** Property keys are strings or symbols. *)
Inductive key :=
| KStr (s : string)
| KSym (s : symbol).

#[global] Instance symbol_eq_dec : EqDecision symbol.
Proof. solve_decision. Defined.

#[global] Instance symbol_countable : Countable symbol.
Proof.
  refine (inj_countable' (fun s => (sym_id s, sym_description s))
                         (fun p => Sym p.1 p.2) _).
  by intros [].
Defined.

#[global] Instance spec_float_eq_dec : EqDecision spec_float.
Proof. solve_decision. Defined.

#[global] Instance value_eq_dec : EqDecision value.
Proof. solve_decision. Defined.

#[global] Instance key_eq_dec : EqDecision key.
Proof. solve_decision. Defined.

(** A data property with its attributes. *)
Record property := Prop_ {
  p_value : value;
  p_writable : bool;
  p_enumerable : bool;
  p_configurable : bool
}.

(** A property descriptor as passed to [Object.defineProperty]: every field
    may be absent. *)
Record descriptor := Desc {
  d_value : option value;
  d_writable : option bool;
  d_enumerable : option bool;
  d_configurable : option bool
}.

(** What a function object does when called. *)
Inductive code :=
| CNative (n : nat)
    (* a function of the host or of the user, interpreted by the host *)
| CHasOwnProperty
    (* Object.prototype.hasOwnProperty *)
| CFreeFunction (sym : symbol)
    (* the closure returned by Symbol.prototype.*asFreeFunction, l.82-100 *)
| CMethodWrapper (source : value) (methodName : string)
    (* the closure built in *defineAndImplMethodsAsTraits, l.176-178 *)
| CFunctionWrapper (fn : value).
    (* the closure built in *defineAndImplMemberFreeFunctionsAsTraits, l.194-196 *)

Record object := Obj {
  o_proto : option loc;
  o_extensible : bool;
  o_props : list (key * property);
  o_call : option code
}.

(** Exceptions. [new Error(msg)], the TypeError raised by the host, the
    AssertionError raised by [assert], and any other thrown value. *)
Inductive exn :=
| Error (msg : string)
| TypeError
| AssertionError (msg : string)
| Thrown (v : value).

(** The store: the heap, the [defaultImpls] map of the shared namespace
    (l.51-59), and the counter from which [Symbol()] draws identities. *)
Record state := State {
  heap : list object;
  defaultImpls : gmap symbol value;
  next_symbol : N
}.

(** The intrinsic objects of the realm. *)
Record realm := Realm {
  ObjectPrototype : loc;
  FunctionPrototype : loc;
  BooleanPrototype : loc;
  NumberPrototype : loc;
  StringPrototype : loc;
  SymbolPrototype : loc;
  TraitSetPrototype : loc;
  Symbol_toPrimitive : symbol
}.

(** ** The monad *)

Inductive result (A : Type) :=
| Ok (a : A)
| Throw (e : exn)
| Diverge.
Arguments Ok {A} a.
Arguments Throw {A} e.
Arguments Diverge {A}.

Definition M (A : Type) : Type := state → result A * state.

#[global] Instance M_ret : MRet M := λ A a st, (Ok a, st).
#[global] Instance M_bind : MBind M := λ A B f m st,
  match m st with
  | (Ok a, st') => f a st'
  | (Throw e, st') => (Throw e, st')
  | (Diverge, st') => (Diverge, st')
  end.

Definition throw {A} (e : exn) : M A := λ st, (Throw e, st).
Definition diverge {A} : M A := λ st, (Diverge, st).
Definition get_state : M state := λ st, (Ok st, st).
Definition put_state (st : state) : M unit := λ _, (Ok tt, st).

Definition set_heap (h : list object) (st : state) : state :=
  State h (defaultImpls st) (next_symbol st).


(** ** Own properties *)

Fixpoint lookup_key (k : key) (ps : list (key * property)) : option property :=
  match ps with
  | [] => None
  | (k', p) :: ps => if decide (k = k') then Some p else lookup_key k ps
  end.

Fixpoint replace_key (k : key) (p : property) (ps : list (key * property))
  : list (key * property) :=
  match ps with
  | [] => []
  | (k', p') :: ps =>
      if decide (k = k') then (k', p) :: ps else (k', p') :: replace_key k p ps
  end.

Definition set_props (ps : list (key * property)) (o : object) : object :=
  Obj (o_proto o) (o_extensible o) ps (o_call o).

Definition set_proto (proto : option loc) (o : object) : object :=
  Obj proto (o_extensible o) (o_props o) (o_call o).

(** ValidateAndApplyPropertyDescriptor on an ordinary object, for data
    descriptors.  [None] is the specification's [false]. *)
Definition validate_and_apply (o : object) (k : key) (d : descriptor)
  : option object :=
  match lookup_key k (o_props o) with
  | None =>
      if o_extensible o then
        Some (set_props
                (o_props o ++
                   [(k, Prop_ (default VUndefined (d_value d))
                              (default false (d_writable d))
                              (default false (d_enumerable d))
                              (default false (d_configurable d)))]) o)
      else None
  | Some cur =>
      let rejected :=
        negb (p_configurable cur) &&
        (bool_decide (d_configurable d = Some true)
         || bool_decide (d_enumerable d = Some (negb (p_enumerable cur)))
         || (negb (p_writable cur) &&
             (bool_decide (d_writable d = Some true)
              || match d_value d with
                 | Some v => negb (bool_decide (v = p_value cur))
                 | None => false
                 end))) in
      if rejected then None
      else
        Some (set_props
                (replace_key k
                   (Prop_ (default (p_value cur) (d_value d))
                          (default (p_writable cur) (d_writable d))
                          (default (p_enumerable cur) (d_enumerable d))
                          (default (p_configurable cur) (d_configurable d)))
                   (o_props o)) o)
  end.

(** ** Property keys in enumeration order *)

Definition digit_of (a : ascii) : option N :=
  let n := N_of_ascii a in
  if ((48 <=? n) && (n <=? 57))%N then Some (n - 48)%N else None.

Fixpoint parse_digits (acc : N) (s : string) : option N :=
  match s with
  | EmptyString => Some acc
  | String a s' => d ← digit_of a; parse_digits (acc * 10 + d) s'
  end.

(** An array index is the canonical decimal form of an integer below
    2^32 - 1. *)
Definition array_index (s : string) : option N :=
  match s with
  | EmptyString => None
  | String a s' =>
      if bool_decide (a = "0"%char ∧ s' ≠ EmptyString) then None
      else n ← parse_digits 0 s;
           if (n <? 4294967295)%N then Some n else None
  end.

Definition string_keys (ps : list (key * property)) : list string :=
  omap (λ kp, match kp.1 with KStr s => Some s | KSym _ => None end) ps.

Definition index_le (a b : N * string) : Prop := (a.1 ≤ b.1)%N.

#[global] Instance index_le_dec a b : Decision (index_le a b).
Proof. unfold index_le. apply _. Defined.

(** OrdinaryOwnPropertyKeys restricted to strings: integer indices in
    ascending order, then the other names in creation order. *)
Definition own_string_keys (o : object) : list string :=
  let names := string_keys (o_props o) in
  let indexed := omap (λ s, n ← array_index s; Some (n, s)) names in
  (snd <$> merge_sort index_le indexed)
  ++ filter (λ s, array_index s = None) names.

Definition is_enumerable (o : object) (s : string) : bool :=
  match lookup_key (KStr s) (o_props o) with
  | Some p => p_enumerable p
  | None => false
  end.

(** The names a [for (key in ...)] loop visits, walking the prototype chain
    from [start]: enumerable string keys, a name visited at most once and
    hidden by any property of the same name nearer to the start. *)
Fixpoint enumerate (fuel : nat) (h : list object) (start : option loc)
    (visited : list string) : list string :=
  match fuel, start with
  | S fuel, Some l =>
      match h !! l with
      | Some o =>
          let own := own_string_keys o in
          filter (λ s, (s ∉ visited) ∧ (is_enumerable o s = true)) own
          ++ enumerate fuel h (o_proto o) (visited ++ own)
      | None => []
      end
  | _, _ => []
  end.

(** The first property named [k] on the prototype chain from [start]. *)
Fixpoint lookup_chain (fuel : nat) (h : list object) (start : option loc)
    (k : key) : option property :=
  match fuel, start with
  | S fuel, Some l =>
      match h !! l with
      | Some o =>
          match lookup_key k (o_props o) with
          | Some p => Some p
          | None => lookup_chain fuel h (o_proto o) k
          end
      | None => None
      end
  | _, _ => None
  end.

(** A chain without a cycle is no longer than the heap. *)
Definition chain_fuel (h : list object) : nat := S (length h).

(** ** Conversions that need no call *)

Definition ToBoolean (v : value) : bool :=
  match v with
  | VUndefined | VNull => false
  | VBool b => b
  | VNum (S754_zero _) | VNum S754_nan => false
  | VNum _ => true
  | VStr s => negb (bool_decide (s = ""))
  | VSym _ | VObj _ => true
  end.

Definition number_of_nat (n : nat) : spec_float :=
  binary_normalize 53 1024 (Z.of_nat n) 0 false.

(** The own properties of a String value: its characters and its length. *)
Definition string_own (s : string) (k : key) : option property :=
  match k with
  | KStr name =>
      if decide (name = "length") then
        Some (Prop_ (VNum (number_of_nat (String.length s))) false false false)
      else
        i ← array_index name;
        c ← String.get (N.to_nat i) s;
        Some (Prop_ (VStr (String c EmptyString)) false true false)
  | KSym _ => None
  end.

Definition SymbolDescriptiveString (s : symbol) : string :=
  "Symbol(" +:+ default "" (sym_description s) +:+ ")".

(** String.prototype.slice *)
Definition slice (s : string) (start end_ : Z) : string :=
  let len := Z.of_nat (String.length s) in
  let from := if (start <? 0)%Z then Z.max (len + start) 0 else Z.min start len in
  let to := if (end_ <? 0)%Z then Z.max (len + end_) 0 else Z.min end_ len in
  String.substring (Z.to_nat from) (Z.to_nat (Z.max (to - from) 0)) s.

Fixpoint forEach {A} (f : A → M unit) (xs : list A) : M unit :=
  match xs with
  | [] => mret tt
  | x :: xs => _ ← f x; forEach f xs
  end.

(** Node's [assert(value, message)] and [assert.equal] on two strings. *)
Definition assert (value : bool) (message : string) : M unit :=
  if value then mret tt else throw (AssertionError message).

Definition assert_equal (actual expected message : string) : M unit :=
  if decide (actual = expected) then mret tt
  else throw (AssertionError message).

(** ** The host operations the module uses *)

Section Host.

Variable R : realm.
(** The functions of the host and of the user: [native n this args]. *)
Variable native : nat → value → list value → M value.
(** Number::toString *)
Variable Number_toString : spec_float → string.

Definition is_callable (st : state) (v : value) : bool :=
  match v with
  | VObj l => bool_decide (is_Some (heap st !! l ≫= o_call))
  | _ => false
  end.

Definition typeof (v : value) : M string :=
  st ← get_state;
  mret (match v with
        | VUndefined => "undefined"
        | VNull => "object"
        | VBool _ => "boolean"
        | VNum _ => "number"
        | VStr _ => "string"
        | VSym _ => "symbol"
        | VObj _ => if is_callable st v then "function" else "object"
        end).

(** The prototype of the wrapper that ToObject gives a primitive. *)
Definition prototype_of (v : value) : option loc :=
  match v with
  | VBool _ => Some (BooleanPrototype R)
  | VNum _ => Some (NumberPrototype R)
  | VStr _ => Some (StringPrototype R)
  | VSym _ => Some (SymbolPrototype R)
  | _ => None
  end.

Definition find_property (st : state) (v : value) (k : key) : option property :=
  let h := heap st in
  match v with
  | VUndefined | VNull => None
  | VObj l => lookup_chain (chain_fuel h) h (Some l) k
  | VStr s =>
      match string_own s k with
      | Some p => Some p
      | None => lookup_chain (chain_fuel h) h (prototype_of v) k
      end
  | _ => lookup_chain (chain_fuel h) h (prototype_of v) k
  end.

(** The accessor property [__proto__] of [Object.prototype], the one
    accessor of the model.  A lookup of the name [__proto__] from [start]
    ends at it when it comes to [Object.prototype] without having met a
    data property of that name, on [Object.prototype] itself either. *)
Fixpoint proto_accessor_on_chain (fuel : nat) (h : list object)
    (start : option loc) : bool :=
  match fuel, start with
  | S fuel, Some l =>
      match h !! l with
      | Some o =>
          match lookup_key (KStr "__proto__") (o_props o) with
          | Some _ => false
          | None =>
              if decide (l = ObjectPrototype R) then true
              else proto_accessor_on_chain fuel h (o_proto o)
          end
      | None => false
      end
  | _, _ => false
  end.

(** Whether [v[k]] is served by the accessor [__proto__]. *)
Definition proto_accessor (st : state) (v : value) (k : key) : bool :=
  let h := heap st in
  bool_decide (k = KStr "__proto__") &&
  match v with
  | VUndefined | VNull => false
  | VObj l => proto_accessor_on_chain (chain_fuel h) h (Some l)
  | _ => proto_accessor_on_chain (chain_fuel h) h (prototype_of v)
  end.

(** [get Object.prototype.__proto__]: the prototype of [ToObject(v)]. *)
Definition prototype_value (st : state) (v : value) : value :=
  match v with
  | VObj l =>
      match heap st !! l with
      | Some o => from_option VObj VNull (o_proto o)
      | None => VUndefined
      end
  | _ => from_option VObj VNull (prototype_of v)
  end.

(** What [v[k]] evaluates to, [v] being neither [undefined] nor [null]. *)
Definition get_value (st : state) (v : value) (k : key) : value :=
  if proto_accessor st v k then prototype_value st v
  else from_option p_value VUndefined (find_property st v k).

(** [v[k]] *)
Definition GetV (v : value) (k : key) : M value :=
  match v with
  | VUndefined | VNull => throw TypeError
  | _ => st ← get_state; mret (get_value st v k)
  end.

(** HasOwnProperty(ToObject(v), k); [Object.prototype] has the accessor
    [__proto__] as a property of its own. *)
Definition has_own (st : state) (v : value) (k : key) : bool :=
  match v with
  | VObj l =>
      match heap st !! l with
      | Some o =>
          bool_decide (is_Some (lookup_key k (o_props o)))
          || (bool_decide (l = ObjectPrototype R)
              && bool_decide (k = KStr "__proto__"))
      | None => false
      end
  | VStr s => bool_decide (is_Some (string_own s k))
  | _ => false
  end.

(** OrdinarySet with the object itself as receiver. *)
Definition ordinary_set (h : list object) (l : loc) (o : object) (P : key)
    (V : value) : option object :=
  if from_option p_writable true (lookup_chain (chain_fuel h) h (Some l) P) then
    match lookup_key P (o_props o) with
    | Some _ => validate_and_apply o P (Desc (Some V) None None None)
    | None =>
        validate_and_apply o P (Desc (Some V) (Some true) (Some true) (Some true))
    end
  else None.

(** Whether the object [l] is on the prototype chain from [start]. *)
Fixpoint on_chain (fuel : nat) (h : list object) (start : option loc) (l : loc)
  : bool :=
  match fuel, start with
  | S fuel, Some p =>
      if decide (p = l) then true
      else match h !! p with
           | Some o => on_chain fuel h (o_proto o) l
           | None => false
           end
  | _, _ => false
  end.

(** [set Object.prototype.__proto__], called with [this] and the value
    [V]: nothing happens unless [V] is an object or [null] and [this] an
    object; then the prototype of [this] becomes [V] (OrdinarySetPrototypeOf),
    and a refusal throws: the prototype of [Object.prototype] cannot
    change, nor that of an object that is not extensible, and no object is
    put on its own chain. *)
Definition proto_setter (this V : value) : M unit :=
  st ← get_state;
  match V with
  | VObj _ | VNull =>
      match this with
      | VObj l =>
          match heap st !! l with
          | Some o =>
              let proto := match V with VObj p => Some p | _ => None end in
              if decide (proto = o_proto o) then mret tt
              else if bool_decide (l = ObjectPrototype R)
                      || negb (o_extensible o)
                      || on_chain (chain_fuel (heap st)) (heap st) proto l
              then throw TypeError
              else put_state (set_heap (<[l := set_proto proto o]> (heap st)) st)
          | None => throw TypeError
          end
      | _ => mret tt
      end
  | _ => mret tt
  end.

(** [base[P] = V] in strict code: where the name is served by the accessor
    [__proto__] its setter is called, on a primitive [base] too; otherwise
    the value is stored on the object, and a refused assignment throws. *)
Definition PutValue (base : value) (P : key) (V : value) : M unit :=
  st ← get_state;
  if proto_accessor st base P then proto_setter base V
  else
    match base with
    | VObj l =>
        match heap st !! l with
        | Some o =>
            match ordinary_set (heap st) l o P V with
            | Some o' => put_state (set_heap (<[l := o']> (heap st)) st)
            | None => throw TypeError
            end
        | None => throw TypeError
        end
    | _ => throw TypeError
    end.

(** [Object.defineProperty(O, P, Attributes)] *)
Definition Object_defineProperty (O : value) (P : key) (Attributes : descriptor)
  : M value :=
  st ← get_state;
  match O with
  | VObj l =>
      match heap st !! l with
      | Some o =>
          match validate_and_apply o P Attributes with
          | Some o' =>
              _ ← put_state (set_heap (<[l := o']> (heap st)) st); mret O
          | None => throw TypeError
          end
      | None => throw TypeError
      end
  | _ => throw TypeError
  end.

Definition alloc (o : object) : M value :=
  st ← get_state;
  _ ← put_state (set_heap (heap st ++ [o]) st);
  mret (VObj (length (heap st))).

Definition new_function (c : code) : M value :=
  alloc (Obj (Some (FunctionPrototype R)) true [] (Some c)).

(** [Symbol(description)] *)
Definition Symbol_ (description : string) : M symbol :=
  st ← get_state;
  _ ← put_state (State (heap st) (defaultImpls st) (N.succ (next_symbol st)));
  mret (Sym (next_symbol st) (Some description)).

(** The names visited by [for (key in v)], fixed when the loop starts. *)
Definition for_in_keys (st : state) (v : value) : list string :=
  let h := heap st in
  match v with
  | VUndefined | VNull => []
  | VObj l => enumerate (chain_fuel h) h (Some l) []
  | VStr s =>
      let indices := pretty <$> seq 0 (String.length s) in
      indices ++ enumerate (chain_fuel h) h (prototype_of v) (indices ++ ["length"])
  | _ => enumerate (chain_fuel h) h (prototype_of v) []
  end.

Definition for_in (v : value) (body : string → M unit) : M unit :=
  st ← get_state; forEach body (for_in_keys st v).

(** ToString on a primitive; a symbol has none. *)
Definition primitive_to_string (v : value) : option string :=
  match v with
  | VUndefined => Some "undefined"
  | VNull => Some "null"
  | VBool true => Some "true"
  | VBool false => Some "false"
  | VNum n => Some (Number_toString n)
  | VStr s => Some s
  | VSym _ | VObj _ => None
  end.

Section Calls.

(** The interpreter of calls, [callf f this args], tied below. *)
Variable callf : value → value → list value → M value.

Fixpoint OrdinaryToPrimitive (O : value) (methodNames : list string) : M value :=
  match methodNames with
  | [] => throw TypeError
  | name :: methodNames =>
      method ← GetV O (KStr name);
      st ← get_state;
      if is_callable st method then
        r ← callf method O [];
        match r with
        | VObj _ => OrdinaryToPrimitive O methodNames
        | _ => mret r
        end
      else OrdinaryToPrimitive O methodNames
  end.

(** ToPrimitive with hint string. *)
Definition ToPrimitive (input : value) : M value :=
  match input with
  | VObj _ =>
      exoticToPrim ← GetV input (KSym (Symbol_toPrimitive R));
      match exoticToPrim with
      | VUndefined | VNull => OrdinaryToPrimitive input ["toString"; "valueOf"]
      | _ =>
          st ← get_state;
          if is_callable st exoticToPrim then
            r ← callf exoticToPrim input [VStr "string"];
            match r with
            | VObj _ => throw TypeError
            | _ => mret r
            end
          else throw TypeError
      end
  | _ => mret input
  end.

(** ToString, as a template literal applies it to a substitution. *)
Definition ToString (v : value) : M string :=
  p ← ToPrimitive v;
  match primitive_to_string p with
  | Some s => mret s
  | None => throw TypeError
  end.

Definition ToPropertyKey (v : value) : M key :=
  p ← ToPrimitive v;
  match p with
  | VSym s => mret (KSym s)
  | _ => match primitive_to_string p with
         | Some s => mret (KStr s)
         | None => throw TypeError
         end
  end.

(** The method call [v[name](...args)]. *)
Definition Invoke (v : value) (name : string) (args : list value) : M value :=
  f ← GetV v (KStr name);
  callf f v args.

Definition Object_prototype_hasOwnProperty (this : value) (args : list value)
  : M value :=
  P ← ToPropertyKey (hd VUndefined args);
  match this with
  | VUndefined | VNull => throw TypeError
  | _ => st ← get_state; mret (VBool (has_own st this P))
  end.

(** ** The module: traits for [Symbol] (l.63-102) *)

(** l.66-69: set [target[this]] to [implementation]. *)
Definition impl (this : symbol) (target implementation : value) : M value :=
  _ ← Object_defineProperty target (KSym this)
        (Desc (Some implementation) None None (Some true));
  mret (VSym this).

(** l.72-75: [namespace.defaultImpls.set(this, implementation)]. *)
Definition implDefault (this : symbol) (implementation : value) : M value :=
  st ← get_state;
  _ ← put_state (State (heap st) (<[this := implementation]> (defaultImpls st))
                       (next_symbol st));
  mret (VSym this).

(** l.79: [String(this).slice(7, -1)]. *)
Definition symName (this : symbol) : string :=
  slice (SymbolDescriptiveString this) 7 (-1).

(** l.82-100: the function returned by [*asFreeFunction], called with
    [arguments]; [target] is the first of them, [args] the rest. *)
Definition freeFunction (sym : symbol) (arguments : list value) : M value :=
  let target := hd VUndefined arguments in
  let args := tl arguments in
  if bool_decide (target = VUndefined ∨ target = VNull) then
    st ← get_state;
    match defaultImpls st !! sym with
    | Some default_ => callf default_ VUndefined (target :: args)
    | None =>
        t ← ToString target;
        throw (Error (".*" +:+ symName sym +:+ " called on " +:+ t))
    end
  else
    bound ← GetV target (KSym sym);
    if negb (ToBoolean bound) then
      st ← get_state;
      match defaultImpls st !! sym with
      | Some default_ => callf default_ VUndefined (target :: args)
      | None =>
          t ← ToString target;
          throw (Error (".*" +:+ symName sym +:+ " called on " +:+ t
                        +:+ " that doesn't implement it."))
      end
    else
      f ← GetV target (KSym sym);
      callf f target args.

(** l.78-101 *)
Definition asFreeFunction (this : symbol) : M value :=
  new_function (CFreeFunction this).

(** ** The module: traits for trait sets (l.104-200) *)

(** [v.*impl(target, implementation)]: the receiver is a symbol wherever
    the module writes this call. *)
Definition call_impl (v target implementation : value) : M value :=
  match v with
  | VSym sym => impl sym target implementation
  | _ => throw TypeError
  end.

(** l.107-111 *)
Definition addSymbol (this : value) (name : string) (sym : value) : M value :=
  hasOwnProperty ← GetV this (KStr "hasOwnProperty");
  own ← callf hasOwnProperty this [VStr name];
  _ ← assert (negb (ToBoolean own))
        ("Trying to re-define trait `" +:+ name +:+ "`");
  ty ← typeof sym;
  _ ← assert_equal ty "symbol"
        ("Trying to add `" +:+ name +:+ "`, but it's not a symbol");
  _ ← PutValue this (KStr name) sym;
  mret sym.

(** l.113-115 *)
Definition defineTrait (this : value) (name : string) : M value :=
  sym ← Symbol_ name;
  addSymbol this name (VSym sym).

(** l.120-123: the body of the loop over all the keys of [traitSet]. *)
Definition borrow_key (this traitSet : value) (key : string) : M unit :=
  sym ← GetV traitSet (KStr key);
  ty ← typeof sym;
  if decide (ty = "symbol") then _ ← addSymbol this key sym; mret tt
  else mret tt.

(** l.129-131: the callback of [names.forEach]. *)
Definition borrow_name (this traitSet : value) (name : string) : M unit :=
  sym ← GetV traitSet (KStr name);
  _ ← addSymbol this name sym;
  mret tt.

(** l.117-133; [names] is [None] when the argument is omitted (or falsy),
    and otherwise the elements of the array. *)
Definition borrowTraits (this traitSet : value) (names : option (list string))
  : M value :=
  match names with
  | None => _ ← for_in traitSet (borrow_key this traitSet); mret this
  | Some names => _ ← forEach (borrow_name this traitSet) names; mret this
  end.

(** [v.*asFreeFunction()]: the receiver is a symbol wherever the module
    writes this call. *)
Definition call_asFreeFunction (v : value) : M value :=
  match v with
  | VSym sym => asFreeFunction sym
  | _ => throw TypeError
  end.

(** l.136-147 *)
Definition traitsToFreeFunctions (this : value) : M value :=
  result ← alloc (Obj (Some (ObjectPrototype R)) true [] None);
  _ ← for_in this (λ key,
        sym ← GetV this (KStr key);
        ty ← typeof sym;
        if decide (ty = "symbol") then
          f ← call_asFreeFunction sym; PutValue result (KStr key) f
        else mret tt);
  mret result.

(** l.153-156: the body of the loop. *)
Definition impl_trait (this target implementationObj : value) (name : string)
  : M unit :=
  sym ← GetV this (KStr name);
  ty ← typeof sym;
  _ ← assert (bool_decide (ty = "symbol")) ("No trait `" +:+ name +:+ "`");
  implementation ← GetV implementationObj (KStr name);
  _ ← call_impl sym target implementation;
  mret tt.

(** l.151-159 *)
Definition implTraits (this target implementationObj : value) : M value :=
  _ ← for_in implementationObj (impl_trait this target implementationObj);
  mret this.

(** l.162-168 *)
Definition defineAndImplTraits (this target implementationObj : value)
  : M value :=
  _ ← for_in implementationObj (λ name,
        value ← GetV implementationObj (KStr name);
        sym ← defineTrait this name;
        _ ← call_impl sym target value;
        mret tt);
  mret this.

(** l.176-178: the body of the wrapper, [source[methodName](this, ...arguments)]. *)
Definition methodWrapper (source : value) (methodName : string)
    (this : value) (arguments : list value) : M value :=
  Invoke source methodName (this :: arguments).

(** l.173-179: the callback of [methodList.forEach]. *)
Definition adapt_method (this target source : value) (methodName : string)
  : M unit :=
  sym ← defineTrait this methodName;
  wrapper ← new_function (CMethodWrapper source methodName);
  _ ← call_impl sym target wrapper;
  mret tt.

(** l.172-181 *)
Definition defineAndImplMethodsAsTraits (this target source : value)
    (methodList : list string) : M value :=
  _ ← forEach (adapt_method this target source) methodList;
  mret this.

(** l.194-196: the body of the wrapper, [fn(this, ...arguments)]. *)
Definition functionWrapper (fn : value) (this : value) (arguments : list value)
  : M value :=
  callf fn VUndefined (this :: arguments).

(** l.185-199 *)
Definition defineAndImplMemberFreeFunctionsAsTraits
    (this target functionObj : value) : M value :=
  _ ← for_in functionObj (λ fnName,
        fn ← GetV functionObj (KStr fnName);
        ty ← typeof fn;
        if decide (ty = "function") then
          sym ← defineTrait this fnName;
          wrapper ← new_function (CFunctionWrapper fn);
          _ ← call_impl sym target wrapper;
          mret tt
        else mret tt);
  mret this.

End Calls.

(** ** Calls *)

Definition code_of (st : state) (f : value) : option code :=
  match f with
  | VObj l => heap st !! l ≫= o_call
  | _ => None
  end.

(** [f.call(this, ...args)]: calling what is not a function is a TypeError;
    each call of a function uses one unit of fuel. *)
Fixpoint call (fuel : nat) (f this : value) (args : list value) : M value :=
  λ st,
  match code_of st f with
  | None => (Throw TypeError, st)
  | Some c =>
      match fuel with
      | 0 => diverge st
      | S fuel =>
          match c with
          | CNative n => native n this args st
          | CHasOwnProperty =>
              Object_prototype_hasOwnProperty (call fuel) this args st
          | CFreeFunction sym => freeFunction (call fuel) sym args st
          | CMethodWrapper source methodName =>
              methodWrapper (call fuel) source methodName this args st
          | CFunctionWrapper fn => functionWrapper (call fuel) fn this args st
          end
      end
  end.

(** ** The module: the class [TraitSet] (l.4-25) *)

(** l.14-21: [new TraitSet(traitSet)] *)
Definition TraitSet_new (traitSet : value) : M value :=
  this ← alloc (Obj (Some (TraitSetPrototype R)) true [] None);
  traitSet ← match traitSet with
             | VUndefined => alloc (Obj (Some (ObjectPrototype R)) true [] None)
             | _ => mret traitSet
             end;
  _ ← for_in traitSet (λ key,
        sym ← GetV traitSet (KStr key);
        ty ← typeof sym;
        if decide (ty = "symbol") then PutValue this (KStr key) sym
        else mret tt);
  mret this.

(** [Object.keys(obj)]: the own enumerable string keys. *)
Definition Object_keys (obj : value) : M (list string) :=
  st ← get_state;
  match obj with
  | VUndefined | VNull => throw TypeError
  | VObj l =>
      match heap st !! l with
      | Some o => mret (filter (λ s, is_enumerable o s = true) (own_string_keys o))
      | None => mret []
      end
  | VStr s => mret (pretty <$> seq 0 (String.length s))
  | _ => mret []
  end.

(** l.8-12: [TraitSet.fromStrings(names)] *)
Definition fromStrings (names : list string) : M value :=
  obj ← alloc (Obj (Some (ObjectPrototype R)) true [] None);
  _ ← forEach (λ name, sym ← Symbol_ name; PutValue obj (KStr name) (VSym sym))
        names;
  TraitSet_new obj.

(** l.5-7: [TraitSet.fromKeys(obj)] *)
Definition fromKeys (obj : value) : M value :=
  names ← Object_keys obj;
  fromStrings names.

End Host.

(** ** Notions used in the statements *)

(** The property [k] that the value itself carries. *)
Definition own_property (st : state) (v : value) (k : key) : option property :=
  match v with
  | VObj l => o ← heap st !! l; lookup_key k (o_props o)
  | _ => None
  end.

(** The targets on which [*impl] can define the property [k]: objects
    without an own property [k] that are extensible, and objects whose own
    property [k] is configurable. *)
Definition can_define (st : state) (target : value) (k : key) : bool :=
  match target with
  | VObj l =>
      match heap st !! l with
      | Some o =>
          match lookup_key k (o_props o) with
          | Some cur => p_configurable cur
          | None => o_extensible o
          end
      | None => false
      end
  | _ => false
  end.

Definition impl_descriptor (implementation : value) : descriptor :=
  Desc (Some implementation) None None (Some true).

(** [d] is a function returned by [sym.*asFreeFunction()]. *)
Definition free_function_of (st : state) (d : value) (sym : symbol) : Prop :=
  code_of st d = Some (CFreeFunction sym).

(** The message of the error thrown at l.88 and l.96, [t] being the target
    as the template literal renders it. *)
Definition no_implementation_message (sym : symbol) (target : value)
    (t : string) : string :=
  if bool_decide (target = VUndefined ∨ target = VNull)
  then ".*" +:+ symName sym +:+ " called on " +:+ t
  else ".*" +:+ symName sym +:+ " called on " +:+ t
       +:+ " that doesn't implement it.".

(** [part] occurs in [msg]. *)
Definition includes (msg part : string) : Prop :=
  ∃ before after, msg = before +:+ part +:+ after.

(** What [target[sym]] evaluates to where the free function reads it. *)
Definition binding (R : realm) (st : state) (target : value) (sym : symbol)
  : value :=
  from_option p_value VUndefined (find_property R st target (KSym sym)).

(** The trait set [v] reaches the host's [hasOwnProperty] when it evaluates
    [this.hasOwnProperty] (l.108). *)
Definition uses_builtin_hasOwnProperty (R : realm) (st : state) (v : value)
  : bool :=
  match find_property R st v (KStr "hasOwnProperty") with
  | Some p =>
      match code_of st (p_value p) with
      | Some CHasOwnProperty => true
      | _ => false
      end
  | None => false
  end.

(** [st'] is [st] with one object changed, at most in its property [k]. *)
Definition modifies (k : key) (st st' : state) : Prop :=
  ∃ l o o',
    heap st !! l = Some o ∧ st' = set_heap (<[l := o']> (heap st)) st ∧
    o_proto o' = o_proto o ∧ o_call o' = o_call o ∧
    ∀ k', k' ≠ k → lookup_key k' (o_props o') = lookup_key k' (o_props o).

(** The trait [m] of the set [TS] is bound on [target] to a wrapper of
    [source[m]], and its symbol is one already drawn. *)
Definition adapted (st : state) (TS target source : value) (m : string) : Prop :=
  ∃ p sym q w,
    own_property st TS (KStr m) = Some p ∧ p_value p = VSym sym ∧
    (sym_id sym < next_symbol st)%N ∧
    own_property st target (KSym sym) = Some q ∧ p_value q = VObj w ∧
    code_of st (VObj w) = Some (CMethodWrapper source m).

(** What [this[name]] evaluates to. *)
Definition binding_of_name (R : realm) (st : state) (this : value)
    (name : string) : value :=
  get_value R st this (KStr name).

(** ** A small world to run the module in

    [Object.prototype] (0) with [hasOwnProperty] (2) and [toString] (8),
    [Function.prototype] (1), the prototypes of the primitives (3-6),
    [TraitSet.prototype] (7), three user functions (9, 12, 13), a target
    [{value: "ten"}] (10), the free function of the trait [demo_trait] (11),
    an object without prototype (14), the trait set [{a: demo_trait}] (15),
    the implementations [{a: f9, zzz: f12}] (16) and an object with a
    method, [{serialize: f12}] (17). *)

Definition demo_realm : realm :=
  Realm 0 1 3 4 5 6 7 (Sym 0 (Some "Symbol.toPrimitive")).

Definition demo_trait : symbol := Sym 1 (Some "greet").

Definition demo_native (n : nat) (this : value) (args : list value) : M value :=
  match n with
  | 0 => mret (VStr "[object Object]")          (* Object.prototype.toString *)
  | 1 => GetV demo_realm this (KStr "value")    (* function() { return this.value } *)
  | 2 => mret (hd VUndefined args)              (* function(x) { return x } *)
  | 3 => mret (hd VUndefined (tl args))         (* function(x, y) { return y } *)
  | _ => mret VUndefined
  end.

(** The small host prints zeros, NaN, the infinities and the integers
    below 2^53, which Number::toString prints in plain decimal; it has no
    printing for the other numbers. *)
Definition demo_Number_toString (n : spec_float) : string :=
  match n with
  | S754_zero _ => "0"
  | S754_nan => "NaN"
  | S754_infinity false => "Infinity"
  | S754_infinity true => "-Infinity"
  | S754_finite sign m e =>
      let integer :=
        if (0 <=? e)%Z then Some (Z.pos m * 2 ^ e)%Z
        else if (Z.pos m mod 2 ^ (- e) =? 0)%Z then Some (Z.pos m / 2 ^ (- e))%Z
        else None in
      match integer with
      | Some z =>
          if (z <? 2 ^ 53)%Z
          then (if sign then "-" else "") +:+ pretty (Z.to_N z)
          else "?"
      | None => "?"
      end
  end.

Definition plain (v : value) : property := Prop_ v true true true.
Definition hidden (v : value) : property := Prop_ v true false true.

Definition demo_heap : list object :=
  [ Obj None true [(KStr "hasOwnProperty", hidden (VObj 2));
                   (KStr "toString", hidden (VObj 8))] None;
    Obj (Some 0) true [] None;
    Obj (Some 1) true [] (Some CHasOwnProperty);
    Obj (Some 0) true [] None;
    Obj (Some 0) true [] None;
    Obj (Some 0) true [] None;
    Obj (Some 0) true [] None;
    Obj (Some 0) true [] None;
    Obj (Some 1) true [] (Some (CNative 0));
    Obj (Some 1) true [] (Some (CNative 1));
    Obj (Some 0) true [(KStr "value", plain (VStr "ten"))] None;
    Obj (Some 1) true [] (Some (CFreeFunction demo_trait));
    Obj (Some 1) true [] (Some (CNative 2));
    Obj (Some 1) true [] (Some (CNative 3));
    Obj None true [] None;
    Obj (Some 0) true [(KStr "a", plain (VSym demo_trait))] None;
    Obj (Some 0) true [(KStr "a", plain (VObj 9));
                       (KStr "zzz", plain (VObj 12))] None;
    Obj (Some 0) true [(KStr "serialize", plain (VObj 12))] None ].

Definition demo_state : state := State demo_heap ∅ 2.

Abbreviation demo_call := (call demo_realm demo_native demo_Number_toString).

(** The set [TS] owns the symbol [sy] under the name [k]. *)
Definition borrowed (st : state) (TS : value) (k : string) (sy : symbol) : Prop :=
  ∃ p, own_property st TS (KStr k) = Some p ∧ p_value p = VSym sy.

(** The set [TS] carries a trait named [hasOwnProperty]. *)
Definition shadowed (st : state) (TS : value) : Prop :=
  ∃ p x, own_property st TS (KStr "hasOwnProperty") = Some p ∧ p_value p = VSym x.

(** The set [TS] owns under the name [k] a symbol already drawn, and
    [target] owns the value [v] under that symbol. *)
Definition bound (st : state) (TS target : value) (k : string) (v : value)
  : Prop :=
  ∃ p sym q,
    own_property st TS (KStr k) = Some p ∧ p_value p = VSym sym ∧
    (sym_id sym < next_symbol st)%N ∧
    own_property st target (KSym sym) = Some q ∧ p_value q = v.

(** The same, [v] being a wrapper of the function [fn] (l.194-196). *)
Definition wrapped (st : state) (TS target : value) (k : string) (fn : value)
  : Prop :=
  ∃ w, bound st TS target k (VObj w) ∧
       code_of st (VObj w) = Some (CFunctionWrapper fn).

(** The prototype chain from [start] reaches its end within [fuel] objects
    of the heap. *)
Fixpoint chain_ends (fuel : nat) (h : list object) (start : option loc) : bool :=
  match start with
  | None => true
  | Some l =>
      match fuel with
      | 0 => false
      | S fuel =>
          match h !! l with
          | Some o => chain_ends fuel h (o_proto o)
          | None => false
          end
      end
  end.

(** [v] is an object of the heap whose prototype chain ends. *)
Definition proper_object (st : state) (v : value) : bool :=
  match v with
  | VObj l => chain_ends (chain_fuel (heap st)) (heap st) (Some l)
  | _ => false
  end.

(** A step that changes the store at most in the property [k] of one
    object, and possibly draws symbols. *)
Definition touches (R : realm) (k : key) (st st' : state) : Prop :=
  (∀ v k', k' ≠ k → find_property R st' v k' = find_property R st v k') ∧
  (∀ v k', k' ≠ k → own_property st' v k' = own_property st v k') ∧
  (∀ f, code_of st' f = code_of st f) ∧
  (next_symbol st ≤ next_symbol st')%N ∧
  defaultImpls st' = defaultImpls st ∧
  (∀ v k', k' ≠ k → get_value R st' v k' = get_value R st v k').

(** The symbols that the store holds: as keys and values of properties,
    in the closures of the module, and in the map of the defaults. *)
Definition value_symbols (v : value) : list symbol :=
  match v with VSym s => [s] | _ => [] end.

Definition key_symbols (k : key) : list symbol :=
  match k with KSym s => [s] | KStr _ => [] end.

Definition code_symbols (c : code) : list symbol :=
  match c with
  | CFreeFunction s => [s]
  | CMethodWrapper source _ => value_symbols source
  | CFunctionWrapper fn => value_symbols fn
  | CNative _ | CHasOwnProperty => []
  end.

Definition object_symbols (o : object) : list symbol :=
  (flat_map (λ kp, key_symbols kp.1 ++ value_symbols (p_value kp.2)) (o_props o)
   ++ from_option code_symbols [] (o_call o))%list.

Definition store_symbols (st : state) : list symbol :=
  (flat_map object_symbols (heap st)
   ++ flat_map (λ kv, kv.1 :: value_symbols kv.2)
        (map_to_list (defaultImpls st)))%list.

(** The symbols that exist: those of the store and the well-known symbol
    of the realm. *)
Definition known_symbols (R : realm) (st : state) : list symbol :=
  Symbol_toPrimitive R :: store_symbols st.

(** Every symbol that exists has an identity below the counter, from which
    [Symbol()] draws the next one. *)
Definition counter_ahead (R : realm) (st : state) : bool :=
  forallb (λ s, (sym_id s <? next_symbol st)%N) (known_symbols R st).

(** The small world with a trait set that cannot take new names (18),
    the implementations [{a: f9}] (19) and a trait set that owns a data
    property named [__proto__], as [Object.defineProperty] or a computed
    key in an object literal gives it (20). *)
Definition demo_heap2 : list object :=
  demo_heap ++ [ Obj (Some 0) false [] None;
                 Obj (Some 0) true [(KStr "a", plain (VObj 9))] None;
                 Obj (Some 0) true
                   [(KStr "__proto__", plain (VSym demo_trait))] None ].

Definition demo_state2 : state := State demo_heap2 ∅ 2.

(** * Properties *)

(** Running a computation: unfold the monad. *)
Ltac munfold :=
  unfold mbind, M_bind, mret, M_ret, get_state, put_state, throw, diverge.
Ltac msimpl := munfold; simpl.

Lemma bind_Ok {A B} (m : M A) (f : A → M B) st a st' :
  m st = (Ok a, st') → (m ≫= f) st = f a st'.
Proof. unfold mbind, M_bind. by intros ->. Qed.

Lemma bind_Throw {A B} (m : M A) (f : A → M B) st e st' :
  m st = (Throw e, st') → (m ≫= f) st = (Throw e, st').
Proof. unfold mbind, M_bind. by intros ->. Qed.

Lemma bind_Ok_inv {A B} (m : M A) (f : A → M B) st b st' :
  (m ≫= f) st = (Ok b, st') →
  ∃ a st1, m st = (Ok a, st1) ∧ f a st1 = (Ok b, st').
Proof.
  unfold mbind, M_bind. destruct (m st) as [[a| |] st1]; try done.
  intros H. by exists a, st1.
Qed.

Lemma GetV_run R v k st :
  ¬ (v = VUndefined ∨ v = VNull) →
  GetV R v k st = (Ok (get_value R st v k), st).
Proof. destruct v; try done; intros H; exfalso; apply H; auto. Qed.

(** The accessor serves the name [__proto__] only. *)
Lemma proto_accessor_other R st v k :
  k ≠ KStr "__proto__" → proto_accessor R st v k = false.
Proof. intros Hk. unfold proto_accessor. by rewrite bool_decide_false. Qed.

Lemma get_value_other R st v k :
  k ≠ KStr "__proto__" →
  get_value R st v k = from_option p_value VUndefined (find_property R st v k).
Proof. intros Hk. unfold get_value. by rewrite proto_accessor_other. Qed.

Lemma GetV_other R v k st :
  ¬ (v = VUndefined ∨ v = VNull) → k ≠ KStr "__proto__" →
  GetV R v k st = (Ok (from_option p_value VUndefined (find_property R st v k)), st).
Proof. intros Hv Hk. by rewrite GetV_run, get_value_other. Qed.

Lemma GetV_sym R v s st :
  ¬ (v = VUndefined ∨ v = VNull) →
  GetV R v (KSym s) st
  = (Ok (from_option p_value VUndefined (find_property R st v (KSym s))), st).
Proof. intros Hv. by apply GetV_other. Qed.

Lemma forEach_app {A} (f : A → M unit) (xs ys : list A) st :
  forEach f (xs ++ ys) st = (forEach f xs ≫= λ _, forEach f ys) st.
Proof.
  revert st. induction xs as [|x xs IH]; intros st; simpl; [done|].
  unfold mbind, M_bind. destruct (f x st) as [[[]| |] st1]; [apply IH|done|done].
Qed.

(** ** Strings *)

Lemma append_cons (x : ascii) (a b : string) :
  String x a +:+ b = String x (a +:+ b).
Proof. reflexivity. Qed.

Lemma append_assoc (a b c : string) : (a +:+ b) +:+ c = a +:+ (b +:+ c).
Proof.
  induction a as [|x a IH]; [done|]. by rewrite !append_cons, IH.
Qed.

Lemma append_empty_r (a : string) : a +:+ "" = a.
Proof. induction a as [|x a IH]; [done|]. by rewrite append_cons, IH. Qed.

Lemma substring_prefix (a b : string) :
  String.substring 0 (String.length a) (a +:+ b) = a.
Proof.
  induction a as [|x a IH]; [by destruct b|].
  rewrite append_cons. simpl. by rewrite IH.
Qed.

Lemma length_append (a b : string) :
  String.length (a +:+ b) = (String.length a + String.length b)%nat.
Proof.
  induction a as [|x a IH]; [done|]. rewrite append_cons. simpl. by rewrite IH.
Qed.

(** The name under which a trait appears in messages is the description
    it was created with. *)
Lemma symName_description id description :
  symName (Sym id (Some description)) = description.
Proof.
  unfold symName, SymbolDescriptiveString, slice. simpl sym_description.
  simpl default.
  set (n := String.length description).
  assert (Hlen : String.length ("Symbol(" +:+ description +:+ ")") = (n + 8)%nat).
  { rewrite !length_append. simpl. fold n. lia. }
  rewrite Hlen.
  replace (7 <? 0)%Z with false by done. replace (-1 <? 0)%Z with true by done.
  match goal with
  | |- String.substring ?i ?k _ = _ =>
      replace k with n by lia; replace i with 7%nat by lia
  end.
  change ("Symbol(" +:+ description +:+ ")")
    with (String "S" (String "y" (String "m" (String "b" (String "o"
           (String "l" (String "(" (description +:+ ")")))))))).
  simpl String.substring. apply substring_prefix.
Qed.

(** ** Own properties *)

Lemma lookup_key_app_new k p ps :
  lookup_key k ps = None → lookup_key k (ps ++ [(k, p)]) = Some p.
Proof.
  induction ps as [|[k' p'] ps IH]; simpl.
  - intros _. by rewrite decide_True.
  - destruct (decide (k = k')); [done | exact IH].
Qed.

Lemma lookup_key_app_other k k' p ps :
  k ≠ k' → lookup_key k' (ps ++ [(k, p)]) = lookup_key k' ps.
Proof.
  intros Hne. induction ps as [|[k2 p2] ps IH]; simpl.
  - by rewrite decide_False.
  - destruct (decide (k' = k2)); [done | exact IH].
Qed.

Lemma lookup_key_replace_eq k p ps :
  is_Some (lookup_key k ps) → lookup_key k (replace_key k p ps) = Some p.
Proof.
  induction ps as [|[k' p'] ps IH]; simpl.
  - by intros [? ?].
  - destruct (decide (k = k')) as [->|Hne]; simpl.
    + intros _. by rewrite decide_True.
    + intros H. rewrite decide_False by done. by apply IH.
Qed.

Lemma lookup_key_replace_ne k k' p ps :
  k ≠ k' → lookup_key k' (replace_key k p ps) = lookup_key k' ps.
Proof.
  intros Hne. induction ps as [|[k2 p2] ps IH]; simpl; [done|].
  destruct (decide (k = k2)) as [->|Hk]; simpl.
  - by rewrite !decide_False by done.
  - destruct (decide (k' = k2)); [done | exact IH].
Qed.

(** What a successful [validate_and_apply] leaves: the object keeps its
    prototype, its [[Call]] slot and its other properties; the property
    [k] carries the fields of the descriptor. *)
Lemma validate_and_apply_Some o k d o' :
  validate_and_apply o k d = Some o' →
  o_proto o' = o_proto o ∧ o_call o' = o_call o ∧
  o_extensible o' = o_extensible o ∧
  (∀ k', k' ≠ k → lookup_key k' (o_props o') = lookup_key k' (o_props o)) ∧
  ∃ p, lookup_key k (o_props o') = Some p ∧
       (∀ v, d_value d = Some v → p_value p = v) ∧
       (∀ b, d_writable d = Some b → p_writable p = b) ∧
       (∀ b, d_enumerable d = Some b → p_enumerable p = b) ∧
       (∀ b, d_configurable d = Some b → p_configurable p = b).
Proof.
  unfold validate_and_apply.
  destruct (lookup_key k (o_props o)) as [cur|] eqn:Hk.
  - match goal with |- context [if ?c then None else _] => destruct c end;
      [done|].
    intros [= <-]. simpl. do 3 (split; [done|]). split.
    + intros k' Hne. by apply lookup_key_replace_ne.
    + eexists. split; [apply lookup_key_replace_eq; by rewrite Hk|].
      simpl. repeat split; by intros ? ->.
  - destruct (o_extensible o) eqn:He; [|done].
    intros [= <-]. simpl. do 3 (split; [done|]). split.
    + intros k' Hne. by apply lookup_key_app_other.
    + eexists. split; [by apply lookup_key_app_new|].
      simpl. repeat split; by intros ? ->.
Qed.

(** ** The heap under update and allocation *)

Lemma lookup_chain_own fuel h l o k p :
  h !! l = Some o → lookup_key k (o_props o) = Some p →
  lookup_chain (S fuel) h (Some l) k = Some p.
Proof. intros Hl Hk. simpl. by rewrite Hl, Hk. Qed.

Lemma find_property_own R st l k p :
  own_property st (VObj l) k = Some p →
  find_property R st (VObj l) k = Some p.
Proof.
  unfold own_property, find_property, chain_fuel. simpl.
  destruct (heap st !! l) as [o|] eqn:Hl; simpl; [|done].
  intros Hk. by rewrite Hk.
Qed.

(** A data property of the object itself is what a read finds, under the
    name [__proto__] as well. *)
Lemma proto_accessor_own R st l k p :
  own_property st (VObj l) k = Some p → proto_accessor R st (VObj l) k = false.
Proof.
  unfold own_property, proto_accessor, chain_fuel. intros Hown.
  case_bool_decide as Hk; [subst k|done]. simpl.
  destruct (heap st !! l) as [o|]; [|done]. simpl in Hown. by rewrite Hown.
Qed.

Lemma get_value_own R st l k p :
  own_property st (VObj l) k = Some p → get_value R st (VObj l) k = p_value p.
Proof.
  intros Hown. unfold get_value.
  rewrite (proto_accessor_own R _ _ _ _ Hown).
  by rewrite (find_property_own R _ l _ p).
Qed.

Lemma own_GetV R st v k p :
  own_property st v k = Some p →
  GetV R v k st = (Ok (p_value p), st).
Proof.
  destruct v as [| | | | | |l]; try done. intros Hown.
  rewrite GetV_run by (intros [?|?]; discriminate). unfold get_value.
  rewrite (proto_accessor_own R _ _ _ _ Hown).
  by rewrite (find_property_own R _ l _ p).
Qed.

(** Replacing an object by one with the same prototype and the same
    property [k] leaves every lookup of [k] as it was. *)
Lemma lookup_chain_insert_other fuel h l o o' start k :
  h !! l = Some o → o_proto o' = o_proto o →
  lookup_key k (o_props o') = lookup_key k (o_props o) →
  lookup_chain fuel (<[l := o']> h) start k = lookup_chain fuel h start k.
Proof.
  intros Hl Hproto Hk. revert start.
  induction fuel as [|fuel IH]; intros [l'|]; simpl; try done.
  destruct (decide (l = l')) as [<-|Hne].
  - rewrite list_lookup_insert_eq by (by eapply lookup_lt_Some).
    rewrite Hl, Hk, Hproto. by rewrite IH.
  - rewrite list_lookup_insert_ne by done.
    destruct (h !! l') as [o2|]; [|done]. by rewrite IH.
Qed.

Lemma proto_accessor_on_chain_insert R fuel h l o o' start :
  h !! l = Some o → o_proto o' = o_proto o →
  lookup_key (KStr "__proto__") (o_props o')
  = lookup_key (KStr "__proto__") (o_props o) →
  proto_accessor_on_chain R fuel (<[l := o']> h) start
  = proto_accessor_on_chain R fuel h start.
Proof.
  intros Hl Hproto Hk. revert start.
  induction fuel as [|fuel IH]; intros [l'|]; simpl; try done.
  destruct (decide (l = l')) as [<-|Hne].
  - rewrite list_lookup_insert_eq by (by eapply lookup_lt_Some).
    rewrite Hl, Hk, Hproto. by rewrite IH.
  - rewrite list_lookup_insert_ne by done.
    destruct (h !! l') as [o2|]; [|done]. by rewrite IH.
Qed.

(** Giving an object a property [k] makes every lookup of [k] find either
    what it found before or that property. *)
Lemma lookup_chain_insert_same fuel h l o o' start k p :
  h !! l = Some o → o_proto o' = o_proto o →
  lookup_key k (o_props o') = Some p →
  lookup_chain fuel (<[l := o']> h) start k = lookup_chain fuel h start k
  ∨ lookup_chain fuel (<[l := o']> h) start k = Some p.
Proof.
  intros Hl Hproto Hk. revert start.
  induction fuel as [|fuel IH]; intros [l'|]; simpl; auto.
  destruct (decide (l = l')) as [<-|Hne].
  - rewrite list_lookup_insert_eq by (by eapply lookup_lt_Some).
    rewrite Hk. by right.
  - rewrite list_lookup_insert_ne by done.
    destruct (h !! l') as [o2|]; [|by left].
    destruct (lookup_key k (o_props o2)); [by left | apply IH].
Qed.

(** A property that a lookup finds is still found with more fuel and in a
    larger heap. *)
Lemma lookup_chain_extend (fuel fuel' : nat) h h' start k p :
  lookup_chain fuel h start k = Some p → (fuel ≤ fuel')%nat →
  lookup_chain fuel' (h ++ h') start k = Some p.
Proof.
  revert fuel' start. induction fuel as [|fuel IH]; intros fuel' start; [done|].
  destruct fuel' as [|fuel']; [lia|]. destruct start as [l|]; [|done].
  simpl. destruct (h !! l) as [o|] eqn:Hl; [|done].
  rewrite (lookup_app_l_Some _ _ _ _ Hl).
  destruct (lookup_key k (o_props o)); [done|].
  intros H ?. apply IH; [done | lia].
Qed.

(** ** [*impl] *)

Lemma impl_Ok sym target fn st r st' :
  impl sym target fn st = (Ok r, st') →
  r = VSym sym ∧
  ∃ l o o', target = VObj l ∧ heap st !! l = Some o ∧
            validate_and_apply o (KSym sym) (impl_descriptor fn) = Some o' ∧
            st' = set_heap (<[l := o']> (heap st)) st.
Proof.
  unfold impl, Object_defineProperty. msimpl.
  destruct target as [| | | | | |l]; try done.
  destruct (heap st !! l) as [o|] eqn:Hl; [|done].
  fold (impl_descriptor fn).
  destruct (validate_and_apply o (KSym sym) (impl_descriptor fn)) as [o'|] eqn:Hv;
    [|done].
  intros [= <- <-]. split; [done|]. by exists l, o, o'.
Qed.

Lemma impl_can_define sym target fn st :
  can_define st target (KSym sym) = false →
  impl sym target fn st = (Throw TypeError, st).
Proof.
  unfold impl, Object_defineProperty, can_define, validate_and_apply. msimpl.
  destruct target as [| | | | | |l]; try done.
  destruct (heap st !! l) as [o|]; [|done].
  destruct (lookup_key (KSym sym) (o_props o)) as [cur|]; simpl.
  - by intros ->.
  - by intros ->.
Qed.

Lemma impl_cannot_fail sym target fn st :
  can_define st target (KSym sym) = true →
  ∃ st', impl sym target fn st = (Ok (VSym sym), st').
Proof.
  unfold impl, Object_defineProperty, can_define, validate_and_apply. msimpl.
  destruct target as [| | | | | |l]; try done.
  destruct (heap st !! l) as [o|]; [|done].
  destruct (lookup_key (KSym sym) (o_props o)) as [cur|]; simpl.
  - intros ->. simpl. by eexists.
  - intros ->. by eexists.
Qed.

(** After a successful [*impl], the target owns the binding. *)
Lemma impl_binding sym target fn st r st' :
  impl sym target fn st = (Ok r, st') →
  ∃ p, own_property st' target (KSym sym) = Some p ∧
       p_value p = fn ∧ p_configurable p = true.
Proof.
  intros (_ & l & o & o' & -> & Hl & Hv & ->)%impl_Ok.
  apply validate_and_apply_Some in Hv as (_ & _ & _ & _ & p & Hp & Hval & _ & _ & Hc).
  exists p. unfold own_property. simpl.
  rewrite list_lookup_insert_eq by (by eapply lookup_lt_Some). simpl.
  split; [done|]. split; [by apply Hval | by apply Hc].
Qed.

(** ** The free function *)

Section Dispatch.

Variable R : realm.
Variable native : nat → value → list value → M value.
Variable Number_toString : spec_float → string.

Abbreviation call := (call R native Number_toString).
Abbreviation freeFunction := (freeFunction R Number_toString).

Lemma call_free_function fuel d sym this arguments st :
  free_function_of st d sym →
  call (S fuel) d this arguments st
  = freeFunction (call fuel) sym arguments st.
Proof. unfold free_function_of. intros H. simpl. by rewrite H. Qed.

(** [*asFreeFunction] returns a new function, a free function of the
    symbol, and leaves the rest of the heap as it was. *)
Lemma asFreeFunction_run sym st :
  ∃ st', asFreeFunction R sym st = (Ok (VObj (length (heap st))), st') ∧
         free_function_of st' (VObj (length (heap st))) sym ∧
         (∀ l o, heap st !! l = Some o → heap st' !! l = Some o) ∧
         defaultImpls st' = defaultImpls st.
Proof.
  eexists. split; [reflexivity|]. split; [|split; [|done]].
  - unfold free_function_of. simpl. by rewrite list_lookup_middle.
  - intros l o Hl. simpl. by apply lookup_app_l_Some.
Qed.

(** [*impl] leaves the free functions what they are. *)
Lemma impl_free_function sym' target fn st r st' d sym :
  impl sym' target fn st = (Ok r, st') →
  free_function_of st d sym → free_function_of st' d sym.
Proof.
  intros (_ & l & o & o' & -> & Hl & Hv & ->)%impl_Ok.
  apply validate_and_apply_Some in Hv as (_ & Hc & _).
  unfold free_function_of. destruct d as [| | | | | |l']; try done. simpl.
  destruct (decide (l = l')) as [<-|Hne].
  - rewrite list_lookup_insert_eq by (by eapply lookup_lt_Some).
    rewrite Hl. simpl. by rewrite Hc.
  - by rewrite list_lookup_insert_ne.
Qed.

(** A truthy binding found on the target, or on its prototype chain, is
    called with the target as [this]. *)
Lemma freeFunction_bound callf sym target args st p :
  find_property R st target (KSym sym) = Some p →
  ToBoolean (p_value p) = true →
  freeFunction callf sym (target :: args) st
  = callf (p_value p) target args st.
Proof.
  intros Hp Ht. unfold freeFunction. cbn [hd tl].
  assert (Hn : ¬ (target = VUndefined ∨ target = VNull))
    by (intros [->| ->]; discriminate).
  rewrite bool_decide_false by done.
  rewrite (bind_Ok _ _ _ _ _ (GetV_sym R _ _ st Hn)), Hp. simpl. rewrite Ht. simpl.
  by rewrite (bind_Ok _ _ _ _ _ (GetV_sym R _ _ st Hn)), Hp.
Qed.

(** The free function derived from a symbol, called on a target that owns
    a truthy value under the symbol, calls that value. *)
Lemma derived_dispatch sym st d st2 target q this args fuel :
  asFreeFunction R sym st = (Ok d, st2) →
  own_property st target (KSym sym) = Some q →
  ToBoolean (p_value q) = true →
  call (S fuel) d this (target :: args) st2
  = call fuel (p_value q) target args st2.
Proof.
  intros Hfree Hq Ht.
  destruct (asFreeFunction_run sym st) as (st2' & Hrun & Hd & Hkeep & _).
  rewrite Hrun in Hfree. injection Hfree as <- <-.
  rewrite (call_free_function _ _ _ _ _ _ Hd).
  destruct target as [| | | | | |l]; try done.
  apply freeFunction_bound; [|done]. apply find_property_own.
  unfold own_property in *. destruct (heap st !! l) as [o|] eqn:Hl; [|done].
  by rewrite (Hkeep _ _ Hl).
Qed.

End Dispatch.

(** ** Binding and dispatch *)

Section Binding.

Variable R : realm.
Variable native : nat → value → list value → M value.
Variable Number_toString : spec_float → string.

Abbreviation call := (call R native Number_toString).

(** C1. After [id.*impl(target, fn)] has returned, the free function of
    [id] called as [d(target, ...args)] does what calling [fn] with
    [target] as [this] and [args] as arguments does: same result, same
    effect on the store, one call deeper.  [fn] is a function, so it is
    truthy. *)
Theorem impl_then_dispatch sym target fn st0 r st d this args fuel :
  impl sym target fn st0 = (Ok r, st) →
  ToBoolean fn = true →
  free_function_of st d sym →
  call (S fuel) d this (target :: args) st = call fuel fn target args st.
Proof.
  intros Himpl Hfn Hd.
  destruct (impl_binding _ _ _ _ _ _ Himpl) as (p & Hown & <- & _).
  apply impl_Ok in Himpl as (_ & l & _ & _ & -> & _).
  rewrite (call_free_function _ _ _ _ _ _ _ _ _ Hd).
  by apply freeFunction_bound; [apply find_property_own|].
Qed.

(** C6. Two bindings for the same pair: once the first [*impl] has
    returned, the second returns as well, and the free function then calls
    the second implementation. *)
Theorem last_write_wins sym target fnA fnB st0 r st1 :
  impl sym target fnA st0 = (Ok r, st1) →
  ToBoolean fnB = true →
  ∃ st2, impl sym target fnB st1 = (Ok (VSym sym), st2) ∧
         (p_value <$> own_property st2 target (KSym sym)) = Some fnB ∧
         ∀ d this args fuel,
           free_function_of st2 d sym →
           call (S fuel) d this (target :: args) st2
           = call fuel fnB target args st2.
Proof.
  intros HA HB.
  destruct (impl_binding _ _ _ _ _ _ HA) as (p & Hown & _ & Hc).
  destruct (impl_cannot_fail sym target fnB st1) as [st2 H2].
  { apply impl_Ok in HA as (_ & l & _ & _ & -> & _).
    unfold can_define. unfold own_property in Hown.
    destruct (heap st1 !! l) as [o|]; [|done]. simpl in Hown. by rewrite Hown. }
  exists st2. split; [done|].
  destruct (impl_binding _ _ _ _ _ _ H2) as (p2 & Hown2 & <- & _).
  split; [by rewrite Hown2|].
  intros d this args fuel Hd.
  apply impl_Ok in H2 as (_ & l & _ & _ & -> & _).
  rewrite (call_free_function _ _ _ _ _ _ _ _ _ Hd).
  by apply freeFunction_bound; [apply find_property_own|].
Qed.

End Binding.

(** C5, as the code has it. [*impl] returns the identifier and leaves [fn]
    bound on every object that has no property of its own under the
    identifier and is extensible, or has one that is configurable (as one
    left by an earlier [*impl] is); on any other target, a primitive among
    them, it throws a TypeError and changes nothing. *)
Theorem impl_succeeds_iff sym target fn st :
  if can_define st target (KSym sym)
  then ∃ st', impl sym target fn st = (Ok (VSym sym), st') ∧
              (p_value <$> own_property st' target (KSym sym)) = Some fn
  else impl sym target fn st = (Throw TypeError, st).
Proof.
  destruct (can_define st target (KSym sym)) eqn:Hc.
  - destruct (impl_cannot_fail sym target fn st Hc) as [st' H].
    exists st'. split; [done|].
    destruct (impl_binding _ _ _ _ _ _ H) as (p & Hown & <- & _).
    by rewrite Hown.
  - by apply impl_can_define.
Qed.

(** C5 as stated fails: [*impl] throws on [null]. *)
Lemma impl_fails_on_null :
  ¬ (∀ sym target fn st, ∃ st', impl sym target fn st = (Ok (VSym sym), st')).
Proof. intros H. by destruct (H demo_trait VNull (VObj 9) demo_state). Qed.

Lemma impl_then_dispatch_witness :
  let st := (impl demo_trait (VObj 10) (VObj 9) demo_state).2 in
  impl demo_trait (VObj 10) (VObj 9) demo_state = (Ok (VSym demo_trait), st) ∧
  ToBoolean (VObj 9) = true ∧
  free_function_of st (VObj 11) demo_trait ∧
  demo_call 2 (VObj 11) VUndefined [VObj 10] st = (Ok (VStr "ten"), st).
Proof.
  intros st.
  assert (H1 : impl demo_trait (VObj 10) (VObj 9) demo_state
               = (Ok (VSym demo_trait), st)) by reflexivity.
  assert (H2 : ToBoolean (VObj 9) = true) by reflexivity.
  assert (H3 : free_function_of st (VObj 11) demo_trait) by reflexivity.
  split; [exact H1|]. split; [exact H2|]. split; [exact H3|].
  rewrite (impl_then_dispatch demo_realm demo_native demo_Number_toString
             _ _ _ _ _ _ _ VUndefined [] 1 H1 H2 H3).
  reflexivity.
Defined.

Lemma last_write_wins_witness :
  let st1 := (impl demo_trait (VObj 10) (VObj 12) demo_state).2 in
  impl demo_trait (VObj 10) (VObj 12) demo_state = (Ok (VSym demo_trait), st1) ∧
  ToBoolean (VObj 9) = true ∧
  ∃ st2, impl demo_trait (VObj 10) (VObj 9) st1 = (Ok (VSym demo_trait), st2) ∧
         demo_call 2 (VObj 11) VUndefined [VObj 10] st2 = (Ok (VStr "ten"), st2).
Proof.
  intros st1.
  assert (H1 : impl demo_trait (VObj 10) (VObj 12) demo_state
               = (Ok (VSym demo_trait), st1)) by reflexivity.
  assert (H2 : ToBoolean (VObj 9) = true) by reflexivity.
  split; [exact H1|]. split; [exact H2|].
  destruct (last_write_wins demo_realm demo_native demo_Number_toString
              _ _ _ _ _ _ _ H1 H2) as (st2 & Himpl & _ & Hcall).
  exists st2. split; [exact Himpl|].
  assert (Hst2 : st2 = (impl demo_trait (VObj 10) (VObj 9) st1).2)
    by (by rewrite Himpl).
  rewrite (Hcall (VObj 11) VUndefined [] 1) by (by rewrite Hst2).
  by rewrite Hst2.
Defined.

(** ** Dispatch without a binding *)

Section Fallback.

Variable R : realm.
Variable native : nat → value → list value → M value.
Variable Number_toString : spec_float → string.

Abbreviation call := (call R native Number_toString).
Abbreviation freeFunction := (freeFunction R Number_toString).
Abbreviation ToString := (ToString R Number_toString).

(** With no truthy binding, on a target that is null or undefined or on
    any other, the free function calls the default implementation when
    there is one and otherwise throws, after rendering the target. *)
Lemma freeFunction_unbound callf sym arguments st :
  let target := hd VUndefined arguments in
  ToBoolean (binding R st target sym) = false →
  freeFunction callf sym arguments st
  = match defaultImpls st !! sym with
    | Some default_ => callf default_ VUndefined (target :: tl arguments) st
    | None =>
        (t ← ToString callf target;
         throw (Error (no_implementation_message sym target t))) st
    end.
Proof.
  intros target Hb. unfold freeFunction, no_implementation_message.
  fold target. case_bool_decide as Hn.
  - munfold. by destruct (defaultImpls st !! sym).
  - rewrite (bind_Ok _ _ _ _ _ (GetV_sym R _ _ st Hn)).
    fold (binding R st target sym). rewrite Hb. simpl.
    munfold. by destruct (defaultImpls st !! sym).
Qed.

Lemma implDefault_run sym fn st :
  implDefault sym fn st
  = (Ok (VSym sym),
     State (heap st) (<[sym := fn]> (defaultImpls st)) (next_symbol st)).
Proof. reflexivity. Qed.

(** C2. [id.*implDefault(fn)] always returns and registers [fn]; and
    wherever [fn] is registered for [id] and the target (the first
    argument, [undefined] when there is none) has no binding for [id] (as
    [null] and [undefined] never have), the free function does what
    calling [fn] with the target followed by the other arguments does. *)
Theorem default_fallback sym fn :
  (∀ st0, ∃ st, implDefault sym fn st0 = (Ok (VSym sym), st) ∧
                defaultImpls st !! sym = Some fn ∧ heap st = heap st0) ∧
  (∀ st d this arguments fuel,
     defaultImpls st !! sym = Some fn →
     find_property R st (hd VUndefined arguments) (KSym sym) = None →
     free_function_of st d sym →
     call (S fuel) d this arguments st
     = call fuel fn VUndefined (hd VUndefined arguments :: tl arguments) st).
Proof.
  split.
  - intros st0. eexists. split; [apply implDefault_run|].
    simpl. by rewrite lookup_insert_eq.
  - intros st d this arguments fuel Hdef Hnone Hd.
    rewrite (call_free_function _ _ _ _ _ _ _ _ _ Hd).
    rewrite freeFunction_unbound by (unfold binding; by rewrite Hnone).
    by rewrite Hdef.
Qed.

(** The error of l.88 and l.96: with neither a truthy binding nor a
    default, and a target that the template literal can render as [t], the
    free function throws an [Error] whose message includes the name of the
    trait and [t]. *)
Lemma no_implementation_error callf sym arguments st t st' :
  let target := hd VUndefined arguments in
  ToBoolean (binding R st target sym) = false →
  defaultImpls st !! sym = None →
  ToString callf target st = (Ok t, st') →
  ∃ msg, freeFunction callf sym arguments st = (Throw (Error msg), st') ∧
         includes msg (symName sym) ∧ includes msg t.
Proof.
  intros target Hb Hdef Ht.
  exists (no_implementation_message sym target t). split.
  - rewrite freeFunction_unbound by done. rewrite Hdef.
    by rewrite (bind_Ok _ _ _ _ _ Ht).
  - unfold no_implementation_message, includes. case_bool_decide.
    + split.
      * by exists ".*", (" called on " +:+ t).
      * exists (".*" +:+ symName sym +:+ " called on "), "".
        by rewrite append_empty_r, <- !append_assoc.
    + split.
      * by exists ".*", (" called on " +:+ t +:+ " that doesn't implement it.").
      * exists (".*" +:+ symName sym +:+ " called on "),
               " that doesn't implement it.".
        by rewrite <- !append_assoc.
Qed.

End Fallback.

(** ** Stores that differ in one property *)

Section Frame.

Variable R : realm.

Lemma modifies_code_of k st st' f :
  modifies k st st' → code_of st' f = code_of st f.
Proof.
  intros (l & o & o' & Hl & -> & _ & Hcall & _).
  destruct f as [| | | | | |l']; try done. simpl.
  destruct (decide (l = l')) as [<-|Hne].
  - rewrite list_lookup_insert_eq by (by eapply lookup_lt_Some).
    rewrite Hl. simpl. by rewrite Hcall.
  - by rewrite list_lookup_insert_ne.
Qed.

Lemma modifies_lookup_chain k st st' fuel start k' :
  modifies k st st' → k' ≠ k →
  lookup_chain fuel (heap st') start k' = lookup_chain fuel (heap st) start k'.
Proof.
  intros (l & o & o' & Hl & -> & Hproto & _ & Hother) Hne. simpl.
  eapply lookup_chain_insert_other; eauto.
Qed.

Lemma modifies_next_symbol k st st' :
  modifies k st st' → next_symbol st' = next_symbol st.
Proof. by intros (l & o & o' & _ & -> & _). Qed.

Lemma modifies_length k st st' :
  modifies k st st' → length (heap st') = length (heap st).
Proof. intros (l & o & o' & _ & -> & _). simpl. apply length_insert. Qed.

Lemma modifies_find_property k st st' v k' :
  modifies k st st' → k' ≠ k →
  find_property R st' v k' = find_property R st v k'.
Proof.
  intros Hm Hne. unfold find_property, chain_fuel.
  rewrite (modifies_length _ _ _ Hm).
  destruct v; try done;
    try destruct (string_own _ _); try done;
    by apply modifies_lookup_chain with k.
Qed.

Lemma modifies_proto_accessor k st st' v k' :
  modifies k st st' → k' ≠ k →
  proto_accessor R st' v k' = proto_accessor R st v k'.
Proof.
  intros Hm Hne. unfold proto_accessor. case_bool_decide as Hk; [|done].
  subst k'. cbn [andb]. unfold chain_fuel. rewrite (modifies_length _ _ _ Hm).
  destruct Hm as (l & o & o' & Hl & -> & Hproto & _ & Hother).
  cbn [heap set_heap].
  destruct v; try done;
    by apply (proto_accessor_on_chain_insert R _ _ _ o); [..|apply Hother].
Qed.

Lemma modifies_prototype_value k st st' v :
  modifies k st st' → prototype_value R st' v = prototype_value R st v.
Proof.
  intros (l & o & o' & Hl & -> & Hproto & _).
  destruct v as [| | | | | |l']; try done. simpl.
  destruct (decide (l = l')) as [<-|Hne].
  - rewrite list_lookup_insert_eq by (by eapply lookup_lt_Some).
    by rewrite Hl, Hproto.
  - by rewrite list_lookup_insert_ne.
Qed.

(** Reading any other name gives what it gave. *)
Lemma modifies_get_value k st st' v k' :
  modifies k st st' → k' ≠ k →
  get_value R st' v k' = get_value R st v k'.
Proof.
  intros Hm Hne. unfold get_value.
  rewrite (modifies_proto_accessor _ _ _ _ _ Hm Hne).
  rewrite (modifies_prototype_value _ _ _ _ Hm).
  by rewrite (modifies_find_property _ _ _ _ _ Hm Hne).
Qed.

Lemma modifies_own_property k st st' v k' :
  modifies k st st' → k' ≠ k →
  own_property st' v k' = own_property st v k'.
Proof.
  intros (l & o & o' & Hl & -> & _ & _ & Hother) Hne.
  destruct v as [| | | | | |l']; try done. simpl.
  destruct (decide (l = l')) as [<-|Hl'].
  - rewrite list_lookup_insert_eq by (by eapply lookup_lt_Some).
    rewrite Hl. simpl. by apply Hother.
  - by rewrite list_lookup_insert_ne.
Qed.

Lemma modifies_uses_builtin k st st' v :
  modifies k st st' → k ≠ KStr "hasOwnProperty" →
  uses_builtin_hasOwnProperty R st' v = uses_builtin_hasOwnProperty R st v.
Proof.
  intros Hm Hne. unfold uses_builtin_hasOwnProperty.
  rewrite (modifies_find_property _ _ _ _ _ Hm) by done.
  destruct (find_property R st v _); [|done].
  by rewrite (modifies_code_of _ _ _ _ Hm).
Qed.

(** A lookup of the changed property finds what it found before, or the
    changed property itself. *)
Lemma modifies_find_property_same st l o o' v k p :
  heap st !! l = Some o → o_proto o' = o_proto o →
  lookup_key k (o_props o') = Some p →
  let st' := set_heap (<[l := o']> (heap st)) st in
  find_property R st' v k = find_property R st v k
  ∨ find_property R st' v k = Some p.
Proof.
  intros Hl Hproto Hk st'. unfold find_property, chain_fuel. subst st'.
  cbn [heap set_heap]. rewrite length_insert.
  destruct v; auto;
    try destruct (string_own _ _); auto;
    by eapply lookup_chain_insert_same.
Qed.

(** Allocation keeps what was found. *)
Lemma alloc_run o st :
  alloc o st = (Ok (VObj (length (heap st))), set_heap (heap st ++ [o]) st).
Proof. reflexivity. Qed.

Lemma alloc_find_property o st v k p :
  find_property R st v k = Some p →
  find_property R (set_heap (heap st ++ [o]) st) v k = Some p.
Proof.
  unfold find_property, chain_fuel. cbn [heap set_heap]. rewrite length_app.
  destruct v; try done;
    try destruct (string_own _ _); try done;
    intros H; eapply lookup_chain_extend; eauto; lia.
Qed.

Lemma alloc_own_property o st v k p :
  own_property st v k = Some p →
  own_property (set_heap (heap st ++ [o]) st) v k = Some p.
Proof.
  destruct v as [| | | | | |l]; try done. simpl.
  destruct (heap st !! l) as [o1|] eqn:Hl; [|done].
  by rewrite (lookup_app_l_Some _ _ _ _ Hl).
Qed.

Lemma alloc_code_of o st f c :
  code_of st f = Some c →
  code_of (set_heap (heap st ++ [o]) st) f = Some c.
Proof.
  destruct f as [| | | | | |l]; try done. simpl.
  destruct (heap st !! l) as [o1|] eqn:Hl; [|done].
  by rewrite (lookup_app_l_Some _ _ _ _ Hl).
Qed.

Lemma alloc_code_of_new o st :
  code_of (set_heap (heap st ++ [o]) st) (VObj (length (heap st))) = o_call o.
Proof. simpl. by rewrite list_lookup_middle. Qed.

Lemma alloc_uses_builtin o st v :
  uses_builtin_hasOwnProperty R st v = true →
  uses_builtin_hasOwnProperty R (set_heap (heap st ++ [o]) st) v = true.
Proof.
  unfold uses_builtin_hasOwnProperty.
  destruct (find_property R st v _) as [p|] eqn:Hp; [|done].
  rewrite (alloc_find_property _ _ _ _ _ Hp).
  destruct (code_of st (p_value p)) as [c|] eqn:Hc; [|done].
  by rewrite (alloc_code_of _ _ _ _ Hc).
Qed.

(** An assignment served by the accessor [__proto__] calls its setter,
    which does nothing when given a symbol. *)
Lemma PutValue_setter base k V st :
  proto_accessor R st base k = true →
  PutValue R base k V st = proto_setter R base V st.
Proof. intros Ha. unfold PutValue. munfold. by rewrite Ha. Qed.

Lemma PutValue_setter_sym base k s st :
  proto_accessor R st base k = true →
  PutValue R base k (VSym s) st = (Ok tt, st).
Proof. intros Ha. by rewrite PutValue_setter. Qed.

(** What a successful assignment and a successful [*impl] change. *)
Lemma PutValue_Ok base k v st u st' :
  proto_accessor R st base k = false →
  PutValue R base k v st = (Ok u, st') →
  ∃ l o o' p,
    base = VObj l ∧ heap st !! l = Some o ∧
    st' = set_heap (<[l := o']> (heap st)) st ∧
    o_proto o' = o_proto o ∧
    lookup_key k (o_props o') = Some p ∧ p_value p = v ∧
    modifies k st st'.
Proof.
  intros Ha. unfold PutValue, ordinary_set. munfold. rewrite Ha. simpl.
  destruct base as [| | | | | |l]; try done.
  destruct (heap st !! l) as [o|] eqn:Hl; [|done].
  destruct (from_option _ _ _); [|done].
  match goal with
  | |- match ?x with Some _ => _ | None => _ end _ = _ → _ =>
      destruct x as [o'|] eqn:Hset
  end; [|done].
  intros [= <- <-].
  assert (∃ d, validate_and_apply o k d = Some o' ∧ d_value d = Some v)
    as (d & Hv & Hd).
  { destruct (lookup_key k (o_props o)); eauto. }
  apply validate_and_apply_Some in Hv as (Hp & Hc & _ & Hother & p & Hk & Hval & _).
  exists l, o, o', p. repeat split; auto.
  by exists l, o, o'.
Qed.

Lemma impl_modifies sym target fn st r st' :
  impl sym target fn st = (Ok r, st') → modifies (KSym sym) st st'.
Proof.
  intros (_ & l & o & o' & -> & Hl & Hv & ->)%impl_Ok.
  apply validate_and_apply_Some in Hv as (Hp & Hc & _ & Hother & _).
  by exists l, o, o'.
Qed.

End Frame.

(** ** [*addSymbol] on a trait set that reaches the host's [hasOwnProperty] *)

Section AddSymbol.

Variable R : realm.
Variable native : nat → value → list value → M value.
Variable Number_toString : spec_float → string.

Abbreviation call := (call R native Number_toString).

Lemma call_builtin_hasOwnProperty fuel f this name st :
  code_of st f = Some CHasOwnProperty →
  ¬ (this = VUndefined ∨ this = VNull) →
  call (S fuel) f this [VStr name] st
  = (Ok (VBool (has_own R st this (KStr name))), st).
Proof.
  intros Hf Hn. simpl. rewrite Hf.
  destruct this; try done; exfalso; apply Hn; auto.
Qed.

Lemma uses_builtin_GetV st v :
  uses_builtin_hasOwnProperty R st v = true →
  ¬ (v = VUndefined ∨ v = VNull) ∧
  ∃ f, GetV R v (KStr "hasOwnProperty") st = (Ok f, st) ∧
       code_of st f = Some CHasOwnProperty.
Proof.
  unfold uses_builtin_hasOwnProperty.
  destruct (find_property R st v _) as [p|] eqn:Hp; [|done].
  destruct (code_of st (p_value p)) as [[]|] eqn:Hc; try done. intros _.
  assert (Hn : ¬ (v = VUndefined ∨ v = VNull))
    by (intros [->| ->]; discriminate).
  split; [done|]. exists (p_value p). split; [|done].
  by rewrite GetV_other, Hp.
Qed.

Lemma typeof_run v st : ∃ ty, typeof v st = (Ok ty, st) ∧
  (ty = "symbol" ↔ ∃ s, v = VSym s).
Proof.
  unfold typeof. msimpl. eexists. split; [done|].
  destruct v; try (split; [done | by intros [? ?]]).
  - split; [by eexists | done].
  - destruct (is_callable st (VObj l)); (split; [done | by intros [? ?]]).
Qed.

Lemma addSymbol_builtin fuel this name sym st :
  uses_builtin_hasOwnProperty R st this = true →
  addSymbol R (call (S fuel)) this name sym st
  = if has_own R st this (KStr name)
    then (Throw (AssertionError ("Trying to re-define trait `" +:+ name +:+ "`")),
          st)
    else match sym with
         | VSym _ => (_ ← PutValue R this (KStr name) sym; mret sym) st
         | _ => (Throw (AssertionError
                          ("Trying to add `" +:+ name
                           +:+ "`, but it's not a symbol")), st)
         end.
Proof.
  intros (Hn & f & Hget & Hf)%uses_builtin_GetV. unfold addSymbol.
  rewrite (bind_Ok _ _ _ _ _ Hget).
  rewrite (bind_Ok _ _ _ _ _ (call_builtin_hasOwnProperty _ _ _ _ _ Hf Hn)).
  simpl ToBoolean. destruct (has_own R st this (KStr name)); [done|].
  simpl negb. unfold assert at 1.
  rewrite (bind_Ok _ _ st tt st) by done.
  destruct (typeof_run sym st) as (ty & Hty & Hsym).
  rewrite (bind_Ok _ _ _ _ _ Hty). unfold assert_equal.
  destruct (decide (ty = "symbol")) as [Heq|Hne].
  - apply Hsym in Heq as [s ->]. by rewrite (bind_Ok _ _ st tt st).
  - assert (¬ ∃ s, sym = VSym s) by (by rewrite <- Hsym).
    destruct sym; try done. exfalso. eauto.
Qed.

Lemma addSymbol_Ok fuel this name sym st r st' :
  uses_builtin_hasOwnProperty R st this = true →
  addSymbol R (call fuel) this name sym st = (Ok r, st') →
  has_own R st this (KStr name) = false ∧ r = sym ∧ (∃ s, sym = VSym s) ∧
  ∃ u, PutValue R this (KStr name) sym st = (Ok u, st').
Proof.
  intros Hb. destruct fuel as [|fuel].
  - apply uses_builtin_GetV in Hb as (Hn & f & Hget & Hf).
    unfold addSymbol. rewrite (bind_Ok _ _ _ _ _ Hget).
    unfold mbind, M_bind. simpl. by rewrite Hf.
  - rewrite addSymbol_builtin by done.
    destruct (has_own R st this (KStr name)); [done|].
    destruct sym as [| | | | |s|]; try done.
    unfold mbind, M_bind.
    destruct (PutValue R this (KStr name) (VSym s) st) as [[u| |] st1] eqn:Hput;
      try done.
    intros [= <- <-]. eauto 10.
Qed.

Lemma Symbol_run description st :
  Symbol_ description st
  = (Ok (Sym (next_symbol st) (Some description)),
     State (heap st) (defaultImpls st) (N.succ (next_symbol st))).
Proof. reflexivity. Qed.

End AddSymbol.

(** ** Defining and borrowing traits *)

Section TraitSets.

Variable R : realm.
Variable native : nat → value → list value → M value.
Variable Number_toString : spec_float → string.

Abbreviation call := (call R native Number_toString).

(** Only the heap matters to lookups. *)
Lemma find_property_heap st1 st2 v k :
  heap st1 = heap st2 → find_property R st1 v k = find_property R st2 v k.
Proof. unfold find_property. by intros ->. Qed.

Lemma code_of_heap st1 st2 f :
  heap st1 = heap st2 → code_of st1 f = code_of st2 f.
Proof. unfold code_of. by intros ->. Qed.

Lemma own_property_heap st1 st2 v k :
  heap st1 = heap st2 → own_property st1 v k = own_property st2 v k.
Proof. unfold own_property. by intros ->. Qed.

Lemma uses_builtin_heap st1 st2 v :
  heap st1 = heap st2 →
  uses_builtin_hasOwnProperty R st1 v = uses_builtin_hasOwnProperty R st2 v.
Proof.
  intros H. unfold uses_builtin_hasOwnProperty.
  rewrite (find_property_heap _ _ _ _ H).
  destruct (find_property R st2 v _); [|done]. by rewrite (code_of_heap _ _ _ H).
Qed.

(** Apart from the accessor of [Object.prototype], the own properties are
    the data properties. *)
Lemma has_own_own_property st l k :
  k ≠ KStr "__proto__" →
  has_own R st (VObj l) k = bool_decide (is_Some (own_property st (VObj l) k)).
Proof.
  intros Hk. unfold has_own, own_property.
  destruct (heap st !! l) as [o|]; simpl; [|done].
  rewrite (bool_decide_false (k = _)) by done.
  by rewrite andb_false_r, orb_false_r.
Qed.

Lemma has_own_false st v k :
  has_own R st v k = false → own_property st v k = None.
Proof.
  unfold has_own, own_property. destruct v as [| | | | | |l]; try done.
  destruct (heap st !! l) as [o|]; simpl; [|done].
  intros [Hown _]%orb_false_elim. apply bool_decide_eq_false in Hown.
  destruct (lookup_key k (o_props o)); [|done]. exfalso. apply Hown. by eexists.
Qed.

(** What a successful [*addSymbol] does in any case: it returns the symbol
    it was given, the receiver did not have the name, and the store is as
    it was (the name being served by the accessor [__proto__]) or differs
    in that property of the receiver. *)
Lemma addSymbol_frame fuel this name sym st r st' :
  uses_builtin_hasOwnProperty R st this = true →
  addSymbol R (call fuel) this name sym st = (Ok r, st') →
  ∃ s, sym = VSym s ∧ r = VSym s ∧
       own_property st this (KStr name) = None ∧
       (st' = st ∨ modifies (KStr name) st st').
Proof.
  intros Hb (Hown & -> & [s ->] & u & Hput)%addSymbol_Ok; [|done].
  exists s. do 2 (split; [done|]). split; [by apply has_own_false|].
  destruct (proto_accessor R st this (KStr name)) eqn:Ha.
  - left. rewrite PutValue_setter_sym in Hput by done. by injection Hput.
  - right. by apply PutValue_Ok in Hput as (_ & _ & _ & _ & _ & _ & _ & _ & _ & _ & Hmod).
Qed.

(** What a successful [*addSymbol] leaves under a name other than
    [__proto__]. *)
Lemma addSymbol_effect fuel this name sym st r st' :
  uses_builtin_hasOwnProperty R st this = true →
  name ≠ "__proto__" →
  addSymbol R (call fuel) this name sym st = (Ok r, st') →
  ∃ l s p,
    this = VObj l ∧ sym = VSym s ∧ r = VSym s ∧
    own_property st this (KStr name) = None ∧
    own_property st' this (KStr name) = Some p ∧ p_value p = VSym s ∧
    modifies (KStr name) st st' ∧
    (∀ v, find_property R st' v (KStr name) = find_property R st v (KStr name)
          ∨ find_property R st' v (KStr name) = Some p).
Proof.
  intros Hb Hname (Hown & -> & [s ->] & u & Hput)%addSymbol_Ok; [|done].
  apply PutValue_Ok in Hput
    as (l & o & o' & p & -> & Hl & -> & Hproto & Hk & Hval & Hmod);
    [|apply proto_accessor_other; congruence].
  exists l, s, p. do 3 (split; [done|]). split; [by apply has_own_false|].
  split.
  { unfold own_property. simpl.
    rewrite list_lookup_insert_eq by (by eapply lookup_lt_Some). done. }
  do 2 (split; [done|]).
  intros v. by eapply modifies_find_property_same.
Qed.

(** X22. Defining a name twice: where the name is neither that of the
    method the guard of l.108 relies on nor [__proto__], which the
    assignment of l.110 does not store, the second definition is refused
    with the AssertionError of l.108; its symbol has been drawn. *)
Lemma defineTrait_twice fuel fuel' TS name st r st1 :
  uses_builtin_hasOwnProperty R st TS = true →
  name ≠ "hasOwnProperty" →
  name ≠ "__proto__" →
  defineTrait R (call fuel) TS name st = (Ok r, st1) →
  defineTrait R (call (S fuel')) TS name st1
  = (Throw (AssertionError ("Trying to re-define trait `" +:+ name +:+ "`")),
     State (heap st1) (defaultImpls st1) (N.succ (next_symbol st1))).
Proof.
  intros Hb Hname Hproto. unfold defineTrait.
  rewrite (bind_Ok _ _ _ _ _ (Symbol_run _ _)). intros Hadd.
  apply addSymbol_effect in Hadd
    as (l & s & p & -> & _ & _ & _ & Hown & _ & Hmod & _);
    [|by rewrite (uses_builtin_heap _ st)|done].
  rewrite (bind_Ok _ _ _ _ _ (Symbol_run _ _)).
  rewrite addSymbol_builtin.
  - rewrite has_own_own_property by congruence.
    rewrite (own_property_heap _ st1) by done. rewrite Hown.
    by rewrite bool_decide_true by (by eexists).
  - rewrite (uses_builtin_heap _ st1) by done.
    rewrite (modifies_uses_builtin _ _ _ _ _ Hmod) by congruence.
    by rewrite (uses_builtin_heap _ st).
Qed.

(** X23. Borrowing everything: at the first key of [other], holding a
    symbol, that the set already owns, the set being able to take the keys
    before it, the borrowing is refused with the AssertionError of l.108. *)
Lemma borrow_collision fuel TS other st before k after st1 s :
  for_in_keys R st other = (before ++ k :: after)%list →
  forEach (borrow_key R (call (S fuel)) TS other) before st = (Ok tt, st1) →
  ¬ (other = VUndefined ∨ other = VNull) →
  binding_of_name R st1 other k = VSym s →
  uses_builtin_hasOwnProperty R st1 TS = true →
  has_own R st1 TS (KStr k) = true →
  borrowTraits R (call (S fuel)) TS other None st
  = (Throw (AssertionError ("Trying to re-define trait `" +:+ k +:+ "`")), st1).
Proof.
  intros Hkeys Hbefore Hother Hsym Hb Hown. unfold borrowTraits, for_in.
  apply bind_Throw. rewrite (bind_Ok _ _ st st st) by done.
  rewrite Hkeys, forEach_app, (bind_Ok _ _ _ _ _ Hbefore).
  cbn [forEach]. apply bind_Throw. unfold borrow_key.
  rewrite (bind_Ok _ _ _ _ _ (GetV_run R _ _ _ Hother)).
  fold (binding_of_name R st1 other k). rewrite Hsym.
  rewrite (bind_Ok _ _ st1 "symbol" st1) by done.
  rewrite decide_True by done. apply bind_Throw.
  rewrite addSymbol_builtin by done. by rewrite Hown.
Qed.


End TraitSets.

(** ** The effect of one definition and of one binding *)

Section Effects.

Variable R : realm.
Variable native : nat → value → list value → M value.
Variable Number_toString : spec_float → string.

Abbreviation call := (call R native Number_toString).

Lemma modifies_touches k st st' : modifies k st st' → touches R k st st'.
Proof.
  intros Hmod. split; [|split; [|split; [|split; [|split]]]].
  - intros v k' Hk. by apply (modifies_find_property R _ _ _ _ _ Hmod).
  - intros v k' Hk. by apply (modifies_own_property _ _ _ _ _ Hmod).
  - intros f. by apply (modifies_code_of _ _ _ _ Hmod).
  - by rewrite (modifies_next_symbol _ _ _ Hmod).
  - destruct Hmod as (? & ? & ? & _ & -> & _). done.
  - intros v k' Hk. by apply (modifies_get_value R _ _ _ _ _ Hmod).
Qed.

Lemma touches_same k st : touches R k st st.
Proof. by repeat split. Qed.

(** Stores with the same heap read alike. *)
Lemma get_value_heap st1 st2 v k :
  heap st1 = heap st2 → get_value R st1 v k = get_value R st2 v k.
Proof.
  intros H. unfold get_value, proto_accessor, prototype_value, find_property.
  by rewrite H.
Qed.

Lemma touches_uses_builtin k st st' v :
  touches R k st st' → k ≠ KStr "hasOwnProperty" →
  uses_builtin_hasOwnProperty R st' v = uses_builtin_hasOwnProperty R st v.
Proof.
  intros (Hfind & _ & Hcode & _) Hk. unfold uses_builtin_hasOwnProperty.
  rewrite Hfind by done. destruct (find_property R st v _); [|done].
  by rewrite Hcode.
Qed.

Lemma uses_builtin_object st v :
  uses_builtin_hasOwnProperty R st v = true →
  ¬ (v = VUndefined ∨ v = VNull).
Proof. by intros [? _]%uses_builtin_GetV. Qed.

(** What a successful [*addSymbol] does: the receiver did not own the
    name; it owns the symbol under it afterwards, unless the name is
    [__proto__], which the assignment of l.110 may hand to the accessor;
    nothing else changes. *)
Lemma addSymbol_touches fuel this name sym st r st' :
  uses_builtin_hasOwnProperty R st this = true →
  addSymbol R (call fuel) this name sym st = (Ok r, st') →
  ∃ s, sym = VSym s ∧ r = VSym s ∧
       own_property st this (KStr name) = None ∧
       (name ≠ "__proto__" →
        ∃ p, own_property st' this (KStr name) = Some p ∧ p_value p = VSym s) ∧
       next_symbol st' = next_symbol st ∧
       touches R (KStr name) st st'.
Proof.
  intros Hb Hadd.
  destruct (addSymbol_frame _ _ _ _ _ _ _ _ _ _ Hb Hadd)
    as (s & -> & -> & Hnone & Hsame).
  exists s. do 3 (split; [done|]). split.
  { intros Hname.
    destruct (addSymbol_effect _ _ _ _ _ _ _ _ _ _ Hb Hname Hadd)
      as (_ & s' & p & _ & [= <-] & _ & _ & Hown & Hval & _).
    by exists p. }
  destruct Hsame as [-> | Hmod].
  - split; [done | apply touches_same].
  - split; [by apply (modifies_next_symbol _ _ _ Hmod) | by apply modifies_touches].
Qed.

(** What a successful [*defineTrait] does. *)
Lemma defineTrait_effect fuel TS k st r st' :
  uses_builtin_hasOwnProperty R st TS = true →
  defineTrait R (call fuel) TS k st = (Ok r, st') →
  let sym := Sym (next_symbol st) (Some k) in
  r = VSym sym ∧
  own_property st TS (KStr k) = None ∧
  (k ≠ "__proto__" →
   ∃ p, own_property st' TS (KStr k) = Some p ∧ p_value p = VSym sym) ∧
  next_symbol st' = N.succ (next_symbol st) ∧
  touches R (KStr k) st st'.
Proof.
  intros Hb. unfold defineTrait.
  rewrite (bind_Ok _ _ _ _ _ (Symbol_run _ _)). intros Hadd.
  set (sta := State (heap st) (defaultImpls st) (N.succ (next_symbol st))) in *.
  apply addSymbol_touches in Hadd
    as (s' & [= <-] & -> & Hnone & Hown & Hnext & Htouch);
    [|by rewrite (uses_builtin_heap _ _ st)].
  split; [done|]. split; [by rewrite (own_property_heap st sta)|].
  split; [done|]. split; [done|].
  destruct Htouch as (Hf & Ho & Hc & Hn & Hd & Hg).
  split; [|split; [|split; [|split; [|split]]]].
  - intros v k' Hk. rewrite Hf by done. by apply find_property_heap.
  - intros v k' Hk. rewrite Ho by done. by apply own_property_heap.
  - intros f. rewrite Hc. by apply code_of_heap.
  - simpl in Hn. lia.
  - done.
  - intros v k' Hk. rewrite Hg by done. by apply get_value_heap.
Qed.

(** What a successful [sym.*impl(target, v)] does. *)
Lemma call_impl_effect sym target v st r st' :
  call_impl (VSym sym) target v st = (Ok r, st') →
  (∃ q, own_property st' target (KSym sym) = Some q ∧ p_value q = v) ∧
  next_symbol st' = next_symbol st ∧
  touches R (KSym sym) st st'.
Proof.
  simpl. intros Himpl.
  destruct (impl_binding _ _ _ _ _ _ Himpl) as (q & Hq & Hv & _).
  pose proof (impl_modifies _ _ _ _ _ _ Himpl) as Hmod.
  split; [by exists q|].
  split; [by rewrite (modifies_next_symbol _ _ _ Hmod)|].
  by apply modifies_touches.
Qed.

(** On a set that carries a trait named [hasOwnProperty], the guard of
    l.108 throws. *)
Lemma addSymbol_shadowed fuel TS name sym st :
  shadowed st TS →
  addSymbol R (call fuel) TS name sym st = (Throw TypeError, st).
Proof.
  intros (p & x & Hown & Hval). unfold addSymbol.
  destruct TS as [| | | | | |l]; try done.
  assert (Hn : ¬ (VObj l = VUndefined ∨ VObj l = VNull))
    by (intros [?|?]; discriminate).
  rewrite (bind_Ok _ _ _ _ _
             (GetV_other R _ (KStr "hasOwnProperty") _ Hn ltac:(done))).
  rewrite (find_property_own R _ l _ p) by done.
  simpl from_option. rewrite Hval.
  apply bind_Throw. by destruct fuel.
Qed.

Lemma shadowed_heap st1 st2 TS :
  heap st1 = heap st2 → shadowed st1 TS → shadowed st2 TS.
Proof.
  intros Hh (p & x & Hown & Hval). exists p, x.
  by rewrite (own_property_heap st2 st1).
Qed.

(** After a trait has been defined on a set that reached the host's
    [hasOwnProperty], the set still reaches it, or carries a trait of that
    name. *)
Lemma defineTrait_keeps_guard fuel TS k st r st' :
  uses_builtin_hasOwnProperty R st TS = true →
  defineTrait R (call fuel) TS k st = (Ok r, st') →
  uses_builtin_hasOwnProperty R st' TS = true ∨ shadowed st' TS.
Proof.
  intros Hb Hdef.
  destruct (defineTrait_effect _ _ _ _ _ _ Hb Hdef)
    as (_ & _ & Hown & _ & Htouch).
  destruct (decide (k = "hasOwnProperty")) as [->|Hne].
  - right. destruct Hown as (p & Hown & Hval); [done|].
    by exists p, (Sym (next_symbol st) (Some "hasOwnProperty")).
  - left. rewrite (touches_uses_builtin _ _ _ _ Htouch) by congruence. done.
Qed.

Lemma defineTrait_shadowed fuel TS k st :
  shadowed st TS →
  ∃ st', defineTrait R (call fuel) TS k st = (Throw TypeError, st').
Proof.
  intros Hs. unfold defineTrait. eexists.
  rewrite (bind_Ok _ _ _ _ _ (Symbol_run _ _)).
  apply addSymbol_shadowed. by eapply shadowed_heap.
Qed.

End Effects.

(** ** Adapting methods *)

Section Adapt.

Variable R : realm.
Variable native : nat → value → list value → M value.
Variable Number_toString : spec_float → string.

Abbreviation call := (call R native Number_toString).

Section Loop.

Variables (fuel : nat) (TS target source : value).

Abbreviation step := (adapt_method R (call fuel) TS target source).

(** l.173-179: one method adapted. The trait is defined, the wrapper
    built and bound; under the name [__proto__] the set may not own the
    trait afterwards. *)
Lemma adapt_method_Ok m st u st' :
  uses_builtin_hasOwnProperty R st TS = true →
  step m st = (Ok u, st') →
  (m ≠ "__proto__" → adapted st' TS target source m) ∧
  (∀ x, adapted st TS target source x → adapted st' TS target source x) ∧
  (uses_builtin_hasOwnProperty R st' TS = true ∨ shadowed st' TS).
Proof.
  intros Hb. unfold adapt_method.
  intros (r & st1 & Hdef & Hrest)%bind_Ok_inv.
  pose proof (defineTrait_keeps_guard _ _ _ _ _ _ _ _ _ Hb Hdef) as Hguard.
  destruct (defineTrait_effect _ _ _ _ _ _ _ _ _ Hb Hdef)
    as (-> & Hnone & Hown & Hnext & Ht1).
  set (sym0 := Sym (next_symbol st) (Some m)) in *.
  unfold new_function in Hrest.
  rewrite (bind_Ok _ _ _ _ _ (alloc_run _ _)) in Hrest.
  set (wobj := Obj _ _ _ _) in *.
  set (st2 := set_heap (heap st1 ++ [wobj]) st1) in *.
  apply bind_Ok_inv in Hrest as (r' & st3 & Himpl & [= <- ->]).
  destruct (call_impl_effect R _ _ _ _ _ _ Himpl)
    as ((q & Hq & Hqv) & Hnext2 & Ht2).
  destruct Ht1 as (Hf1 & Ho1 & Hc1 & _ & _).
  pose proof Ht2 as (Hf2 & Ho2 & Hc2 & _ & _).
  assert (Hnext3 : next_symbol st' = N.succ (next_symbol st))
    by (by rewrite Hnext2).
  split; [|split].
  - intros Hm. destruct (Hown Hm) as (p & Hp & Hpv).
    exists p, sym0, q, (length (heap st1)).
    rewrite Ho2 by done. rewrite Hnext3.
    split; [by apply alloc_own_property|]. split; [done|].
    split; [simpl; lia|]. split; [done|]. split; [done|].
    rewrite Hc2. unfold st2. by rewrite alloc_code_of_new.
  - intros x (px & sx & qx & wx & Hx & Hxv & Hlt & Hqx & Hqxv & Hcode).
    assert (x ≠ m) by (intros ->; congruence).
    assert (sx ≠ sym0) by (intros ->; simpl in Hlt; lia).
    exists px, sx, qx, wx. rewrite !Ho2 by congruence. rewrite Hnext3.
    split; [apply alloc_own_property; by rewrite Ho1 by congruence|].
    split; [done|]. split; [lia|].
    split; [apply alloc_own_property; by rewrite Ho1 by congruence|].
    split; [done|].
    rewrite Hc2. apply alloc_code_of. by rewrite Hc1.
  - destruct Hguard as [Hb1|(ps & xs & Hs & Hsv)].
    + left. rewrite (touches_uses_builtin _ _ _ _ _ Ht2) by done.
      by apply alloc_uses_builtin.
    + right. exists ps, xs. rewrite Ho2 by done.
      split; [by apply alloc_own_property | done].
Qed.

(** Once the set carries a trait named [hasOwnProperty], the guard of
    l.108 calls a symbol: no further trait can be defined. *)
Lemma adapt_method_shadowed m st :
  shadowed st TS → ∃ st', step m st = (Throw TypeError, st').
Proof.
  intros Hs. unfold adapt_method.
  destruct (defineTrait_shadowed R native Number_toString fuel _ m _ Hs)
    as [st1 Hfail].
  exists st1. by apply bind_Throw.
Qed.

Lemma adapt_loop methodList : ∀ st u st',
  uses_builtin_hasOwnProperty R st TS = true ∨ shadowed st TS →
  forEach step methodList st = (Ok u, st') →
  (∀ x, adapted st TS target source x → adapted st' TS target source x) ∧
  (∀ m, m ∈ methodList → m ≠ "__proto__" → adapted st' TS target source m).
Proof.
  induction methodList as [|m rest IH]; intros st u st' Hguard.
  - intros [= <- <-]. split; [done|]. intros m Hm. by apply elem_of_nil in Hm.
  - simpl. intros (u1 & st1 & Hstep & Hrest)%bind_Ok_inv.
    destruct Hguard as [Hb|Hs].
    2:{ destruct (adapt_method_shadowed m _ Hs) as [st2 Hfail].
        rewrite Hfail in Hstep. discriminate Hstep. }
    destruct (adapt_method_Ok _ _ _ _ Hb Hstep) as (Hm & Hframe & Hguard1).
    destruct (IH _ _ _ Hguard1 Hrest) as (Hframe' & Hall).
    split; [by intros x Hx; apply Hframe', Hframe|].
    intros x [->|Hx]%elem_of_cons Hne; [by apply Hframe', Hm | by apply Hall].
Qed.

End Loop.


End Adapt.

(** ** Implementing many traits at once *)


(** ** The module at work in the small world *)



Lemma default_fallback_witness :
  let st := (implDefault demo_trait (VObj 12) demo_state).2 in
  defaultImpls st !! demo_trait = Some (VObj 12) ∧
  find_property demo_realm st VNull (KSym demo_trait) = None ∧
  free_function_of st (VObj 11) demo_trait ∧
  demo_call 2 (VObj 11) VUndefined [VNull; VStr "x"] st = (Ok VNull, st).
Proof.
  intros st.
  assert (H1 : defaultImpls st !! demo_trait = Some (VObj 12))
    by (vm_compute; reflexivity).
  assert (H2 : find_property demo_realm st (hd VUndefined [VNull; VStr "x"])
                 (KSym demo_trait) = None) by reflexivity.
  assert (H3 : free_function_of st (VObj 11) demo_trait) by reflexivity.
  split; [exact H1|]. split; [exact H2|]. split; [exact H3|].
  rewrite (proj2 (default_fallback demo_realm demo_native demo_Number_toString
                    demo_trait (VObj 12))
             st (VObj 11) VUndefined [VNull; VStr "x"] 1 H1 H2 H3).
  reflexivity.
Defined.





(** C3 at a symbol: the free function of a trait that nothing implements
    and that has no default, called on the symbol [Symbol.toPrimitive],
    throws the TypeError of the template literal of l.96 and not the error
    it was building. *)
Theorem dispatch_on_symbol_target :
  let target := VSym (Symbol_toPrimitive demo_realm) in
  find_property demo_realm demo_state target (KSym demo_trait) = None ∧
  defaultImpls demo_state !! demo_trait = None ∧
  free_function_of demo_state (VObj 11) demo_trait ∧
  demo_call 2 (VObj 11) VUndefined [target] demo_state
  = (Throw TypeError, demo_state).
Proof. vm_compute. done. Qed.

(** C8 at the name [hasOwnProperty]: the first [*defineTrait] returns, the
    second throws a TypeError, because the guard of l.108 now calls the
    symbol just stored under that name. *)
Theorem redefine_hasOwnProperty :
  let first := defineTrait demo_realm (demo_call 1) (VObj 10) "hasOwnProperty"
                 demo_state in
  uses_builtin_hasOwnProperty demo_realm demo_state (VObj 10) = true ∧
  first.1 = Ok (VSym (Sym 2 (Some "hasOwnProperty"))) ∧
  (defineTrait demo_realm (demo_call 1) (VObj 10) "hasOwnProperty" first.2).1
  = Throw TypeError.
Proof. vm_compute. done. Qed.

(** C10 at an object without prototype: with [false] bound under the trait
    and no default, the free function throws the TypeError of the template
    literal of l.96. *)
Theorem falsy_binding_on_bare_object :
  let st := (impl demo_trait (VObj 14) (VBool false) demo_state).2 in
  binding demo_realm st (VObj 14) demo_trait = VBool false ∧
  defaultImpls st !! demo_trait = None ∧
  demo_call 2 (VObj 11) VUndefined [VObj 14] st = (Throw TypeError, st).
Proof. vm_compute. done. Qed.

(** The scenario of a trait that nothing implements: the free function
    obtained from the trait set throws the error of l.96. *)
Example greet_has_no_implementation :
  let scenario :=
    TS ← fromStrings demo_realm ["greet"];
    fs ← traitsToFreeFunctions demo_realm TS;
    greet ← GetV demo_realm fs (KStr "greet");
    demo_call 3 greet VUndefined [VObj 10] in
  (scenario demo_state).1
  = Throw (Error ".*greet called on [object Object] that doesn't implement it.").
Proof. vm_compute. reflexivity. Qed.

(** A binding on a prototype serves the objects that inherit from it, and
    the implementation receives the object the free function was called
    on: bound on [Object.prototype], [function() { return this.value }]
    answers for the target [{value: "ten"}]. *)
Example inherited_binding_is_found :
  let scenario :=
    _ ← impl demo_trait (VObj 0) (VObj 9);
    demo_call 2 (VObj 11) VUndefined [VObj 10] in
  (scenario demo_state).1 = Ok (VStr "ten").
Proof. vm_compute. reflexivity. Qed.

(** * Further properties of the module *)

(** ** Names, defaults and bindings *)

(** X1. The name under which the free function reports a trait (l.79) is
    the description the symbol was created with, and the empty string for
    a symbol created without one. *)
Theorem symName_is_description (s : symbol) :
  symName s = default "" (sym_description s).
Proof.
  destruct s as [id [description|]].
  - apply symName_description.
  - reflexivity.
Qed.

Section MoreDispatch.

Variable R : realm.
Variable native : nat → value → list value → M value.
Variable Number_toString : spec_float → string.

Abbreviation call := (call R native Number_toString).

(** The free function when the target has no truthy binding, at the level
    of calls. *)
Lemma call_unbound fuel d sym this arguments st :
  free_function_of st d sym →
  ToBoolean (binding R st (hd VUndefined arguments) sym) = false →
  call (S fuel) d this arguments st
  = match defaultImpls st !! sym with
    | Some default_ =>
        call fuel default_ VUndefined (hd VUndefined arguments :: tl arguments) st
    | None =>
        (t ← ToString R Number_toString (call fuel) (hd VUndefined arguments);
         throw (Error (no_implementation_message sym (hd VUndefined arguments) t)))
          st
    end.
Proof.
  intros Hd Hb. rewrite (call_free_function _ _ _ _ _ _ _ _ _ Hd).
  by apply freeFunction_unbound.
Qed.

(** X2. Registering a default twice: the second replaces the first (l.73),
    the defaults of the other traits and the heap stay as they were, and
    on a target without binding the free function calls the second. *)
Theorem implDefault_replaces sym fnA fnB st0 r1 st1 r2 st2 d this arguments fuel :
  implDefault sym fnA st0 = (r1, st1) →
  implDefault sym fnB st1 = (r2, st2) →
  find_property R st2 (hd VUndefined arguments) (KSym sym) = None →
  free_function_of st2 d sym →
  defaultImpls st2 !! sym = Some fnB ∧
  (∀ sym', sym' ≠ sym → defaultImpls st2 !! sym' = defaultImpls st0 !! sym') ∧
  heap st2 = heap st0 ∧
  call (S fuel) d this arguments st2
  = call fuel fnB VUndefined (hd VUndefined arguments :: tl arguments) st2.
Proof.
  rewrite !implDefault_run. intros [= <- <-] [= <- <-] Hnone Hd.
  cbn [heap defaultImpls next_symbol].
  split; [by rewrite lookup_insert_eq|]. split.
  { intros sym' Hne. by rewrite !lookup_insert_ne. }
  split; [done|].
  rewrite (call_unbound _ _ _ _ _ _ Hd) by (unfold binding; by rewrite Hnone).
  cbn [heap defaultImpls next_symbol]. by rewrite lookup_insert_eq.
Qed.

(** X3. A binding made on a prototype serves every object that inherits
    from it and has no property of its own for the trait, and the
    implementation is called with that object, not the prototype, as
    [this] (l.91 and l.99 read [target[sym]] through the chain). *)
Theorem dispatch_on_inheritor sym prototype fn st0 r st l o d this args fuel :
  impl sym (VObj prototype) fn st0 = (Ok r, st) →
  heap st !! l = Some o →
  o_proto o = Some prototype →
  lookup_key (KSym sym) (o_props o) = None →
  ToBoolean fn = true →
  free_function_of st d sym →
  call (S fuel) d this (VObj l :: args) st = call fuel fn (VObj l) args st.
Proof.
  intros Himpl Hl Hproto Hnone Hfn Hd.
  destruct (impl_binding _ _ _ _ _ _ Himpl) as (p & Hown & <- & _).
  rewrite (call_free_function _ _ _ _ _ _ _ _ _ Hd).
  apply freeFunction_bound; [|done].
  unfold find_property, chain_fuel. simpl. rewrite Hl, Hnone, Hproto.
  unfold own_property in Hown.
  destruct (heap st !! prototype) as [op|] eqn:Hp; [|done]. simpl in Hown.
  destruct (length (heap st)) as [|n] eqn:Hlen.
  { apply lookup_lt_Some in Hl. lia. }
  simpl. by rewrite Hp, Hown.
Qed.

(** X4. Called on [undefined] (or on nothing) or on [null], with no default
    registered, the free function throws the error of l.88, whose message
    is the name of the trait and the target, and leaves the store as it
    was. *)
Theorem dispatch_on_null_or_undefined sym d this args fuel st :
  free_function_of st d sym →
  defaultImpls st !! sym = None →
  call (S fuel) d this [] st
  = (Throw (Error (".*" +:+ symName sym +:+ " called on undefined")), st) ∧
  call (S fuel) d this (VUndefined :: args) st
  = (Throw (Error (".*" +:+ symName sym +:+ " called on undefined")), st) ∧
  call (S fuel) d this (VNull :: args) st
  = (Throw (Error (".*" +:+ symName sym +:+ " called on null")), st).
Proof.
  intros Hd Hnone.
  repeat split; rewrite (call_unbound _ _ _ _ _ _ Hd) by done;
    by rewrite Hnone.
Qed.

(** X5. On any other target without a truthy binding, with no default
    registered, the free function renders the target as the template
    literal of l.96 does and, when that yields [t], throws the error whose
    message is the name of the trait, [t] and [that doesn't implement it.];
    the store is the one the rendering left. *)
Theorem dispatch_without_implementation sym d this target args fuel st t st' :
  free_function_of st d sym →
  ¬ (target = VUndefined ∨ target = VNull) →
  ToBoolean (binding R st target sym) = false →
  defaultImpls st !! sym = None →
  ToString R Number_toString (call fuel) target st = (Ok t, st') →
  call (S fuel) d this (target :: args) st
  = (Throw (Error (".*" +:+ symName sym +:+ " called on " +:+ t
                   +:+ " that doesn't implement it.")), st').
Proof.
  intros Hd Hn Hb Hnone Ht.
  rewrite (call_unbound _ _ _ _ _ _ Hd) by done. rewrite Hnone.
  cbn [hd]. rewrite (bind_Ok _ _ _ _ _ Ht).
  unfold no_implementation_message. by rewrite bool_decide_false.
Qed.

(** X6. A falsy value stored under the trait counts as no binding (l.91):
    with a default registered, the free function calls the default with
    the target first, and does not call the stored value. *)
Theorem falsy_binding_uses_default sym d this target args fuel st fn :
  free_function_of st d sym →
  ToBoolean (binding R st target sym) = false →
  defaultImpls st !! sym = Some fn →
  call (S fuel) d this (target :: args) st
  = call fuel fn VUndefined (target :: args) st.
Proof.
  intros Hd Hb Hdef.
  rewrite (call_unbound _ _ _ _ _ _ Hd) by done. by rewrite Hdef.
Qed.

(** X7. The free function looks the binding up when it is called: a free
    function derived before the trait was implemented calls the
    implementation bound afterwards. *)
Theorem dispatch_is_late_bound sym target fn st0 d st1 r st2 this args fuel :
  asFreeFunction R sym st0 = (Ok d, st1) →
  impl sym target fn st1 = (Ok r, st2) →
  ToBoolean fn = true →
  call (S fuel) d this (target :: args) st2 = call fuel fn target args st2.
Proof.
  intros Hfree Himpl Hfn.
  destruct (asFreeFunction_run R sym st0) as (st1' & Hrun & Hd & _).
  rewrite Hrun in Hfree. injection Hfree as <- <-.
  pose proof (impl_free_function _ _ _ _ _ _ _ _ Himpl Hd) as Hd2.
  destruct (impl_binding _ _ _ _ _ _ Himpl) as (p & Hown & <- & _).
  apply impl_Ok in Himpl as (_ & l & _ & _ & -> & _).
  rewrite (call_free_function _ _ _ _ _ _ _ _ _ Hd2).
  by apply freeFunction_bound; [apply find_property_own|].
Qed.

(** X8. [*impl] changes one property of one object. The target is an
    object of the heap; every other object is what it was and the heap has
    the same size; the target keeps its prototype, its extensibility, its
    [[Call]] slot and every property other than the one under the symbol,
    which now holds the implementation. So the bindings of the other
    traits, on every value, the string-keyed properties, the functions,
    the defaults and the symbol counter are as before. *)
Theorem impl_leaves_the_rest sym target fn st r st' :
  impl sym target fn st = (Ok r, st') →
  (∃ l, target = VObj l ∧
        (∀ l', l' ≠ l → heap st' !! l' = heap st !! l') ∧
        length (heap st') = length (heap st) ∧
        (o_proto <$> heap st' !! l) = (o_proto <$> heap st !! l) ∧
        (o_extensible <$> heap st' !! l) = (o_extensible <$> heap st !! l) ∧
        (o_call <$> heap st' !! l) = (o_call <$> heap st !! l) ∧
        (∀ k, k ≠ KSym sym →
              own_property st' target k = own_property st target k) ∧
        (p_value <$> own_property st' target (KSym sym)) = Some fn) ∧
  (∀ v k, k ≠ KSym sym → find_property R st' v k = find_property R st v k) ∧
  (∀ f, code_of st' f = code_of st f) ∧
  defaultImpls st' = defaultImpls st ∧
  next_symbol st' = next_symbol st.
Proof.
  intros Himpl. pose proof (impl_modifies _ _ _ _ _ _ Himpl) as Hmod.
  split.
  { destruct (impl_binding _ _ _ _ _ _ Himpl) as (q & Hq & Hqv & _).
    apply impl_Ok in Himpl as (_ & l & o & o' & -> & Hl & Hv & ->).
    apply validate_and_apply_Some in Hv as (Hp & Hc & He & Hother & _).
    assert (Hl' : <[l := o']> (heap st) !! l = Some o')
      by (by rewrite list_lookup_insert_eq by (by eapply lookup_lt_Some)).
    exists l. cbn [heap set_heap]. rewrite Hl', Hl. cbn [fmap option_fmap option_map].
    split; [done|]. split; [by intros l' Hne; rewrite list_lookup_insert_ne|].
    split; [by apply length_insert|].
    split; [by rewrite Hp|]. split; [by rewrite He|]. split; [by rewrite Hc|].
    split; [|by rewrite Hq, <- Hqv].
    intros k Hk. unfold own_property. cbn [heap set_heap]. rewrite Hl', Hl.
    by apply Hother. }
  split; [by intros v k Hk; apply (modifies_find_property R _ _ _ _ _ Hmod)|].
  split; [by intros f; apply (modifies_code_of _ _ _ _ Hmod)|].
  destruct Hmod as (l & o & o' & _ & -> & _). done.
Qed.

(** X9. The binding that [*impl] creates is not writable (l.67 passes no
    [writable]): assigning to [target[sym]] afterwards throws, so a binding
    is only replaced by another [*impl]. *)
Theorem binding_is_read_only sym target fn st r st' v :
  own_property st target (KSym sym) = None →
  impl sym target fn st = (Ok r, st') →
  PutValue R target (KSym sym) v st' = (Throw TypeError, st').
Proof.
  intros Hnone (_ & l & o & o' & -> & Hl & Hv & ->)%impl_Ok.
  unfold own_property in Hnone. rewrite Hl in Hnone. simpl in Hnone.
  unfold validate_and_apply, impl_descriptor in Hv. rewrite Hnone in Hv.
  destruct (o_extensible o); [|done]. injection Hv as <-.
  set (o' := set_props _ o).
  assert (Hl' : <[l := o']> (heap st) !! l = Some o')
    by (by rewrite list_lookup_insert_eq by (by eapply lookup_lt_Some)).
  assert (Hk : lookup_key (KSym sym) (o_props o')
               = Some (Prop_ fn false false true))
    by (by apply lookup_key_app_new).
  unfold PutValue. munfold. rewrite proto_accessor_other by done.
  cbn [heap set_heap]. rewrite Hl'.
  unfold ordinary_set, chain_fuel.
  by rewrite (lookup_chain_own _ _ _ _ _ _ Hl' Hk).
Qed.

End MoreDispatch.

(** ** Enumeration *)

Lemma lookup_key_elem_of k p ps : lookup_key k ps = Some p → (k, p) ∈ ps.
Proof.
  induction ps as [|[k' p'] ps IH]; simpl; [done|].
  destruct (decide (k = k')) as [->|Hne].
  - intros [= ->]. apply elem_of_cons. by left.
  - intros H. apply elem_of_cons. right. by apply IH.
Qed.

Lemma elem_of_string_keys ps s :
  s ∈ string_keys ps ↔ ∃ p, (KStr s, p) ∈ ps.
Proof.
  unfold string_keys. rewrite list_elem_of_omap. split.
  - intros ([k p] & Hin & Hs). simpl in Hs. destruct k; [|done].
    injection Hs as ->. by exists p.
  - intros [p Hin]. by exists (KStr s, p).
Qed.

(** The own string keys are the string keys of the properties, in another
    order. *)
Lemma elem_of_own_string_keys o s :
  s ∈ own_string_keys o ↔ s ∈ string_keys (o_props o).
Proof.
  unfold own_string_keys. rewrite elem_of_app, list_elem_of_fmap.
  rewrite list_elem_of_filter. split.
  - intros [([n s'] & -> & Hin)|[_ Hin]]; [|done].
    rewrite merge_sort_Permutation in Hin.
    apply list_elem_of_omap in Hin as (s2 & Hin & Hs).
    destruct (array_index s2); [|done]. simpl in Hs. by injection Hs as _ ->.
  - intros Hin. destruct (array_index s) as [n|] eqn:Hn; [left|by right].
    exists (n, s). split; [done|].
    rewrite merge_sort_Permutation. apply list_elem_of_omap.
    exists s. split; [done|]. by rewrite Hn.
Qed.

(** A [for...in] loop over an object visits its own enumerable names. *)
Lemma own_enumerable_listed R st l s p :
  own_property st (VObj l) (KStr s) = Some p → p_enumerable p = true →
  s ∈ for_in_keys R st (VObj l).
Proof.
  unfold own_property, for_in_keys, chain_fuel. simpl.
  destruct (heap st !! l) as [o|] eqn:Hl; [|done]. simpl. intros Hk He.
  apply elem_of_app. left. apply list_elem_of_filter. split.
  - split; [apply not_elem_of_nil|]. unfold is_enumerable. by rewrite Hk.
  - apply elem_of_own_string_keys, elem_of_string_keys.
    exists p. by apply lookup_key_elem_of.
Qed.

(** A symbol drawn now is none of the symbols of the store. *)
Lemma counter_ahead_fresh R st s :
  counter_ahead R st = true → (next_symbol st ≤ sym_id s)%N →
  s ∉ known_symbols R st.
Proof.
  unfold counter_ahead. rewrite forallb_forall. intros Hall Hs Hin.
  apply list_elem_of_In, Hall, N.ltb_lt in Hin. lia.
Qed.

(** Replacing or adding a property brings no symbols but those of the
    value. *)
Lemma replace_key_symbols k p ps s :
  In s (flat_map (λ kp, (key_symbols kp.1 ++ value_symbols (p_value kp.2))%list)
          (replace_key k p ps)) →
  In s (flat_map (λ kp, (key_symbols kp.1 ++ value_symbols (p_value kp.2))%list)
          ps)
  ∨ In s (value_symbols (p_value p)).
Proof.
  induction ps as [|[k' p'] ps IH]; simpl; [by left|].
  destruct (decide (k = k')) as [<-|Hne]; simpl; rewrite !in_app_iff.
  - intros [[Hk|Hv]|Hrest]; auto.
  - intros [[Hk|Hv]|Hrest]; auto. destruct (IH Hrest); auto.
Qed.

Lemma validate_and_apply_symbols o name d o' v s :
  validate_and_apply o (KStr name) d = Some o' → d_value d = Some v →
  In s (object_symbols o') →
  In s (object_symbols o) ∨ In s (value_symbols v).
Proof.
  unfold validate_and_apply, object_symbols. intros Hv Hd.
  destruct (lookup_key (KStr name) (o_props o)) as [cur|].
  - revert Hv.
    match goal with |- context [if ?c then None else _] => destruct c end;
      [done|].
    intros [= <-]. simpl. rewrite Hd, !in_app_iff. simpl.
    intros [Hp|Hc]; [|by auto].
    apply replace_key_symbols in Hp as [Hp|Hp]; auto.
  - destruct (o_extensible o); [|done]. injection Hv as <-. simpl.
    rewrite Hd, flat_map_app, !in_app_iff. simpl. rewrite app_nil_r.
    intros [[Hp|Hp]|Hc]; auto.
Qed.

(** The assignment of a symbol under a name brings that symbol into the
    store, and no other. *)
Lemma PutValue_sym_symbols R base name s0 st u st' :
  PutValue R base (KStr name) (VSym s0) st = (Ok u, st') →
  next_symbol st' = next_symbol st ∧
  ∀ s, In s (store_symbols st') → In s (store_symbols st) ∨ s = s0.
Proof.
  destruct (proto_accessor R st base (KStr name)) eqn:Ha.
  { rewrite PutValue_setter_sym by done. intros [= _ <-]. auto. }
  unfold PutValue, ordinary_set. munfold. rewrite Ha. simpl.
  destruct base as [| | | | | |l]; try done.
  destruct (heap st !! l) as [o|] eqn:Hl; [|done].
  destruct (from_option _ _ _); [|done].
  match goal with
  | |- match ?x with Some _ => _ | None => _ end _ = _ → _ =>
      destruct x as [o'|] eqn:Hset
  end; [|done].
  intros [= _ <-]. split; [done|].
  assert (∃ d, validate_and_apply o (KStr name) d = Some o'
               ∧ d_value d = Some (VSym s0)) as (d & Hv & Hd).
  { destruct (lookup_key (KStr name) (o_props o)); eauto. }
  intros s. unfold store_symbols. cbn [heap set_heap defaultImpls].
  rewrite !in_app_iff. intros [Hs|Hs]; [|by auto].
  apply in_flat_map in Hs as (x & Hx & Hs).
  apply list_elem_of_In, list_elem_of_lookup in Hx as (i & Hi).
  apply list_lookup_insert_Some in Hi as [(-> & <- & _)|(Hne & Hi)].
  - destruct (validate_and_apply_symbols _ _ _ _ _ _ Hv Hd Hs) as [Ho|Hn].
    + left. left. apply in_flat_map. exists o. split; [|done].
      apply list_elem_of_In. by eapply list_elem_of_lookup_2.
    + right. simpl in Hn. by destruct Hn.
  - left. left. apply in_flat_map. exists x. split; [|done].
    apply list_elem_of_In. by eapply list_elem_of_lookup_2.
Qed.

(** An assignment that creates the property creates it writable,
    enumerable and configurable. *)
Lemma PutValue_new R l k v st u st' :
  proto_accessor R st (VObj l) k = false →
  PutValue R (VObj l) k v st = (Ok u, st') →
  own_property st (VObj l) k = None →
  own_property st' (VObj l) k = Some (Prop_ v true true true).
Proof.
  intros Ha. unfold PutValue, ordinary_set, own_property. munfold.
  rewrite Ha. simpl.
  destruct (heap st !! l) as [o|] eqn:Hl; [|done]. simpl.
  intros Hput Hnone. rewrite Hnone in Hput.
  unfold validate_and_apply in Hput. rewrite Hnone in Hput.
  destruct (from_option _ _ _); [|done].
  destruct (o_extensible o); [|done]. injection Hput as _ <-.
  cbn [heap set_heap].
  rewrite list_lookup_insert_eq by (by eapply lookup_lt_Some). simpl.
  by apply lookup_key_app_new.
Qed.

(** ** Defining traits *)

Section MoreTraitSets.

Variable R : realm.
Variable native : nat → value → list value → M value.
Variable Number_toString : spec_float → string.

Abbreviation call := (call R native Number_toString).

(** Defining a trait, under whatever name, keeps every symbol that exists
    below the counter. *)
Lemma defineTrait_counter_ahead fuel TS name st r st' :
  uses_builtin_hasOwnProperty R st TS = true →
  counter_ahead R st = true →
  defineTrait R (call fuel) TS name st = (Ok r, st') →
  counter_ahead R st' = true.
Proof.
  intros Hb Hfresh. unfold defineTrait.
  rewrite (bind_Ok _ _ _ _ _ (Symbol_run _ _)). intros Hadd.
  set (sta := State (heap st) (defaultImpls st) (N.succ (next_symbol st))) in *.
  assert (Hba : uses_builtin_hasOwnProperty R sta TS = true)
    by (by rewrite (uses_builtin_heap _ _ st)).
  destruct (addSymbol_Ok _ _ _ _ _ _ _ _ _ _ Hba Hadd) as (_ & _ & _ & u & Hput).
  destruct (PutValue_sym_symbols _ _ _ _ _ _ _ Hput) as (Hnext & Hsyms).
  unfold counter_ahead in *. rewrite forallb_forall in *.
  intros x Hx. rewrite Hnext. cbn [sta next_symbol]. apply N.ltb_lt.
  assert (Hold : In x (known_symbols R st) → (sym_id x < next_symbol st)%N).
  { intros Hin. by apply N.ltb_lt, Hfresh. }
  destruct Hx as [<-|Hx]; [specialize (Hold (or_introl eq_refl)); lia|].
  destruct (Hsyms x Hx) as [Hin| ->]; [|simpl; lia].
  specialize (Hold (or_intror Hin)). lia.
Qed.

(** X10. [*defineTrait] of a name other than [__proto__], in a store
    where every symbol that exists is below the counter: the symbol
    returned is none of the symbols that exist and is described by the
    name; the set owns it under the name, as a property that a [for...in]
    loop visits; one symbol is drawn, nothing else in the store changes,
    and every symbol that exists is again below the counter. *)
Theorem defineTrait_defines fuel TS name st r st' :
  uses_builtin_hasOwnProperty R st TS = true →
  name ≠ "__proto__" →
  counter_ahead R st = true →
  defineTrait R (call fuel) TS name st = (Ok r, st') →
  let s := Sym (next_symbol st) (Some name) in
  r = VSym s ∧ (s ∉ known_symbols R st) ∧ symName s = name ∧
  own_property st' TS (KStr name) = Some (Prop_ (VSym s) true true true) ∧
  name ∈ for_in_keys R st' TS ∧
  next_symbol st' = N.succ (next_symbol st) ∧
  defaultImpls st' = defaultImpls st ∧
  (∀ v k, k ≠ KStr name → find_property R st' v k = find_property R st v k) ∧
  counter_ahead R st' = true.
Proof.
  intros Hb Hname Hfresh Hrun.
  pose proof (defineTrait_counter_ahead _ _ _ _ _ _ Hb Hfresh Hrun) as Hinv.
  revert Hrun. unfold defineTrait.
  rewrite (bind_Ok _ _ _ _ _ (Symbol_run _ _)). intros Hadd.
  set (sta := State (heap st) (defaultImpls st) (N.succ (next_symbol st))) in *.
  assert (Hba : uses_builtin_hasOwnProperty R sta TS = true)
    by (by rewrite (uses_builtin_heap _ _ st)).
  destruct (addSymbol_Ok _ _ _ _ _ _ _ _ _ _ Hba Hadd)
    as (Hown & -> & _ & u & Hput).
  apply addSymbol_effect in Hadd
    as (l & s' & p & -> & [= <-] & _ & Hnone & _ & _ & Hmod & _);
    [|done|done].
  assert (Ha : proto_accessor R sta (VObj l) (KStr name) = false)
    by (apply proto_accessor_other; congruence).
  pose proof (PutValue_new _ _ _ _ _ _ _ Ha Hput Hnone) as Hnew.
  split; [done|].
  split; [by apply (counter_ahead_fresh R)|].
  split; [apply symName_description|]. split; [done|].
  split; [by eapply own_enumerable_listed|].
  split; [by rewrite (modifies_next_symbol _ _ _ Hmod)|].
  split.
  { destruct Hmod as (? & ? & ? & _ & -> & _). done. }
  split; [|done].
  intros v k Hk. rewrite (modifies_find_property R _ _ _ _ _ Hmod) by done.
  by apply find_property_heap.
Qed.

(** X11. Two traits defined one after the other, whatever their names and
    the sets they are defined on, are different symbols. *)
Theorem defined_traits_are_distinct fuel fuel' A B nameA nameB st a st1 b st2 :
  uses_builtin_hasOwnProperty R st A = true →
  uses_builtin_hasOwnProperty R st1 B = true →
  defineTrait R (call fuel) A nameA st = (Ok a, st1) →
  defineTrait R (call fuel') B nameB st1 = (Ok b, st2) →
  a ≠ b.
Proof.
  intros HA HB. unfold defineTrait.
  rewrite !(bind_Ok _ _ _ _ _ (Symbol_run _ _)). intros H1 H2.
  assert (HA' : uses_builtin_hasOwnProperty R
                  (State (heap st) (defaultImpls st) (N.succ (next_symbol st))) A
                = true) by (by rewrite (uses_builtin_heap _ _ st)).
  destruct (addSymbol_Ok _ _ _ _ _ _ _ _ _ _ HA' H1) as (_ & -> & _).
  apply addSymbol_touches in H1 as (_ & _ & _ & _ & _ & Hnext & _);
    [|by rewrite (uses_builtin_heap _ _ st)].
  apply addSymbol_Ok in H2 as (_ & -> & _);
    [|by rewrite (uses_builtin_heap _ _ st1)].
  rewrite Hnext. simpl.
  intros [= Hid _]. lia.
Qed.



End MoreTraitSets.

(** ** Borrowing every trait of a set *)

Section BorrowAll.

Variable R : realm.
Variable native : nat → value → list value → M value.
Variable Number_toString : spec_float → string.
Variables (fuel : nat) (TS other : value).

Abbreviation call := (call R native Number_toString).
Abbreviation borrow := (borrow_key R (call fuel) TS other).

Lemma borrow_key_run k st :
  ¬ (other = VUndefined ∨ other = VNull) →
  borrow k st
  = match binding_of_name R st other k with
    | VSym sy => (_ ← addSymbol R (call fuel) TS k (VSym sy); mret tt) st
    | _ => (Ok tt, st)
    end.
Proof.
  intros Hother. unfold borrow_key.
  rewrite (bind_Ok _ _ _ _ _ (GetV_run R _ _ _ Hother)).
  fold (binding_of_name R st other k).
  destruct (typeof_run (binding_of_name R st other k) st) as (ty & Hty & Hsym).
  rewrite (bind_Ok _ _ _ _ _ Hty).
  destruct (decide (ty = "symbol")) as [Heq|Hne].
  - apply Hsym in Heq as [s ->]. done.
  - assert (¬ ∃ s, binding_of_name R st other k = VSym s) by (by rewrite <- Hsym).
    destruct (binding_of_name R st other k); try done. exfalso. eauto.
Qed.

Lemma borrow_loop ks : ∀ st st',
  uses_builtin_hasOwnProperty R st TS = true ∨ shadowed st TS →
  ¬ (other = VUndefined ∨ other = VNull) →
  forEach borrow ks st = (Ok tt, st') →
  (∀ k sy, k ∈ ks → k ≠ "__proto__" →
           binding_of_name R st other k = VSym sy → borrowed st' TS k sy) ∧
  (∀ k sy, borrowed st TS k sy → borrowed st' TS k sy) ∧
  (∀ k, (k ∈ ks → ∀ sy, binding_of_name R st other k ≠ VSym sy) →
        own_property st' TS (KStr k) = own_property st TS (KStr k)) ∧
  next_symbol st' = next_symbol st ∧ defaultImpls st' = defaultImpls st.
Proof.
  induction ks as [|k rest IH]; intros st st' Hguard Hother.
  - intros [= <-]. repeat split; try done.
    intros k sy Hk. by apply elem_of_nil in Hk.
  - cbn [forEach]. intros ([] & st1 & Hstep & Hrest)%bind_Ok_inv.
    rewrite borrow_key_run in Hstep by done.
    destruct (binding_of_name R st other k) as [| | | | |sy|] eqn:Hbind;
      try (injection Hstep as <-;
           destruct (IH _ _ Hguard Hother Hrest) as (HA & HF & HU & HN & HD);
           split; [|split; [|split]]; [| done | | done];
           [ intros k' sy' [->|Hin]%elem_of_cons Hne Hb;
             [congruence | by apply HA]
           | intros k0 Hk0; apply HU; intros Hin; apply Hk0;
             apply elem_of_cons; by right ]).
    apply bind_Ok_inv in Hstep as (r & st2 & Hadd & [= ->]).
    destruct Hguard as [Hb|Hs];
      [|by rewrite (addSymbol_shadowed R native Number_toString _ _ _ _ _ Hs)
          in Hadd].
    apply (addSymbol_touches R native Number_toString) in Hadd
      as (s & [= <-] & _ & Hnone & Hown & Hnext & Htouch); [|done].
    pose proof Htouch as (_ & Ho & _ & _ & Hd & Hg).
    assert (Hguard1 : uses_builtin_hasOwnProperty R st1 TS = true
                      ∨ shadowed st1 TS).
    { destruct (decide (k = "hasOwnProperty")) as [->|Hne].
      - right. destruct Hown as (p & Hp & Hpv); [done|]. by exists p, sy.
      - left. rewrite (touches_uses_builtin R _ _ _ _ Htouch) by congruence.
        done. }
    destruct (IH _ _ Hguard1 Hother Hrest) as (HA & HF & HU & HN & HD).
    assert (Hsame : ∀ k', k' ≠ k →
              binding_of_name R st1 other k' = binding_of_name R st other k').
    { intros k' Hk'. unfold binding_of_name. apply Hg. congruence. }
    split; [|split; [|split; [|split]]].
    + intros k' sy' Hin Hproto Hk'.
      destruct (decide (k' = k)) as [->|Hne].
      * apply HF. destruct (Hown Hproto) as (p & Hp & Hpv).
        exists p. split; [done | congruence].
      * apply elem_of_cons in Hin as [?|Hin]; [done|].
        apply HA; [done..|]. by rewrite Hsame.
    + intros x sx (px & Hx & Hxv). apply HF. exists px. split; [|done].
      rewrite Ho; [done|]. intros [= ->]. congruence.
    + intros k0 Hk0.
      assert (k0 ≠ k).
      { intros ->. eapply Hk0; [apply elem_of_cons; by left | done]. }
      rewrite HU.
      * rewrite Ho; [done | congruence].
      * intros Hin sy'. rewrite Hsame by done.
        apply Hk0. apply elem_of_cons. by right.
    + by rewrite HN.
    + by rewrite HD.
Qed.

End BorrowAll.

(** X14. [B.*borrowTraits(A)], [B.hasOwnProperty] being the built-in:
    once it has returned, it has given [B] every name other than
    [__proto__] that a [for...in] loop over [A] visits and under which [A]
    holds a symbol, with the very symbol [A] holds; the names under which
    [A] holds something else are skipped, and what [B] had under them is
    untouched; no symbol is drawn. *)
Theorem borrow_all_traits R native Number_toString fuel B A st r st' :
  uses_builtin_hasOwnProperty R st B = true →
  borrowTraits R (call R native Number_toString fuel) B A None st = (Ok r, st') →
  r = B ∧
  (∀ k sy, k ∈ for_in_keys R st A → k ≠ "__proto__" →
           binding_of_name R st A k = VSym sy →
           ∃ p, own_property st' B (KStr k) = Some p ∧ p_value p = VSym sy) ∧
  (∀ k, (k ∈ for_in_keys R st A → ∀ sy, binding_of_name R st A k ≠ VSym sy) →
        own_property st' B (KStr k) = own_property st B (KStr k)) ∧
  next_symbol st' = next_symbol st.
Proof.
  intros Hb. unfold borrowTraits, for_in.
  intros (u & st1 & Hloop & [= <- <-])%bind_Ok_inv.
  rewrite (bind_Ok _ _ st st st) in Hloop by done. destruct u.
  split; [done|].
  destruct (decide (A = VUndefined ∨ A = VNull)) as [HA|HA].
  - assert (Hkeys : for_in_keys R st A = []) by (by destruct HA as [-> | ->]).
    rewrite Hkeys in Hloop. injection Hloop as <-. rewrite Hkeys.
    split; [|done]. intros k sy Hk. by apply elem_of_nil in Hk.
  - destruct (borrow_loop R native Number_toString fuel B A _ _ _
                (or_introl Hb) HA Hloop) as (H1 & _ & H3 & H4 & _).
    done.
Qed.

(** ** Reading what an object owns *)

(** The free function calls the truthy value that the target owns under
    the trait. *)
Lemma own_binding_dispatch R native Number_toString st target sym q d this
    args n :
  own_property st target (KSym sym) = Some q →
  ToBoolean (p_value q) = true →
  free_function_of st d sym →
  call R native Number_toString (S n) d this (target :: args) st
  = call R native Number_toString n (p_value q) target args st.
Proof.
  intros Hq Hv Hd. rewrite (call_free_function _ _ _ _ _ _ _ _ _ Hd).
  destruct target as [| | | | | |l]; try done.
  apply freeFunction_bound; [|done]. by apply find_property_own.
Qed.

(** ** Defining and implementing in one step *)

Section DefineAndImpl.

Variable R : realm.
Variable native : nat → value → list value → M value.
Variable Number_toString : spec_float → string.
Variables (fuel : nat) (TS target : value).

Abbreviation call := (call R native Number_toString).

Lemma touches_guard k st st' :
  touches R k st st' → (∀ name, k ≠ KStr name) →
  uses_builtin_hasOwnProperty R st TS = true ∨ shadowed st TS →
  uses_builtin_hasOwnProperty R st' TS = true ∨ shadowed st' TS.
Proof.
  intros Htouch Hk [Hb|(p & x & Hown & Hval)].
  - left. by rewrite (touches_uses_builtin R _ _ _ _ Htouch).
  - right. exists p, x. split; [|done].
    destruct Htouch as (_ & Ho & _). by rewrite Ho.
Qed.

(** [this.*defineTrait(k).*impl(target, v)] *)
Lemma define_and_impl_step k v st st' :
  uses_builtin_hasOwnProperty R st TS = true →
  (sym ← defineTrait R (call fuel) TS k; _ ← call_impl sym target v; mret tt) st
  = (Ok tt, st') →
  (k ≠ "__proto__" → bound st' TS target k v) ∧
  (∀ x vx, bound st TS target x vx → bound st' TS target x vx) ∧
  (uses_builtin_hasOwnProperty R st' TS = true ∨ shadowed st' TS) ∧
  (∀ val k', k' ≠ k →
     get_value R st' val (KStr k') = get_value R st val (KStr k')).
Proof.
  intros Hb (r & st1 & Hdef & Hrest)%bind_Ok_inv.
  pose proof (defineTrait_keeps_guard _ _ _ _ _ _ _ _ _ Hb Hdef) as Hguard.
  destruct (defineTrait_effect _ _ _ _ _ _ _ _ _ Hb Hdef)
    as (-> & Hnone & Hown & Hnext & Ht1).
  apply bind_Ok_inv in Hrest as (r' & st2 & Himpl & [= ->]).
  destruct (call_impl_effect R _ _ _ _ _ _ Himpl)
    as ((q & Hq & Hqv) & Hnext2 & Ht2).
  destruct Ht1 as (Hf1 & Ho1 & Hc1 & _ & _ & Hg1).
  pose proof Ht2 as (Hf2 & Ho2 & Hc2 & _ & _ & Hg2).
  split; [|split; [|split]].
  - intros Hk. destruct (Hown Hk) as (p & Hp & Hpv).
    exists p, (Sym (next_symbol st) (Some k)), q.
    rewrite Ho2 by done. rewrite Hnext2, Hnext. simpl.
    repeat split; try done. lia.
  - intros x vx (px & sx & qx & Hx & Hxv & Hlt & Hqx & Hqxv).
    exists px, sx, qx.
    assert (x ≠ k) by (intros ->; congruence).
    assert (sx ≠ Sym (next_symbol st) (Some k))
      by (intros ->; simpl in Hlt; lia).
    rewrite Ho2, Ho1 by congruence. rewrite Ho2, Ho1 by congruence.
    rewrite Hnext2, Hnext. repeat split; try done. lia.
  - by apply (touches_guard _ _ _ Ht2).
  - intros val k' Hk'. rewrite Hg2, Hg1 by congruence. done.
Qed.

Section Loop.

Variable implementationObj : value.

Abbreviation define_and_impl := (λ name : string,
  value ← GetV R implementationObj (KStr name);
  sym ← defineTrait R (call fuel) TS name;
  _ ← call_impl sym target value;
  mret tt).

Lemma define_and_impl_loop ks : ∀ st st',
  uses_builtin_hasOwnProperty R st TS = true ∨ shadowed st TS →
  ¬ (implementationObj = VUndefined ∨ implementationObj = VNull) →
  forEach define_and_impl ks st = (Ok tt, st') →
  (∀ x vx, bound st TS target x vx → bound st' TS target x vx) ∧
  (∀ k, k ∈ ks → k ≠ "__proto__" →
        bound st' TS target k (binding_of_name R st implementationObj k)).
Proof.
  induction ks as [|k rest IH]; intros st st' Hguard Hobj.
  - intros [= <-]. split; [done|]. intros k Hk. by apply elem_of_nil in Hk.
  - cbn [forEach]. intros ([] & st1 & Hstep & Hrest)%bind_Ok_inv.
    rewrite (bind_Ok _ _ _ _ _ (GetV_run R _ _ _ Hobj)) in Hstep.
    fold (binding_of_name R st implementationObj k) in Hstep.
    destruct Hguard as [Hb|Hs].
    2:{ destruct (defineTrait_shadowed R native Number_toString fuel _ k _ Hs)
          as [st2 Hfail].
        by rewrite (bind_Throw _ _ _ _ _ Hfail) in Hstep. }
    destruct (define_and_impl_step _ _ _ _ Hb Hstep)
      as (Hk & Hframe & Hguard1 & Hsame).
    destruct (IH _ _ Hguard1 Hobj Hrest) as (Hframe' & Hall).
    split; [by intros x vx Hx; apply Hframe', Hframe|].
    intros k' Hin Hproto. destruct (decide (k' = k)) as [->|Hne].
    + by apply Hframe', Hk.
    + apply elem_of_cons in Hin as [?|Hin]; [done|].
      specialize (Hall k' Hin Hproto). unfold binding_of_name in *.
      by rewrite Hsame in Hall.
Qed.

End Loop.

(** X15. After [S.*defineAndImplTraits(target, implementationObj)],
    started with [S.hasOwnProperty] being the built-in, has returned, every
    name other than [__proto__] that a [for...in] loop over
    [implementationObj] visits is a trait of [S], bound on [target] to what
    [implementationObj] holds under that name; the free function of the
    trait, [d = S[name].*asFreeFunction()], calls that value, when it is
    truthy, with [target] as [this]. *)
Theorem define_and_impl_traits implementationObj st r st' k :
  uses_builtin_hasOwnProperty R st TS = true →
  defineAndImplTraits R (call fuel) TS target implementationObj st = (Ok r, st') →
  k ∈ for_in_keys R st implementationObj →
  k ≠ "__proto__" →
  let v := binding_of_name R st implementationObj k in
  ∃ sym, GetV R TS (KStr k) st' = (Ok (VSym sym), st') ∧
         (p_value <$> own_property st' target (KSym sym)) = Some v ∧
         ∀ d st2 this args n,
           asFreeFunction R sym st' = (Ok d, st2) → ToBoolean v = true →
           call (S n) d this (target :: args) st2 = call n v target args st2.
Proof.
  intros Hb Hrun Hk Hproto v. unfold defineAndImplTraits, for_in in Hrun.
  apply bind_Ok_inv in Hrun as ([] & st1 & Hloop & [= <- <-]).
  rewrite (bind_Ok _ _ st st st) in Hloop by done.
  assert (Hobj : ¬ (implementationObj = VUndefined ∨ implementationObj = VNull)).
  { intros [-> | ->]; by apply elem_of_nil in Hk. }
  destruct (define_and_impl_loop implementationObj _ _ _ (or_introl Hb) Hobj Hloop)
    as (_ & Hall).
  destruct (Hall k Hk Hproto) as (p & sym & q & Hown & Hval & _ & Hq & Hqv).
  exists sym. split; [|split].
  - by rewrite (own_GetV R _ _ _ _ Hown), Hval.
  - rewrite Hq. simpl. by rewrite Hqv.
  - intros d st2 this args n Hfree Hv. fold v in Hqv. rewrite <- Hqv in Hv |- *.
    by apply (derived_dispatch R native Number_toString sym st1).
Qed.

End DefineAndImpl.

(** ** Adapting free functions *)

Lemma typeof_function v st :
  ∃ ty, typeof v st = (Ok ty, st) ∧
        (ty = "function" ↔ is_Some (code_of st v)).
Proof.
  unfold typeof. msimpl. eexists. split; [done|].
  destruct v as [| | | | | |l]; try (split; [done | by intros [? ?]]).
  unfold is_callable. simpl. case_bool_decide; split; done.
Qed.

Section AdaptFunctions.

Variable R : realm.
Variable native : nat → value → list value → M value.
Variable Number_toString : spec_float → string.
Variables (fuel : nat) (TS target : value).

Abbreviation call := (call R native Number_toString).

(** l.192-196: define the trait, build the wrapper, bind it. *)
Lemma adapt_function_step k fn st st' :
  uses_builtin_hasOwnProperty R st TS = true →
  (sym ← defineTrait R (call fuel) TS k;
   wrapper ← new_function R (CFunctionWrapper fn);
   _ ← call_impl sym target wrapper;
   mret tt) st = (Ok tt, st') →
  (k ≠ "__proto__" → wrapped st' TS target k fn) ∧
  (∀ x fx, wrapped st TS target x fx → wrapped st' TS target x fx) ∧
  (uses_builtin_hasOwnProperty R st' TS = true ∨ shadowed st' TS) ∧
  (∀ val k' p, k' ≠ k → find_property R st val (KStr k') = Some p →
               find_property R st' val (KStr k') = Some p) ∧
  (∀ f c, code_of st f = Some c → code_of st' f = Some c).
Proof.
  intros Hb (r & st1 & Hdef & Hrest)%bind_Ok_inv.
  pose proof (defineTrait_keeps_guard _ _ _ _ _ _ _ _ _ Hb Hdef) as Hguard.
  destruct (defineTrait_effect _ _ _ _ _ _ _ _ _ Hb Hdef)
    as (-> & Hnone & Hown & Hnext & Ht1).
  unfold new_function in Hrest.
  rewrite (bind_Ok _ _ _ _ _ (alloc_run _ _)) in Hrest.
  set (wobj := Obj _ _ _ _) in *.
  set (st2 := set_heap (heap st1 ++ [wobj]) st1) in *.
  apply bind_Ok_inv in Hrest as (r' & st3 & Himpl & [= ->]).
  destruct (call_impl_effect R _ _ _ _ _ _ Himpl)
    as ((q & Hq & Hqv) & Hnext2 & Ht2).
  destruct Ht1 as (Hf1 & Ho1 & Hc1 & _ & _).
  pose proof Ht2 as (Hf2 & Ho2 & Hc2 & _ & _).
  assert (Hnext3 : next_symbol st' = N.succ (next_symbol st))
    by (by rewrite Hnext2).
  split; [|split; [|split; [|split]]].
  - intros Hk. destruct (Hown Hk) as (p & Hp & Hpv).
    exists (length (heap st1)). split.
    + exists p, (Sym (next_symbol st) (Some k)), q.
      rewrite Ho2 by done. rewrite Hnext3. simpl.
      split; [by apply alloc_own_property|]. repeat split; try done. lia.
    + rewrite Hc2. unfold st2. by rewrite alloc_code_of_new.
  - intros x fx (w & (px & sx & qx & Hx & Hxv & Hlt & Hqx & Hqxv) & Hcode).
    assert (x ≠ k) by (intros ->; congruence).
    assert (sx ≠ Sym (next_symbol st) (Some k))
      by (intros ->; simpl in Hlt; lia).
    exists w. split.
    + exists px, sx, qx. rewrite !Ho2 by congruence. rewrite Hnext3.
      split; [apply alloc_own_property; by rewrite Ho1 by congruence|].
      split; [done|]. split; [lia|].
      split; [apply alloc_own_property; by rewrite Ho1 by congruence | done].
    + rewrite Hc2. apply alloc_code_of. by rewrite Hc1.
  - apply (touches_guard R TS _ _ _ Ht2); [done|].
    destruct Hguard as [Hb1|(ps & xs & Hs & Hsv)].
    + left. by apply alloc_uses_builtin.
    + right. exists ps, xs. split; [by apply alloc_own_property | done].
  - intros val k' p' Hk' Hfind. rewrite Hf2 by done.
    apply alloc_find_property. rewrite Hf1 by congruence. done.
  - intros f c Hc. rewrite Hc2. apply alloc_code_of. by rewrite Hc1.
Qed.

Section Loop.

Variable functionObj : value.

Abbreviation adapt_function := (λ fnName : string,
  fn ← GetV R functionObj (KStr fnName);
  ty ← typeof fn;
  if decide (ty = "function") then
    sym ← defineTrait R (call fuel) TS fnName;
    wrapper ← new_function R (CFunctionWrapper fn);
    _ ← call_impl sym target wrapper;
    mret tt
  else mret tt).

Lemma adapt_function_loop ks : ∀ st st',
  uses_builtin_hasOwnProperty R st TS = true ∨ shadowed st TS →
  ¬ (functionObj = VUndefined ∨ functionObj = VNull) →
  forEach adapt_function ks st = (Ok tt, st') →
  (∀ x fx, wrapped st TS target x fx → wrapped st' TS target x fx) ∧
  (∀ f c, code_of st f = Some c → code_of st' f = Some c) ∧
  (∀ k p, k ∈ ks → k ≠ "__proto__" →
          find_property R st functionObj (KStr k) = Some p →
          is_Some (code_of st (p_value p)) →
          wrapped st' TS target k (p_value p)).
Proof.
  induction ks as [|k rest IH]; intros st st' Hguard Hobj.
  - intros [= <-]. split; [done|]. split; [done|].
    intros k p Hk. by apply elem_of_nil in Hk.
  - cbn [forEach]. intros ([] & st1 & Hstep & Hrest)%bind_Ok_inv.
    rewrite (bind_Ok _ _ _ _ _ (GetV_run R _ _ _ Hobj)) in Hstep.
    set (fn := get_value R st functionObj (KStr k)) in Hstep.
    assert (Hfn : ∀ p, k ≠ "__proto__" →
              find_property R st functionObj (KStr k) = Some p → fn = p_value p).
    { intros p Hk Hfind. unfold fn.
      rewrite get_value_other by congruence. by rewrite Hfind. }
    destruct (typeof_function fn st) as (ty & Hty & Hfun).
    rewrite (bind_Ok _ _ _ _ _ Hty) in Hstep.
    destruct (decide (ty = "function")) as [Hyes|Hno].
    + destruct Hguard as [Hb|Hs].
      2:{ destruct (defineTrait_shadowed R native Number_toString fuel _ k _ Hs)
            as [st2 Hfail].
          by rewrite (bind_Throw _ _ _ _ _ Hfail) in Hstep. }
      destruct (adapt_function_step _ _ _ _ Hb Hstep)
        as (Hk & Hframe & Hguard1 & Hsame & Hcode).
      destruct (IH _ _ Hguard1 Hobj Hrest) as (Hframe' & Hcode' & Hall).
      split; [by intros x fx Hx; apply Hframe', Hframe|].
      split; [by intros f c Hc; apply Hcode', Hcode|].
      intros k' p Hin Hproto Hfind Hcall.
      destruct (decide (k' = k)) as [->|Hne].
      * apply Hframe'. rewrite <- (Hfn p) by done. by apply Hk.
      * apply elem_of_cons in Hin as [?|Hin]; [done|].
        apply Hall; [done | done | by apply Hsame |].
        destruct Hcall as [c Hc]. exists c. by apply Hcode.
    + injection Hstep as <-.
      destruct (IH _ _ Hguard Hobj Hrest) as (Hframe' & Hcode' & Hall).
      split; [done|]. split; [done|].
      intros k' p Hin Hproto Hfind Hcall.
      apply elem_of_cons in Hin as [->|Hin]; [|by apply Hall].
      exfalso. apply Hno, Hfun. by rewrite (Hfn p).
Qed.

End Loop.

(** X16. After [S.*defineAndImplMemberFreeFunctionsAsTraits(target,
    functionObj)], started with [S.hasOwnProperty] being the built-in, has
    returned, every name other than [__proto__] that a [for...in] loop
    over [functionObj] visits and under which [functionObj] holds a
    function [fn] is a trait of [S], and the free function of that trait,
    [d = S[name].*asFreeFunction()], called as [d(target, ...args)] does
    what the call [fn(target, ...args)] does, with no receiver: same
    result, same effect on the store, two calls deeper. *)
Theorem adapted_function_forwards functionObj st r st' k :
  uses_builtin_hasOwnProperty R st TS = true →
  defineAndImplMemberFreeFunctionsAsTraits R (call fuel) TS target functionObj st
  = (Ok r, st') →
  k ∈ for_in_keys R st functionObj →
  k ≠ "__proto__" →
  let fn := binding_of_name R st functionObj k in
  is_callable st fn = true →
  ∃ sym, GetV R TS (KStr k) st' = (Ok (VSym sym), st') ∧
         ∀ d st2 this args n,
           asFreeFunction R sym st' = (Ok d, st2) →
           call (S (S n)) d this (target :: args) st2
           = call n fn VUndefined (target :: args) st2.
Proof.
  intros Hb Hrun Hk Hproto fn Hfn.
  unfold defineAndImplMemberFreeFunctionsAsTraits, for_in in Hrun.
  apply bind_Ok_inv in Hrun as ([] & st1 & Hloop & [= <- <-]).
  rewrite (bind_Ok _ _ st st st) in Hloop by done.
  assert (Hobj : ¬ (functionObj = VUndefined ∨ functionObj = VNull)).
  { intros [-> | ->]; by apply elem_of_nil in Hk. }
  destruct (adapt_function_loop functionObj _ _ _ (or_introl Hb) Hobj Hloop)
    as (_ & _ & Hall).
  subst fn. unfold binding_of_name in *.
  rewrite get_value_other in Hfn |- * by congruence.
  destruct (find_property R st functionObj (KStr k)) as [p|] eqn:Hfind; [|done].
  cbn [from_option] in Hfn |- *.
  destruct (Hall k p Hk Hproto Hfind)
    as (w & (pk & sym & q & Hown & Hval & _ & Hq & Hqv) & Hcode).
  { destruct (p_value p) as [| | | | | |l]; try done. simpl in *.
    by apply bool_decide_eq_true in Hfn. }
  exists sym. split; [by rewrite (own_GetV R _ _ _ _ Hown), Hval|].
  intros d st2 this args n Hfree.
  rewrite (derived_dispatch R native Number_toString sym st1 d st2 target q)
    by (by rewrite ?Hqv).
  destruct (asFreeFunction_run R sym st1) as (st2' & Hrun & _ & Hkeep & _).
  rewrite Hrun in Hfree. injection Hfree as _ <-.
  rewrite Hqv. simpl in Hcode.
  destruct (heap st1 !! w) as [ow|] eqn:Hw; [|done].
  simpl. rewrite (Hkeep _ _ Hw). by rewrite Hcode.
Qed.

End AdaptFunctions.

(** ** Implementing the traits of a set *)

Section ImplTraits.

Variable R : realm.
Variable native : nat → value → list value → M value.
Variable Number_toString : spec_float → string.
Variables (TS target implementationObj : value).

Abbreviation call := (call R native Number_toString).

(** l.153-156: one turn of the loop binds the symbol found under the name
    and leaves every string-named property and every other symbol's
    binding alone. *)
Lemma impl_trait_step k st st' :
  impl_trait R TS target implementationObj k st = (Ok tt, st') →
  ∃ sym, binding_of_name R st TS k = VSym sym ∧
         (p_value <$> own_property st' target (KSym sym))
         = Some (binding_of_name R st implementationObj k) ∧
         touches R (KSym sym) st st'.
Proof.
  unfold impl_trait. intros Hstep.
  assert (HTS : ¬ (TS = VUndefined ∨ TS = VNull)).
  { intros [-> | ->]; discriminate Hstep. }
  rewrite (bind_Ok _ _ _ _ _ (GetV_run R _ _ _ HTS)) in Hstep.
  fold (binding_of_name R st TS k) in Hstep.
  destruct (typeof_run (binding_of_name R st TS k) st) as (ty & Hty & Hsym).
  rewrite (bind_Ok _ _ _ _ _ Hty) in Hstep.
  case_bool_decide as Hs; [|discriminate Hstep].
  apply Hsym in Hs as [sym Hs]. rewrite Hs in Hstep.
  rewrite (bind_Ok _ _ st tt st) in Hstep by done.
  assert (Hobj : ¬ (implementationObj = VUndefined ∨ implementationObj = VNull)).
  { intros [-> | ->]; discriminate Hstep. }
  rewrite (bind_Ok _ _ _ _ _ (GetV_run R _ _ _ Hobj)) in Hstep.
  fold (binding_of_name R st implementationObj k) in Hstep.
  apply bind_Ok_inv in Hstep as (r & st1 & Himpl & [= ->]).
  destruct (call_impl_effect R _ _ _ _ _ _ Himpl) as ((q & Hq & Hqv) & _ & Ht).
  exists sym. split; [done|]. split; [|done].
  rewrite Hq. simpl. by rewrite Hqv.
Qed.

Lemma impl_traits_loop ks : ∀ st st',
  forEach (impl_trait R TS target implementationObj) ks st = (Ok tt, st') →
  (∀ v k, find_property R st' v (KStr k) = find_property R st v (KStr k)) ∧
  (∀ f, code_of st' f = code_of st f) ∧
  (∀ v sym, (∀ k, k ∈ ks → binding_of_name R st TS k ≠ VSym sym) →
            own_property st' v (KSym sym) = own_property st v (KSym sym)) ∧
  (∀ k, k ∈ ks →
        ∃ sym k', binding_of_name R st TS k = VSym sym ∧
                  k' ∈ ks ∧ binding_of_name R st TS k' = VSym sym ∧
                  (p_value <$> own_property st' target (KSym sym))
                  = Some (binding_of_name R st implementationObj k')).
Proof.
  induction ks as [|k rest IH]; intros st st'.
  - intros [= <-]. repeat split; try done.
    intros k Hk. by apply elem_of_nil in Hk.
  - cbn [forEach]. intros ([] & st1 & Hstep & Hrest)%bind_Ok_inv.
    destruct (impl_trait_step _ _ _ Hstep) as (sym & Hsym & Hbound & Ht).
    destruct Ht as (Hf & Ho & Hc & _ & _ & Hg).
    destruct (IH _ _ Hrest) as (Hf' & Hc' & Ho' & Hall).
    assert (Hname : ∀ v x, binding_of_name R st1 v x = binding_of_name R st v x).
    { intros v x. unfold binding_of_name. by rewrite Hg. }
    split; [|split; [|split]].
    + intros v x. by rewrite Hf', Hf.
    + intros f. by rewrite Hc', Hc.
    + intros v s Hs. rewrite Ho'.
      * apply Ho. intros [= ->]. apply (Hs k); [by left | done].
      * intros x Hx. rewrite Hname. apply Hs. by right.
    + assert (Hrest' : ∀ x, x ∈ rest →
        ∃ s x', binding_of_name R st TS x = VSym s ∧ x' ∈ k :: rest ∧
                binding_of_name R st TS x' = VSym s ∧
                (p_value <$> own_property st' target (KSym s))
                = Some (binding_of_name R st implementationObj x')).
      { intros x Hx. destruct (Hall x Hx) as (s & x' & Hs & Hx' & Hs' & Hv).
        rewrite !Hname in *. exists s, x'. repeat split; try done. by right. }
      intros x [->|Hx]%elem_of_cons; [|by apply Hrest'].
      destruct (decide (Exists (λ x, binding_of_name R st TS x = VSym sym) rest))
        as [(x & Hx & Hs)%Exists_exists | Hno].
      * destruct (Hrest' x Hx) as (s & x' & Hs1 & Hx' & Hs' & Hv).
        exists s, x'. repeat split; try done. congruence.
      * exists sym, k. split; [done|]. split; [by left|]. split; [done|].
        rewrite Ho'; [done|]. intros x Hx Hs. apply Hno, Exists_exists.
        exists x. split; [done|]. by rewrite <- Hname.
Qed.

(** X17. After [S.*implTraits(target, implementationObj)] has returned
    (it returns [S]), every name [k] that a [for...in] loop over
    [implementationObj] visits holds a symbol in [S], the properties
    with string names are what they were, and [target] is bound under that
    symbol to what [implementationObj] holds under a visited name of the
    same symbol: under [k] itself when no other visited name holds the
    same symbol in [S]. The free function of the symbol calls that value,
    when it is truthy, with [target] as [this]. *)
Theorem implTraits_binds st r st' k :
  implTraits R TS target implementationObj st = (Ok r, st') →
  k ∈ for_in_keys R st implementationObj →
  r = TS ∧
  (∀ v x, find_property R st' v (KStr x) = find_property R st v (KStr x)) ∧
  ∃ sym k',
    binding_of_name R st TS k = VSym sym ∧
    k' ∈ for_in_keys R st implementationObj ∧
    binding_of_name R st TS k' = VSym sym ∧
    ((∀ x, x ∈ for_in_keys R st implementationObj →
           binding_of_name R st TS x = VSym sym → x = k) → k' = k) ∧
    let v := binding_of_name R st implementationObj k' in
    (p_value <$> own_property st' target (KSym sym)) = Some v ∧
    ∀ d this args n,
      free_function_of st' d sym → ToBoolean v = true →
      call (S n) d this (target :: args) st' = call n v target args st'.
Proof.
  intros Hrun Hk. unfold implTraits, for_in in Hrun.
  apply bind_Ok_inv in Hrun as ([] & st1 & Hloop & [= <- <-]).
  rewrite (bind_Ok _ _ st st st) in Hloop by done.
  destruct (impl_traits_loop _ _ _ Hloop) as (Hf & _ & _ & Hall).
  split; [done|]. split; [done|].
  destruct (Hall k Hk) as (sym & k' & Hs & Hk' & Hs' & Hv).
  exists sym, k'. split; [done|]. split; [done|]. split; [done|].
  split; [by intros Hinj; apply Hinj|].
  intros v. split; [done|].
  intros d this args n Hd Htrue.
  destruct (own_property st1 target (KSym sym)) as [q|] eqn:Hq; [|done].
  injection Hv as Hv. fold v in Hv. rewrite <- Hv in Htrue |- *.
  by apply (own_binding_dispatch _ _ _ _ _ sym).
Qed.

End ImplTraits.

(** ** Free functions for a whole set *)

(** A prototype chain that ends is read the same in any heap that keeps
    its objects. *)
Lemma lookup_chain_stable fuel : ∀ fuel' h h' start k,
  chain_ends fuel h start = true →
  (∀ l o, h !! l = Some o → h' !! l = Some o) → (fuel ≤ fuel')%nat →
  lookup_chain fuel' h' start k = lookup_chain fuel h start k.
Proof.
  induction fuel as [|fuel IH]; intros fuel' h h' [l|] k Hends Hkeep Hle;
    try done; try (by destruct fuel').
  destruct fuel' as [|fuel']; [lia|]. simpl in *.
  destruct (h !! l) as [o|] eqn:Hl; [|done]. rewrite (Hkeep _ _ Hl).
  destruct (lookup_key k (o_props o)); [done|]. apply IH; [done..|lia].
Qed.

Lemma enumerate_stable fuel : ∀ fuel' h h' start visited,
  chain_ends fuel h start = true →
  (∀ l o, h !! l = Some o → h' !! l = Some o) → (fuel ≤ fuel')%nat →
  enumerate fuel' h' start visited = enumerate fuel h start visited.
Proof.
  induction fuel as [|fuel IH]; intros fuel' h h' [l|] visited Hends Hkeep Hle;
    try done; try (by destruct fuel').
  destruct fuel' as [|fuel']; [lia|]. simpl in *.
  destruct (h !! l) as [o|] eqn:Hl; [|done]. rewrite (Hkeep _ _ Hl).
  f_equal. apply IH; [done..|lia].
Qed.

Lemma kept_length (h h' : list object) :
  (∀ l o, h !! l = Some o → h' !! l = Some o) → (length h ≤ length h')%nat.
Proof.
  intros Hkeep. destruct (decide (length h = 0)) as [->|Hne]; [lia|].
  destruct (lookup_lt_is_Some_2 h (length h - 1)) as [o Ho]; [lia|].
  apply Hkeep, lookup_lt_Some in Ho. lia.
Qed.

Lemma find_property_stable R st st' v k :
  proper_object st v = true →
  (∀ l o, heap st !! l = Some o → heap st' !! l = Some o) →
  find_property R st' v k = find_property R st v k.
Proof.
  destruct v as [| | | | | |l]; try done. unfold proper_object, find_property.
  intros Hends Hkeep. apply lookup_chain_stable; [done..|].
  unfold chain_fuel. apply kept_length in Hkeep. lia.
Qed.

Lemma for_in_keys_stable R st st' v :
  proper_object st v = true →
  (∀ l o, heap st !! l = Some o → heap st' !! l = Some o) →
  for_in_keys R st' v = for_in_keys R st v.
Proof.
  destruct v as [| | | | | |l]; try done. unfold proper_object, for_in_keys.
  intros Hends Hkeep. apply enumerate_stable; [done..|].
  unfold chain_fuel. apply kept_length in Hkeep. lia.
Qed.

Lemma alloc_own_property_old o st l k :
  (l < length (heap st))%nat →
  own_property (set_heap (heap st ++ [o]) st) (VObj l) k
  = own_property st (VObj l) k.
Proof. intros Hl. simpl. by rewrite lookup_app_l. Qed.

Lemma proto_accessor_on_chain_stable R fuel : ∀ fuel' h h' start,
  chain_ends fuel h start = true →
  (∀ l o, h !! l = Some o → h' !! l = Some o) → (fuel ≤ fuel')%nat →
  proto_accessor_on_chain R fuel' h' start = proto_accessor_on_chain R fuel h start.
Proof.
  induction fuel as [|fuel IH]; intros fuel' h h' [l|] Hends Hkeep Hle;
    try done; try (by destruct fuel').
  destruct fuel' as [|fuel']; [lia|]. simpl in *.
  destruct (h !! l) as [o|] eqn:Hl; [|done]. rewrite (Hkeep _ _ Hl).
  destruct (lookup_key _ (o_props o)); [done|].
  destruct (decide (l = ObjectPrototype R)); [done|]. apply IH; [done..|lia].
Qed.

(** An object whose chain ends reads the same in any heap that keeps the
    objects. *)
Lemma get_value_stable R st st' v k :
  proper_object st v = true →
  (∀ l o, heap st !! l = Some o → heap st' !! l = Some o) →
  get_value R st' v k = get_value R st v k.
Proof.
  intros Hv Hkeep. unfold get_value.
  rewrite (find_property_stable R st st') by done.
  destruct v as [| | | | | |l]; try done.
  assert (Ha : proto_accessor R st' (VObj l) k = proto_accessor R st (VObj l) k).
  { unfold proto_accessor. f_equal. unfold proper_object in Hv.
    apply proto_accessor_on_chain_stable; [done..|].
    unfold chain_fuel. apply kept_length in Hkeep. lia. }
  rewrite Ha. destruct (proto_accessor R st (VObj l) k); [|done].
  unfold proper_object, chain_fuel in Hv. simpl in Hv |- *.
  destruct (heap st !! l) as [o|] eqn:Hl; [|done]. by rewrite (Hkeep _ _ Hl).
Qed.

(** ** Assignments *)

(** The setter of [__proto__] leaves the store as it was or changes the
    prototype of the object. *)
Lemma proto_setter_Ok R l V st u st' :
  proto_setter R (VObj l) V st = (Ok u, st') →
  st' = st ∨
  ∃ o proto, heap st !! l = Some o ∧
             st' = set_heap (<[l := set_proto proto o]> (heap st)) st.
Proof.
  unfold proto_setter. munfold.
  destruct V as [| | | | | |p]; try (intros [= _ <-]; by left);
    (destruct (heap st !! l) as [o|] eqn:Hl; [|done]);
    (match goal with |- context [decide ?P] => destruct (decide P) end;
       [intros [= _ <-]; by left|]);
    (match goal with |- context [if ?c then _ else _] => destruct c end;
       [done|]);
    intros [= _ <-]; right; eauto.
Qed.

(** A successful assignment to an object changes no other object, no
    function and no property of the object under another name. *)
Lemma PutValue_frame R l k v st u st' :
  PutValue R (VObj l) k v st = (Ok u, st') →
  length (heap st') = length (heap st) ∧
  next_symbol st' = next_symbol st ∧
  (∀ l', l' ≠ l → heap st' !! l' = heap st !! l') ∧
  (∀ f, code_of st' f = code_of st f) ∧
  (∀ k', k' ≠ k → own_property st' (VObj l) k' = own_property st (VObj l) k').
Proof.
  intros Hput. destruct (proto_accessor R st (VObj l) k) eqn:Ha.
  - rewrite PutValue_setter in Hput by done.
    apply proto_setter_Ok in Hput as [-> | (o & proto & Hl & ->)]; [done|].
    cbn [heap set_heap next_symbol]. rewrite length_insert.
    split; [done|]. split; [done|].
    split; [by intros l' Hl'; rewrite list_lookup_insert_ne|].
    split.
    + intros [| | | | | |lf]; try done. simpl.
      destruct (decide (l = lf)) as [<-|Hne].
      * rewrite list_lookup_insert_eq by (by eapply lookup_lt_Some).
        by rewrite Hl.
      * by rewrite list_lookup_insert_ne.
    + intros k' _. simpl.
      rewrite list_lookup_insert_eq by (by eapply lookup_lt_Some).
      by rewrite Hl.
  - destruct (PutValue_Ok R _ _ _ _ _ _ Ha Hput)
      as (l1 & o & o' & p & [= <-] & Hl & -> & Hproto & _ & _ & Hmod).
    cbn [heap set_heap next_symbol]. rewrite length_insert.
    split; [done|]. split; [done|].
    split; [by intros l' Hl'; rewrite list_lookup_insert_ne|].
    split; [by intros f; apply (modifies_code_of _ _ _ _ Hmod)|].
    intros k' Hk'. by apply (modifies_own_property _ _ _ _ _ Hmod).
Qed.

(** A successful assignment of a symbol keeps the prototype of the object
    as well. *)
Lemma PutValue_heap R l k s st u st' :
  PutValue R (VObj l) k (VSym s) st = (Ok u, st') →
  length (heap st') = length (heap st) ∧
  next_symbol st' = next_symbol st ∧
  (∀ l', l' ≠ l → heap st' !! l' = heap st !! l') ∧
  (o_proto <$> heap st' !! l) = (o_proto <$> heap st !! l) ∧
  (∀ k', k' ≠ k → own_property st' (VObj l) k' = own_property st (VObj l) k').
Proof.
  intros Hput.
  destruct (PutValue_frame _ _ _ _ _ _ _ Hput) as (Hlen & Hnext & Hothers & _ & Hown).
  do 3 (split; [done|]). split; [|done].
  destruct (proto_accessor R st (VObj l) k) eqn:Ha.
  - rewrite PutValue_setter_sym in Hput by done. by injection Hput as _ <-.
  - destruct (PutValue_Ok R _ _ _ _ _ _ Ha Hput)
      as (l1 & o & o' & p & [= <-] & Hl & -> & Hproto & _).
    cbn [heap set_heap].
    rewrite list_lookup_insert_eq by (by eapply lookup_lt_Some).
    rewrite Hl. simpl. by rewrite Hproto.
Qed.

(** Where the accessor is not in the way, a successful assignment leaves
    the property with the value assigned; a property that existed keeps
    being enumerable or not, a new one is enumerable. *)
Lemma PutValue_own R l k v st u st' :
  proto_accessor R st (VObj l) k = false →
  PutValue R (VObj l) k v st = (Ok u, st') →
  ∃ p, own_property st' (VObj l) k = Some p ∧ p_value p = v ∧
       p_enumerable p
       = from_option p_enumerable true (own_property st (VObj l) k).
Proof.
  intros Ha. unfold PutValue, ordinary_set, own_property. munfold.
  rewrite Ha. simpl.
  destruct (heap st !! l) as [o|] eqn:Hl; [|done]. simpl.
  destruct (from_option _ _ _); [|done].
  unfold validate_and_apply.
  destruct (lookup_key k (o_props o)) as [cur|] eqn:Hk.
  - match goal with |- context [if ?c then None else _] => destruct c end;
      [done|].
    intros [= _ <-]. cbn [heap set_heap].
    rewrite list_lookup_insert_eq by (by eapply lookup_lt_Some). simpl.
    eexists. split; [apply lookup_key_replace_eq; by rewrite Hk | done].
  - destruct (o_extensible o); [|done]. intros [= _ <-]. cbn [heap set_heap].
    rewrite list_lookup_insert_eq by (by eapply lookup_lt_Some). simpl.
    eexists. split; [by apply lookup_key_app_new | done].
Qed.

Section FreeFunctions.

Variable R : realm.
Variables (st0 : state) (this : value).
Hypothesis Hthis : proper_object st0 this = true.

Abbreviation result := (VObj (length (heap st0))).

(** l.139-144: the body of the loop. *)
Abbreviation free_function_for := (λ key : string,
  sym ← GetV R this (KStr key);
  ty ← typeof sym;
  if decide (ty = "symbol") then
    f ← call_asFreeFunction R sym; PutValue R result (KStr key) f
  else mret tt).

Lemma free_function_loop ks : ∀ st st',
  (∀ l o, heap st0 !! l = Some o → heap st !! l = Some o) →
  (length (heap st0) < length (heap st))%nat →
  forEach free_function_for ks st = (Ok tt, st') →
  (∀ l o, heap st0 !! l = Some o → heap st' !! l = Some o) ∧
  (∀ f c, code_of st f = Some c → code_of st' f = Some c) ∧
  (∀ k, (∀ s sym, s ∈ ks → binding_of_name R st0 this s = VSym sym →
                  k ≠ KStr s) →
        own_property st' result k = own_property st result k) ∧
  (∀ k, is_Some (own_property st' result k) →
        is_Some (own_property st result k) ∨
        ∃ s sym, k = KStr s ∧ s ∈ ks ∧ binding_of_name R st0 this s = VSym sym) ∧
  (∀ s sym, s ∈ ks → s ≠ "__proto__" →
            binding_of_name R st0 this s = VSym sym →
            ∃ p, own_property st' result (KStr s) = Some p ∧
                 free_function_of st' (p_value p) sym).
Proof using Hthis.
  assert (Hobj : ¬ (this = VUndefined ∨ this = VNull)).
  { intros [Hu|Hn]; rewrite ?Hu, ?Hn in Hthis; done. }
  induction ks as [|k rest IH]; intros st st' Hkeep Hlen.
  - intros [= <-]. split; [done|]. split; [done|]. split; [done|].
    split; [by left|]. intros s sym Hs. by apply elem_of_nil in Hs.
  - cbn [forEach]. intros ([] & st1 & Hstep & Hrest)%bind_Ok_inv.
    rewrite (bind_Ok _ _ _ _ _ (GetV_run R _ _ _ Hobj)) in Hstep.
    rewrite (get_value_stable R st0 st) in Hstep by done.
    fold (binding_of_name R st0 this k) in Hstep.
    destruct (typeof_run (binding_of_name R st0 this k) st) as (ty & Hty & Hsym).
    rewrite (bind_Ok _ _ _ _ _ Hty) in Hstep.
    destruct (decide (ty = "symbol")) as [Hyes|Hno].
    + apply Hsym in Hyes as [sym Hk]. rewrite Hk in Hstep.
      cbn [call_asFreeFunction] in Hstep. unfold asFreeFunction, new_function in Hstep.
      rewrite (bind_Ok _ _ _ _ _ (alloc_run _ _)) in Hstep.
      set (fo := Obj _ _ _ _) in *.
      set (st2 := set_heap (heap st ++ [fo]) st) in *.
      destruct (PutValue_frame _ _ _ _ _ _ _ Hstep)
        as (Hlen2 & _ & Hothers & Hcode2 & Hown2).
      assert (Hcode1 : ∀ f c, code_of st f = Some c → code_of st1 f = Some c).
      { intros f c Hc. rewrite Hcode2. by apply alloc_code_of. }
      assert (Hother1 : ∀ k', k' ≠ KStr k →
                own_property st1 result k' = own_property st result k').
      { intros k' Hk'. rewrite Hown2 by done. by apply alloc_own_property_old. }
      assert (Hkeep1 : ∀ l o, heap st0 !! l = Some o → heap st1 !! l = Some o).
      { intros l1 o1 Hl1.
        rewrite Hothers by (apply lookup_lt_Some in Hl1; lia).
        apply lookup_app_l_Some. by apply Hkeep. }
      assert (Hlen1 : (length (heap st0) < length (heap st1))%nat).
      { rewrite Hlen2. unfold st2. cbn [heap set_heap]. rewrite length_app. lia. }
      assert (Hstored : k ≠ "__proto__" →
                ∃ p, own_property st1 result (KStr k) = Some p ∧
                     free_function_of st1 (p_value p) sym).
      { intros Hproto.
        assert (Ha : proto_accessor R st2 result (KStr k) = false).
        { apply proto_accessor_other. by intros [= ->]. }
        destruct (PutValue_own R _ _ _ _ _ _ Ha Hstep) as (p & Hp & Hpv & _).
        exists p. split; [done|]. unfold free_function_of.
        rewrite Hpv, Hcode2. unfold st2. by rewrite alloc_code_of_new. }
      destruct (IH _ _ Hkeep1 Hlen1 Hrest) as (Hkeep' & Hcode' & Hother' & Honly' & Hall').
      split; [done|]. split; [by intros f c Hc; apply Hcode', Hcode1|].
      split; [|split].
      * intros k' Hk'. rewrite Hother'.
        -- apply Hother1. apply (Hk' k sym); [by left | done].
        -- intros s sy Hs. apply Hk'. by right.
      * intros k' Hsome. destruct (Honly' k' Hsome) as [Hold|(s & sy & -> & Hs & Hb)].
        -- destruct (decide (k' = KStr k)) as [->|Hne].
           ++ right. exists k, sym. split; [done|]. split; [by left | done].
           ++ left. by rewrite <- Hother1.
        -- right. exists s, sy. split; [done|]. split; [by right | done].
      * intros s sy Hs Hproto Hb.
        destruct (decide (s ∈ rest)) as [Hin|Hout]; [by apply Hall'|].
        apply elem_of_cons in Hs as [->|Hs]; [|done].
        assert (sy = sym) as -> by congruence.
        destruct (Hstored Hproto) as (p & Hp & Hfree).
        exists p. split.
        -- rewrite Hother'; [done|]. by intros x sx Hx _ [= ->].
        -- unfold free_function_of in *. by apply Hcode'.
    + injection Hstep as <-.
      destruct (IH _ _ Hkeep Hlen Hrest) as (Hkeep' & Hcode' & Hother' & Honly' & Hall').
      split; [done|]. split; [done|].
      assert (Hnot : ∀ sym, binding_of_name R st0 this k ≠ VSym sym).
      { intros sym Hk. apply Hno, Hsym. by exists sym. }
      split; [|split].
      * intros k' Hk'. apply Hother'. intros s sy Hs. apply Hk'. by right.
      * intros k' Hsome. destruct (Honly' k' Hsome) as [Hold|(s & sy & -> & Hs & Hb)].
        -- by left.
        -- right. exists s, sy. split; [done|]. split; [by right | done].
      * intros s sy [->|Hs]%elem_of_cons Hproto Hb;
          [by destruct (Hnot sy) | by apply Hall'].
Qed.

End FreeFunctions.

(** X18. [S.*traitsToFreeFunctions()], [S] being an object of the store
    whose prototype chain ends, returns a new object. When it returns, no
    object that existed before has changed; the new object owns, with a
    free function of the symbol as its value, every name other than
    [__proto__] that a [for...in] loop over [S] visits and under which [S]
    holds a symbol, and it owns nothing but names that the loop visits and
    under which [S] holds a symbol. *)
Theorem free_functions_of_a_set R this st r st' :
  proper_object st this = true →
  traitsToFreeFunctions R this st = (Ok r, st') →
  r = VObj (length (heap st)) ∧
  heap st !! length (heap st) = None ∧
  (∀ l o, heap st !! l = Some o → heap st' !! l = Some o) ∧
  (∀ k sym, k ∈ for_in_keys R st this → k ≠ "__proto__" →
            binding_of_name R st this k = VSym sym →
            ∃ p, own_property st' r (KStr k) = Some p ∧
                 free_function_of st' (p_value p) sym) ∧
  (∀ k, is_Some (own_property st' r k) →
        ∃ s sym, k = KStr s ∧ s ∈ for_in_keys R st this ∧
                 binding_of_name R st this s = VSym sym).
Proof.
  intros Hthis. unfold traitsToFreeFunctions.
  rewrite (bind_Ok _ _ _ _ _ (alloc_run _ _)).
  set (ro := Obj _ _ _ _). set (st1 := set_heap (heap st ++ [ro]) st).
  intros ([] & st2 & Hloop & [= <- <-])%bind_Ok_inv.
  unfold for_in in Hloop. rewrite (bind_Ok _ _ st1 st1 st1) in Hloop by done.
  assert (Hkeep : ∀ l o, heap st !! l = Some o → heap st1 !! l = Some o).
  { intros l o Hl. by apply lookup_app_l_Some. }
  rewrite (for_in_keys_stable R st st1) in Hloop by done.
  destruct (free_function_loop R st this Hthis _ _ _ Hkeep ltac:(unfold st1; cbn [heap set_heap]; rewrite length_app; simpl; lia) Hloop)
    as (Hkeep' & _ & _ & Honly & Hall).
  split; [done|]. split; [by apply lookup_ge_None_2|]. split; [done|].
  split; [done|].
  intros k Hsome. destruct (Honly k Hsome) as [Hold|Hnew]; [|done].
  exfalso. unfold st1 in Hold. simpl in Hold.
  rewrite list_lookup_middle in Hold by done. simpl in Hold.
  by destruct Hold.
Qed.

(** ** The class [TraitSet] *)

Section Constructor.

Variable R : realm.
Variables (st0 : state) (traitSet : value).
Hypothesis HtraitSet : proper_object st0 traitSet = true.

Variable new : loc.
Hypothesis Hnew : (length (heap st0) ≤ new)%nat.

(** l.16-19: the body of the loop. *)
Abbreviation copy_symbol := (λ key : string,
  sym ← GetV R traitSet (KStr key);
  ty ← typeof sym;
  if decide (ty = "symbol") then PutValue R (VObj new) (KStr key) sym
  else mret tt).

Lemma constructor_loop ks : ∀ st st',
  (∀ l o, heap st0 !! l = Some o → heap st !! l = Some o) →
  forEach copy_symbol ks st = (Ok tt, st') →
  (∀ l, l ≠ new → heap st' !! l = heap st !! l) ∧
  length (heap st') = length (heap st) ∧
  next_symbol st' = next_symbol st ∧
  (o_proto <$> heap st' !! new) = (o_proto <$> heap st !! new) ∧
  (∀ k, (∀ s sym, s ∈ ks → binding_of_name R st0 traitSet s = VSym sym →
                  k ≠ KStr s) →
        own_property st' (VObj new) k = own_property st (VObj new) k) ∧
  (∀ k, is_Some (own_property st' (VObj new) k) →
        is_Some (own_property st (VObj new) k) ∨
        ∃ s sym, k = KStr s ∧ s ∈ ks ∧
                 binding_of_name R st0 traitSet s = VSym sym) ∧
  (∀ s sym, s ∈ ks → s ≠ "__proto__" →
            binding_of_name R st0 traitSet s = VSym sym →
            (p_value <$> own_property st' (VObj new) (KStr s))
            = Some (VSym sym)).
Proof using HtraitSet Hnew.
  assert (Hobj : ¬ (traitSet = VUndefined ∨ traitSet = VNull)).
  { intros [Hu|Hn]; rewrite ?Hu, ?Hn in HtraitSet; done. }
  induction ks as [|k rest IH]; intros st st' Hkeep.
  - intros [= <-]. do 5 (split; [done|]). split; [by left|].
    intros s sym Hs. by apply elem_of_nil in Hs.
  - cbn [forEach]. intros ([] & st1 & Hstep & Hrest)%bind_Ok_inv.
    rewrite (bind_Ok _ _ _ _ _ (GetV_run R _ _ _ Hobj)) in Hstep.
    rewrite (get_value_stable R st0 st) in Hstep by done.
    fold (binding_of_name R st0 traitSet k) in Hstep.
    destruct (typeof_run (binding_of_name R st0 traitSet k) st) as (ty & Hty & Hsym).
    rewrite (bind_Ok _ _ _ _ _ Hty) in Hstep.
    destruct (decide (ty = "symbol")) as [Hyes|Hno].
    + apply Hsym in Hyes as [sym Hk]. rewrite Hk in Hstep.
      destruct (PutValue_heap _ _ _ _ _ _ _ Hstep)
        as (Hlen1 & Hnext1 & Hothers1 & Hproto1 & Hown1).
      assert (Hkeep1 : ∀ l o, heap st0 !! l = Some o → heap st1 !! l = Some o).
      { intros l o Hl. rewrite Hothers1; [by apply Hkeep|].
        apply lookup_lt_Some in Hl. lia. }
      destruct (IH _ _ Hkeep1 Hrest)
        as (Hothers' & Hlen' & Hnext' & Hproto' & Hown' & Honly' & Hall').
      split; [by intros l Hl; rewrite Hothers', Hothers1|].
      split; [by rewrite Hlen'|]. split; [by rewrite Hnext'|].
      split; [by rewrite Hproto'|]. split; [|split].
      * intros k' Hk'. rewrite Hown'.
        -- apply Hown1. apply (Hk' k sym); [by left | done].
        -- intros s sy Hs. apply Hk'. by right.
      * intros k' Hsome.
        destruct (Honly' k' Hsome) as [Hold|(s & sy & -> & Hs & Hb)].
        -- destruct (decide (k' = KStr k)) as [->|Hne].
           ++ right. exists k, sym. split; [done|]. split; [by left | done].
           ++ left. by rewrite <- Hown1.
        -- right. exists s, sy. split; [done|]. split; [by right | done].
      * intros s sy Hs Hproto Hb.
        destruct (decide (s ∈ rest)) as [Hin|Hout]; [by apply Hall'|].
        apply elem_of_cons in Hs as [->|Hs]; [|done].
        assert (Ha : proto_accessor R st (VObj new) (KStr k) = false).
        { apply proto_accessor_other. by intros [= ->]. }
        destruct (PutValue_own R _ _ _ _ _ _ Ha Hstep) as (p & Hp & Hpv & _).
        rewrite Hown'; [by rewrite Hp; simpl; congruence|].
        by intros x sx Hx _ [= ->].
    + injection Hstep as <-.
      destruct (IH _ _ Hkeep Hrest)
        as (Hothers' & Hlen' & Hnext' & Hproto' & Hown' & Honly' & Hall').
      do 4 (split; [done|]).
      assert (Hnot : ∀ sym, binding_of_name R st0 traitSet k ≠ VSym sym).
      { intros sym Hk. apply Hno, Hsym. by exists sym. }
      split; [|split].
      * intros k' Hk'. apply Hown'. intros s sy Hs. apply Hk'. by right.
      * intros k' Hsome.
        destruct (Honly' k' Hsome) as [Hold|(s & sy & -> & Hs & Hb)].
        -- by left.
        -- right. exists s, sy. split; [done|]. split; [by right | done].
      * intros s sy [->|Hs]%elem_of_cons Hproto Hb;
          [by destruct (Hnot sy) | by apply Hall'].
Qed.

End Constructor.

(** [new TraitSet(traitSet)] with an object: the new object is allocated,
    the parameter keeps its value, and the loop runs over the names that
    [traitSet] had when the call started. *)
Lemma TraitSet_new_run R traitSet st r st' :
  proper_object st traitSet = true →
  TraitSet_new R traitSet st = (Ok r, st') →
  r = VObj (length (heap st)) ∧
  forEach (λ key : string,
             sym ← GetV R traitSet (KStr key);
             ty ← typeof sym;
             if decide (ty = "symbol")
             then PutValue R (VObj (length (heap st))) (KStr key) sym
             else mret tt)
    (for_in_keys R st traitSet)
    (set_heap (heap st ++ [Obj (Some (TraitSetPrototype R)) true [] None]) st)
  = (Ok tt, st').
Proof.
  intros Hts. unfold TraitSet_new.
  rewrite (bind_Ok _ _ _ _ _ (alloc_run _ _)).
  set (o0 := Obj (Some (TraitSetPrototype R)) true [] None).
  set (st1 := set_heap (heap st ++ [o0]) st).
  intros (ts & st1' & Hdef & Hrun)%bind_Ok_inv.
  assert (ts = traitSet ∧ st1' = st1) as [-> ->].
  { destruct traitSet; try done. unfold mret, M_ret in Hdef.
    by injection Hdef as <- <-. }
  apply bind_Ok_inv in Hrun as ([] & st2 & Hloop & [= <- <-]).
  unfold for_in in Hloop. rewrite (bind_Ok _ _ st1 st1 st1) in Hloop by done.
  rewrite (for_in_keys_stable R st st1) in Hloop; [done..|].
  intros l o Hl. by apply lookup_app_l_Some.
Qed.

(** X19. [new TraitSet(traitSet)], [traitSet] being an object of the
    store whose prototype chain ends: when it returns, the new object has
    [TraitSet.prototype] as its prototype; it owns, with the same symbol,
    every name other than [__proto__] that a [for...in] loop over
    [traitSet] visits and under which [traitSet] holds a symbol, and it
    owns nothing but names that the loop visits and under which
    [traitSet] holds a symbol; no object that existed before has changed
    and no symbol has been drawn. *)
Theorem constructor_copies_symbols R traitSet st r st' :
  proper_object st traitSet = true →
  TraitSet_new R traitSet st = (Ok r, st') →
  r = VObj (length (heap st)) ∧
  (o_proto <$> heap st' !! length (heap st)) = Some (Some (TraitSetPrototype R)) ∧
  (∀ l o, heap st !! l = Some o → heap st' !! l = Some o) ∧
  next_symbol st' = next_symbol st ∧
  (∀ k sym, k ∈ for_in_keys R st traitSet → k ≠ "__proto__" →
            binding_of_name R st traitSet k = VSym sym →
            (p_value <$> own_property st' r (KStr k)) = Some (VSym sym)) ∧
  (∀ k, is_Some (own_property st' r k) →
        ∃ s sym, k = KStr s ∧ s ∈ for_in_keys R st traitSet ∧
                 binding_of_name R st traitSet s = VSym sym).
Proof.
  intros Hts Hrun.
  destruct (TraitSet_new_run _ _ _ _ _ Hts Hrun) as (-> & Hloop).
  set (o0 := Obj (Some (TraitSetPrototype R)) true [] None) in *.
  set (st1 := set_heap (heap st ++ [o0]) st) in *.
  assert (Hkeep : ∀ l o, heap st !! l = Some o → heap st1 !! l = Some o).
  { intros l o Hl. by apply lookup_app_l_Some. }
  destruct (constructor_loop R st traitSet Hts (length (heap st)) (le_n _)
              _ _ _ Hkeep Hloop)
    as (Hothers & Hlen & Hnext & Hproto & Hown & Honly & Hall).
  assert (Hnew1 : heap st1 !! length (heap st) = Some o0)
    by (by apply list_lookup_middle).
  split; [done|]. split; [by rewrite Hproto, Hnew1|].
  split; [|split; [done|split; [done|]]].
  - intros l o Hl. rewrite Hothers; [by apply Hkeep|].
    apply lookup_lt_Some in Hl. lia.
  - intros k Hsome. destruct (Honly k Hsome) as [Hold|Hnew]; [|done].
    exfalso. unfold own_property in Hold. rewrite Hnew1 in Hold.
    by destruct Hold.
Qed.

(** A prototype chain that ends still ends in a heap that keeps its
    objects. *)
Lemma chain_ends_mono fuel : ∀ fuel' h h' start,
  chain_ends fuel h start = true →
  (∀ l o, h !! l = Some o → h' !! l = Some o) → (fuel ≤ fuel')%nat →
  chain_ends fuel' h' start = true.
Proof.
  induction fuel as [|fuel IH]; intros fuel' h h' [l|] Hends Hkeep Hle;
    try done; try (by destruct fuel').
  destruct fuel' as [|fuel']; [lia|]. simpl in *.
  destruct (h !! l) as [o|] eqn:Hl; [|done]. rewrite (Hkeep _ _ Hl).
  apply (IH _ h); [done..|lia].
Qed.

Section FromStrings.

Variable R : realm.
Variable obj : loc.

(** l.10: the callback of [names.forEach]. *)
Abbreviation fresh_symbol := (λ name : string,
  sym ← Symbol_ name; PutValue R (VObj obj) (KStr name) (VSym sym)).

Lemma fromStrings_loop names : ∀ st st',
  forEach fresh_symbol names st = (Ok tt, st') →
  (∀ l, l ≠ obj → heap st' !! l = heap st !! l) ∧
  length (heap st') = length (heap st) ∧
  next_symbol st' = (next_symbol st + N.of_nat (length names))%N ∧
  (o_proto <$> heap st' !! obj) = (o_proto <$> heap st !! obj) ∧
  (∀ k, (∀ name, name ∈ names → k ≠ KStr name) →
        own_property st' (VObj obj) k = own_property st (VObj obj) k) ∧
  ((∀ k p, own_property st (VObj obj) k = Some p → p_enumerable p = true) →
   (∀ k p, own_property st' (VObj obj) k = Some p → p_enumerable p = true)) ∧
  (∀ name, name ∈ names → name ≠ "__proto__" →
           ∃ p sym, own_property st' (VObj obj) (KStr name) = Some p ∧
                    p_value p = VSym sym ∧
                    sym_description sym = Some name ∧
                    (next_symbol st ≤ sym_id sym < next_symbol st')%N).
Proof.
  induction names as [|k rest IH]; intros st st'.
  - intros [= <-]. split; [done|]. split; [done|].
    split; [simpl; lia|]. do 3 (split; [done|]).
    intros name Hn. by apply elem_of_nil in Hn.
  - cbn [forEach]. intros ([] & st1 & Hstep & Hrest)%bind_Ok_inv.
    rewrite (bind_Ok _ _ _ _ _ (Symbol_run _ _)) in Hstep.
    set (sta := State (heap st) (defaultImpls st) (N.succ (next_symbol st))) in *.
    destruct (PutValue_heap _ _ _ _ _ _ _ Hstep)
      as (Hlen1 & Hnext1 & Hothers1 & Hproto1 & Hown1).
    destruct (IH _ _ Hrest)
      as (Hothers' & Hlen' & Hnext' & Hproto' & Hown' & Henum' & Hall').
    assert (Hn : next_symbol st' = (next_symbol st + N.of_nat (length (k :: rest)))%N).
    { rewrite Hnext', Hnext1. unfold sta. cbn [next_symbol length]. lia. }
    split; [by intros l Hl; rewrite Hothers', Hothers1|].
    split; [by rewrite Hlen', Hlen1|]. split; [done|].
    split; [by rewrite Hproto', Hproto1|]. split; [|split].
    + intros k' Hk'. rewrite Hown'.
      * rewrite Hown1; [done|]. apply Hk'. by left.
      * intros name Hname. apply Hk'. by right.
    + intros Henum. apply Henum'. intros k' p' Hp'.
      destruct (decide (k' = KStr k)) as [->|Hne].
      * destruct (proto_accessor R sta (VObj obj) (KStr k)) eqn:Ha.
        { rewrite PutValue_setter_sym in Hstep by done.
          injection Hstep as <-. by apply (Henum _ _ Hp'). }
        destruct (PutValue_own R _ _ _ _ _ _ Ha Hstep) as (p & Hp & Hpv & Hpe).
        assert (p' = p) as -> by congruence. rewrite Hpe.
        change (own_property sta (VObj obj) (KStr k))
          with (own_property st (VObj obj) (KStr k)).
        destruct (own_property st (VObj obj) (KStr k)) as [p0|] eqn:Hp0; [|done].
        by apply (Henum _ _ Hp0).
      * rewrite Hown1 in Hp' by done. by apply (Henum _ _ Hp').
    + intros name Hname Hproto.
      destruct (decide (name ∈ rest)) as [Hin|Hout].
      * destruct (Hall' name Hin Hproto) as (p' & sym & Hp' & Hv' & Hd' & Hr').
        exists p', sym. do 3 (split; [done|]).
        rewrite Hnext1 in Hr'. unfold sta in Hr'. cbn [next_symbol] in Hr'. lia.
      * apply elem_of_cons in Hname as [->|?]; [|done].
        assert (Ha : proto_accessor R sta (VObj obj) (KStr k) = false).
        { apply proto_accessor_other. by intros [= ->]. }
        destruct (PutValue_own R _ _ _ _ _ _ Ha Hstep) as (p & Hp & Hpv & Hpe).
        exists p, (Sym (next_symbol st) (Some k)).
        split; [|split; [done|split; [done|]]].
        -- rewrite Hown'; [done|]. by intros name Hname [= ->].
        -- rewrite Hn. cbn [sym_id length]. lia.
Qed.

End FromStrings.

(** What [TraitSet.fromStrings(names)] does. *)
Lemma fromStrings_effect R names st r st' :
  proper_object st (VObj (ObjectPrototype R)) = true →
  fromStrings R names st = (Ok r, st') →
  r = VObj (S (length (heap st))) ∧
  (o_proto <$> heap st' !! S (length (heap st)))
  = Some (Some (TraitSetPrototype R)) ∧
  (∀ l o, heap st !! l = Some o → heap st' !! l = Some o) ∧
  next_symbol st' = (next_symbol st + N.of_nat (length names))%N ∧
  (∀ name, name ∈ names → name ≠ "__proto__" →
           ∃ sym, (p_value <$> own_property st' r (KStr name)) = Some (VSym sym) ∧
                  sym_description sym = Some name ∧
                  (next_symbol st ≤ sym_id sym < next_symbol st')%N).
Proof.
  intros HOP. unfold fromStrings.
  rewrite (bind_Ok _ _ _ _ _ (alloc_run _ _)).
  set (o0 := Obj (Some (ObjectPrototype R)) true [] None).
  set (st1 := set_heap (heap st ++ [o0]) st).
  set (ol := length (heap st)).
  intros ([] & st2 & Hloop & Hnew)%bind_Ok_inv.
  destruct (fromStrings_loop R ol _ _ _ Hloop)
    as (Hothers & Hlen & Hnext & Hproto & _ & Henum & Hall).
  assert (Hol1 : heap st1 !! ol = Some o0) by (by apply list_lookup_middle).
  assert (Hkeep2 : ∀ l o, heap st !! l = Some o → heap st2 !! l = Some o).
  { intros l o Hl. rewrite Hothers by (apply lookup_lt_Some in Hl; unfold ol; lia).
    by apply lookup_app_l_Some. }
  assert (Hlen2 : length (heap st2) = S (length (heap st))).
  { rewrite Hlen. unfold st1. cbn [heap set_heap]. rewrite length_app. simpl. lia. }
  assert (Hproper : proper_object st2 (VObj ol) = true).
  { unfold proper_object, chain_fuel. cbn [chain_ends].
    rewrite Hol1 in Hproto. simpl in Hproto.
    destruct (heap st2 !! ol) as [o2|]; [|done].
    injection Hproto as ->. rewrite Hlen2.
    by apply (chain_ends_mono (chain_fuel (heap st)) _ (heap st)). }
  destruct (TraitSet_new_run _ _ _ _ _ Hproper Hnew) as (-> & Hloop3).
  set (o3 := Obj (Some (TraitSetPrototype R)) true [] None) in *.
  set (st3 := set_heap (heap st2 ++ [o3]) st2) in *.
  destruct (constructor_loop R st2 (VObj ol) Hproper (length (heap st2)) (le_n _)
              _ st3 _ ltac:(by intros l o Hl; apply lookup_app_l_Some) Hloop3)
    as (Hothers3 & _ & Hnext3 & Hproto3 & _ & _ & Hcopy).
  assert (Hnew3 : heap st3 !! length (heap st2) = Some o3)
    by (by apply list_lookup_middle).
  change (next_symbol st3) with (next_symbol st2) in Hnext3.
  subst ol. rewrite Hlen2 in *.
  split; [done|]. split; [by rewrite Hproto3, Hnew3|]. split.
  { intros l o Hl. rewrite Hothers3 by (apply lookup_lt_Some in Hl; lia).
    by apply lookup_app_l_Some, Hkeep2. }
  split; [by rewrite Hnext3, Hnext|].
  intros name Hname Hne.
  destruct (Hall name Hname Hne) as (p & sym & Hp & Hv & Hd & Hr).
  exists sym. split; [|split; [done|by rewrite Hnext3]].
  apply Hcopy; [|done|].
  - apply (own_enumerable_listed R _ _ _ p); [done|].
    apply (Henum ltac:(intros k p0; unfold own_property; rewrite Hol1; done) _ _ Hp).
  - unfold binding_of_name. by rewrite (get_value_own R _ _ _ _ Hp).
Qed.

(** A decimal numeral starts with a digit. *)
Lemma pretty_N_char_digit y : pretty_N_char y ≠ "_"%char.
Proof. unfold pretty_N_char. by repeat case_match. Qed.

Lemma pretty_N_go_head x : ∀ s,
  (0 < x)%N → ∃ y t, pretty_N_go x s = String (pretty_N_char y) t.
Proof.
  induction (N.lt_wf_0 x) as [x _ IH]. intros s Hx.
  rewrite pretty_N_go_step by done.
  destruct (decide (x `div` 10 = 0)%N) as [H0|H0].
  - rewrite H0, pretty_N_go_0. eauto.
  - apply IH; [apply N.div_lt; lia | by apply N.neq_0_lt_0].
Qed.

Lemma pretty_nat_not_proto (i : nat) : pretty i ≠ "__proto__".
Proof.
  unfold pretty, pretty_nat, pretty, pretty_N.
  destruct (decide (N.of_nat i = 0)%N) as [?|Hi]; [done|].
  destruct (pretty_N_go_head (N.of_nat i) "" ltac:(lia)) as (y & t & ->).
  intros [= Hy _]. by apply (pretty_N_char_digit y).
Qed.

(** X20. [TraitSet.fromStrings(names)], [Object.prototype] being an
    object of the store whose prototype chain ends, in a store whose
    symbols were all drawn from the counter: when it returns, the result
    is a new object with [TraitSet.prototype] as its prototype that owns,
    under every name of the list other than [__proto__], a symbol that is
    described by that name, is none of the symbols of the store at the
    start and was drawn during the call (so names that differ carry
    symbols that differ); one symbol is drawn per entry of the list, and
    no object that existed before has changed. *)
Theorem fromStrings_fresh_symbols R names st r st' :
  proper_object st (VObj (ObjectPrototype R)) = true →
  counter_ahead R st = true →
  fromStrings R names st = (Ok r, st') →
  (o_proto <$> heap st' !! S (length (heap st)))
  = Some (Some (TraitSetPrototype R)) ∧
  r = VObj (S (length (heap st))) ∧
  (∀ l o, heap st !! l = Some o → heap st' !! l = Some o) ∧
  next_symbol st' = (next_symbol st + N.of_nat (length names))%N ∧
  (∀ name, name ∈ names → name ≠ "__proto__" →
           ∃ sym, (p_value <$> own_property st' r (KStr name)) = Some (VSym sym) ∧
                  symName sym = name ∧
                  (sym ∉ known_symbols R st) ∧
                  (next_symbol st ≤ sym_id sym < next_symbol st')%N).
Proof.
  intros HOP Hfresh Hrun.
  destruct (fromStrings_effect _ _ _ _ _ HOP Hrun)
    as (Hr & Hproto & Hkeep & Hnext & Hall).
  do 4 (split; [done|]). intros name Hname Hne.
  destruct (Hall name Hname Hne) as (sym & Hown & Hd & Hrange).
  exists sym. split; [done|].
  split; [|split; [apply (counter_ahead_fresh R); [done|lia] | done]].
  destruct sym as [id d]. simpl in Hd. subst d. apply symName_description.
Qed.

(** X21. [Object.prototype] being an object of the store whose prototype
    chain ends, in a store whose symbols were all drawn from the counter:
    [TraitSet.fromKeys(obj)] throws a TypeError when [obj] is [undefined]
    or [null]. Otherwise, when it returns, one symbol has been drawn per
    name that [Object.keys(obj)] lists, and the result owns, under every
    such name other than [__proto__], a symbol that is described by the
    name, is none of the symbols of the store at the start and was drawn
    during the call. These names include the name of every enumerable
    property that an object [obj] itself carries and, for a string [obj],
    every index below its length. *)
Theorem fromKeys_own_names R obj st :
  proper_object st (VObj (ObjectPrototype R)) = true →
  counter_ahead R st = true →
  ((obj = VUndefined ∨ obj = VNull) →
   fromKeys R obj st = (Throw TypeError, st)) ∧
  ∀ r st', fromKeys R obj st = (Ok r, st') →
    let named := λ name : string,
      ∃ sym, (p_value <$> own_property st' r (KStr name)) = Some (VSym sym) ∧
             symName sym = name ∧
             (sym ∉ known_symbols R st) ∧
             (next_symbol st ≤ sym_id sym < next_symbol st')%N in
    ∃ names, Object_keys obj st = (Ok names, st) ∧
      next_symbol st' = (next_symbol st + N.of_nat (length names))%N ∧
      (∀ name, name ∈ names → name ≠ "__proto__" → named name) ∧
      (∀ name p, own_property st obj (KStr name) = Some p →
                 p_enumerable p = true → name ≠ "__proto__" → named name) ∧
      (∀ s i, obj = VStr s → (i < String.length s)%nat → named (pretty i)).
Proof.
  intros HOP Hfresh. split; [by intros [-> | ->]|].
  intros r st' Hrun named. unfold fromKeys in Hrun.
  apply bind_Ok_inv in Hrun as (names & st1 & Hkeys & Hrun).
  assert (st1 = st) as ->.
  { unfold Object_keys in Hkeys. revert Hkeys. munfold.
    destruct obj as [| | | | | |l]; try done; try (by intros [= _ <-]).
    destruct (heap st !! l); by intros [= _ <-]. }
  destruct (fromStrings_effect _ _ _ _ _ HOP Hrun) as (_ & _ & _ & Hnext & Hall).
  assert (Hnamed : ∀ name, name ∈ names → name ≠ "__proto__" → named name).
  { intros name Hname Hne.
    destruct (Hall name Hname Hne) as (sym & Hs & Hd & Hrange).
    exists sym. split; [done|].
    split; [|split; [apply (counter_ahead_fresh R); [done|lia] | done]].
    destruct sym as [id d]. simpl in Hd. subst d. apply symName_description. }
  exists names. do 3 (split; [done|]). split.
  - intros name p Hown Henum. apply Hnamed.
    destruct obj as [| | | | | |l]; try done. simpl in Hown.
    unfold Object_keys in Hkeys. revert Hkeys. munfold.
    destruct (heap st !! l) as [o|] eqn:Hl; [|done]. simpl in Hown.
    intros [= <-]. apply list_elem_of_filter. split.
    + unfold is_enumerable. by rewrite Hown.
    + apply elem_of_own_string_keys, elem_of_string_keys.
      exists p. by apply lookup_key_elem_of.
  - intros s i -> Hi. apply Hnamed; [|apply pretty_nat_not_proto].
    unfold Object_keys in Hkeys. revert Hkeys. munfold. intros [= <-].
    apply list_elem_of_fmap. exists i. split; [done|].
    apply elem_of_seq. lia.
Qed.

(** ** Borrowing traits by name *)

Section BorrowNames.

Variable R : realm.
Variable native : nat → value → list value → M value.
Variable Number_toString : spec_float → string.
Variables (fuel : nat) (TS other : value).

Abbreviation call := (call R native Number_toString).

Lemma borrow_names_loop names : ∀ st st',
  uses_builtin_hasOwnProperty R st TS = true ∨ shadowed st TS →
  forEach (borrow_name R (call fuel) TS other) names st = (Ok tt, st') →
  NoDup (filter (λ k, k ≠ "__proto__") names) ∧
  (∀ k, k ∈ names →
        own_property st TS (KStr k) = None ∧
        ∃ sy, binding_of_name R st other k = VSym sy ∧
              (k ≠ "__proto__" → borrowed st' TS k sy)) ∧
  (∀ k sy, borrowed st TS k sy → borrowed st' TS k sy) ∧
  (∀ k, k ∉ names → own_property st' TS (KStr k) = own_property st TS (KStr k)) ∧
  next_symbol st' = next_symbol st.
Proof.
  induction names as [|k rest IH]; intros st st' Hguard.
  - intros [= <-]. split; [constructor|]. split; [|done].
    intros k Hk. by apply elem_of_nil in Hk.
  - cbn [forEach]. intros ([] & st1 & Hstep & Hrest)%bind_Ok_inv.
    unfold borrow_name in Hstep.
    assert (Hother : ¬ (other = VUndefined ∨ other = VNull)).
    { intros [-> | ->]; discriminate Hstep. }
    rewrite (bind_Ok _ _ _ _ _ (GetV_run R _ _ _ Hother)) in Hstep.
    fold (binding_of_name R st other k) in Hstep.
    apply bind_Ok_inv in Hstep as (r & st2 & Hadd & [= ->]).
    destruct Hguard as [Hb|Hs];
      [|by rewrite (addSymbol_shadowed R native Number_toString _ _ _ _ _ Hs)
          in Hadd].
    apply (addSymbol_touches R native Number_toString) in Hadd
      as (s & Hsym & _ & Hnone & Hown & Hnext1 & Htouch); [|done].
    pose proof Htouch as (_ & Ho & _ & _ & _ & Hg).
    assert (Hguard1 : uses_builtin_hasOwnProperty R st1 TS = true
                      ∨ shadowed st1 TS).
    { destruct (decide (k = "hasOwnProperty")) as [->|Hne].
      - right. destruct Hown as (p & Hp & Hpv); [done|]. by exists p, s.
      - left. rewrite (touches_uses_builtin R _ _ _ _ Htouch) by congruence.
        done. }
    destruct (IH _ _ Hguard1 Hrest) as (Hnodup & Hall & Hframe & Hout & Hnext).
    split; [|split; [|split; [|split]]].
    + rewrite filter_cons. destruct (decide (k ≠ "__proto__")) as [Hk|Hk];
        [|done].
      constructor; [|done]. intros [_ Hin]%list_elem_of_filter.
      destruct (Hall k Hin) as [Hnone1 _].
      destruct (Hown Hk) as (p & Hp & _). congruence.
    + intros k' Hin.
      destruct (decide (k' = k)) as [->|Hne].
      * split; [done|]. exists s. split; [done|].
        intros Hk. by apply Hframe, Hown.
      * apply elem_of_cons in Hin as [?|Hin]; [done|].
        destruct (Hall k' Hin) as (Hnone1 & sy & Hb1 & Hown1).
        split.
        -- rewrite <- Hnone1. symmetry. apply Ho. congruence.
        -- exists sy. split; [|done]. rewrite <- Hb1. unfold binding_of_name.
           symmetry. apply Hg. congruence.
    + intros x sx (px & Hx & Hxv). apply Hframe. exists px. split; [|done].
      rewrite Ho; [done|]. intros [= ->]. congruence.
    + intros k' Hk'. apply not_elem_of_cons in Hk' as [Hne Hk'].
      rewrite Hout by done. apply Ho. congruence.
    + by rewrite Hnext.
Qed.

(** X24. [B.*borrowTraits(A, names)], started with [B.hasOwnProperty]
    being the built-in, once it has returned (it returns [B]): the names
    other than [__proto__] are all different; [B] had none of the names,
    and under each of them [A] holds a symbol; under each name other than
    [__proto__], [B] now owns that very symbol; what [B] has under other
    names is untouched, and no symbol is drawn. *)
Theorem borrow_named_traits names st r st' :
  uses_builtin_hasOwnProperty R st TS = true →
  borrowTraits R (call fuel) TS other (Some names) st = (Ok r, st') →
  r = TS ∧ NoDup (filter (λ k, k ≠ "__proto__") names) ∧
  (∀ k, k ∈ names →
        own_property st TS (KStr k) = None ∧
        ∃ sy, binding_of_name R st other k = VSym sy ∧
              (k ≠ "__proto__" →
               ∃ p, own_property st' TS (KStr k) = Some p ∧ p_value p = VSym sy)) ∧
  (∀ k, k ∉ names → own_property st' TS (KStr k) = own_property st TS (KStr k)) ∧
  next_symbol st' = next_symbol st.
Proof.
  intros Hb. unfold borrowTraits.
  intros ([] & st1 & Hloop & [= <- <-])%bind_Ok_inv.
  destruct (borrow_names_loop _ _ _ (or_introl Hb) Hloop)
    as (Hnodup & Hall & _ & Hout & Hnext).
  split; [done|]. split; [done|]. split; [|done].
  intros k Hk. destruct (Hall k Hk) as (Hnone & sy & Hsy & Hown).
  split; [done|]. exists sy. split; [done|]. intros Hne. by apply Hown.
Qed.

End BorrowNames.

(** ** The further properties in the small world *)

Lemma implDefault_replaces_witness :
  let st1 := (implDefault demo_trait (VObj 9) demo_state).2 in
  let st2 := (implDefault demo_trait (VObj 12) st1).2 in
  find_property demo_realm st2 VNull (KSym demo_trait) = None ∧
  free_function_of st2 (VObj 11) demo_trait ∧
  defaultImpls st2 !! demo_trait = Some (VObj 12) ∧
  demo_call 2 (VObj 11) VUndefined [VNull; VStr "x"] st2 = (Ok VNull, st2).
Proof.
  intros st1 st2.
  assert (H1 : implDefault demo_trait (VObj 9) demo_state
               = (Ok (VSym demo_trait), st1)) by reflexivity.
  assert (H2 : implDefault demo_trait (VObj 12) st1
               = (Ok (VSym demo_trait), st2)) by reflexivity.
  assert (H3 : find_property demo_realm st2 (hd VUndefined [VNull; VStr "x"])
                 (KSym demo_trait) = None) by reflexivity.
  assert (H4 : free_function_of st2 (VObj 11) demo_trait) by reflexivity.
  split; [exact H3|]. split; [exact H4|].
  destruct (implDefault_replaces demo_realm demo_native demo_Number_toString
              demo_trait (VObj 9) (VObj 12) demo_state _ st1 _ st2 (VObj 11)
              VUndefined [VNull; VStr "x"] 1 H1 H2 H3 H4)
    as (Hdef & _ & _ & Hcall).
  split; [exact Hdef|]. rewrite Hcall. reflexivity.
Defined.

Lemma dispatch_on_inheritor_witness :
  let st := (impl demo_trait (VObj 0) (VObj 9) demo_state).2 in
  impl demo_trait (VObj 0) (VObj 9) demo_state = (Ok (VSym demo_trait), st) ∧
  (o_proto <$> heap st !! 10) = Some (Some 0) ∧
  own_property st (VObj 10) (KSym demo_trait) = None ∧
  demo_call 2 (VObj 11) VUndefined [VObj 10] st = (Ok (VStr "ten"), st).
Proof.
  intros st.
  assert (H1 : impl demo_trait (VObj 0) (VObj 9) demo_state
               = (Ok (VSym demo_trait), st)) by reflexivity.
  split; [exact H1|]. split; [reflexivity|]. split; [reflexivity|].
  rewrite (dispatch_on_inheritor demo_realm demo_native demo_Number_toString
             demo_trait 0 (VObj 9) demo_state (VSym demo_trait) st 10
             (Obj (Some 0) true [(KStr "value", plain (VStr "ten"))] None)
             (VObj 11) VUndefined [] 1 H1);
    reflexivity.
Defined.

Lemma dispatch_on_null_or_undefined_witness :
  free_function_of demo_state (VObj 11) demo_trait ∧
  defaultImpls demo_state !! demo_trait = None ∧
  demo_call 1 (VObj 11) VUndefined [] demo_state
  = (Throw (Error ".*greet called on undefined"), demo_state) ∧
  demo_call 1 (VObj 11) VUndefined [VNull] demo_state
  = (Throw (Error ".*greet called on null"), demo_state).
Proof.
  assert (H1 : free_function_of demo_state (VObj 11) demo_trait) by reflexivity.
  assert (H2 : defaultImpls demo_state !! demo_trait = None) by reflexivity.
  split; [exact H1|]. split; [exact H2|].
  destruct (dispatch_on_null_or_undefined demo_realm demo_native
              demo_Number_toString demo_trait (VObj 11) VUndefined [] 0
              demo_state H1 H2) as (Hnone & _ & Hnull).
  split; [exact Hnone | exact Hnull].
Defined.

Lemma dispatch_without_implementation_witness :
  free_function_of demo_state (VObj 11) demo_trait ∧
  ToBoolean (binding demo_realm demo_state (VObj 10) demo_trait) = false ∧
  defaultImpls demo_state !! demo_trait = None ∧
  ToString demo_realm demo_Number_toString (demo_call 1) (VObj 10) demo_state
  = (Ok "[object Object]", demo_state) ∧
  demo_call 2 (VObj 11) VUndefined [VObj 10] demo_state
  = (Throw (Error (".*" +:+ symName demo_trait
                   +:+ " called on [object Object] that doesn't implement it.")),
     demo_state).
Proof.
  assert (H1 : free_function_of demo_state (VObj 11) demo_trait) by reflexivity.
  assert (H2 : ¬ (VObj 10 = VUndefined ∨ VObj 10 = VNull))
    by (intros [?|?]; discriminate).
  assert (H3 : ToBoolean (binding demo_realm demo_state (VObj 10) demo_trait)
               = false) by reflexivity.
  assert (H4 : defaultImpls demo_state !! demo_trait = None) by reflexivity.
  assert (H5 : ToString demo_realm demo_Number_toString (demo_call 1) (VObj 10)
                 demo_state = (Ok "[object Object]", demo_state)) by reflexivity.
  split; [exact H1|]. split; [exact H3|]. split; [exact H4|]. split; [exact H5|].
  exact (dispatch_without_implementation demo_realm demo_native
           demo_Number_toString demo_trait (VObj 11) VUndefined (VObj 10) [] 1
           demo_state "[object Object]" demo_state H1 H2 H3 H4 H5).
Defined.

Lemma falsy_binding_uses_default_witness :
  let st1 := (impl demo_trait (VObj 10) (VBool false) demo_state).2 in
  let st := (implDefault demo_trait (VObj 12) st1).2 in
  free_function_of st (VObj 11) demo_trait ∧
  binding demo_realm st (VObj 10) demo_trait = VBool false ∧
  defaultImpls st !! demo_trait = Some (VObj 12) ∧
  demo_call 2 (VObj 11) VUndefined [VObj 10] st = (Ok (VObj 10), st).
Proof.
  intros st1 st.
  assert (H1 : free_function_of st (VObj 11) demo_trait) by reflexivity.
  assert (H2 : ToBoolean (binding demo_realm st (VObj 10) demo_trait) = false)
    by reflexivity.
  assert (H3 : defaultImpls st !! demo_trait = Some (VObj 12))
    by (vm_compute; reflexivity).
  split; [exact H1|]. split; [reflexivity|]. split; [exact H3|].
  rewrite (falsy_binding_uses_default demo_realm demo_native
             demo_Number_toString demo_trait (VObj 11) VUndefined (VObj 10) []
             1 st (VObj 12) H1 H2 H3).
  reflexivity.
Defined.

Lemma dispatch_is_late_bound_witness :
  let free := asFreeFunction demo_realm demo_trait demo_state in
  let st2 := (impl demo_trait (VObj 10) (VObj 9) free.2).2 in
  free = (Ok (VObj 18), free.2) ∧
  impl demo_trait (VObj 10) (VObj 9) free.2 = (Ok (VSym demo_trait), st2) ∧
  demo_call 2 (VObj 18) VUndefined [VObj 10] st2 = (Ok (VStr "ten"), st2).
Proof.
  intros free st2.
  assert (H1 : free = (Ok (VObj 18), free.2)) by reflexivity.
  assert (H2 : impl demo_trait (VObj 10) (VObj 9) free.2
               = (Ok (VSym demo_trait), st2)) by reflexivity.
  assert (H3 : ToBoolean (VObj 9) = true) by reflexivity.
  split; [exact H1|]. split; [exact H2|].
  rewrite (dispatch_is_late_bound demo_realm demo_native demo_Number_toString
             demo_trait (VObj 10) (VObj 9) demo_state (VObj 18) free.2
             (VSym demo_trait) st2 VUndefined [] 1 H1 H2 H3).
  reflexivity.
Defined.

Lemma impl_leaves_the_rest_witness :
  let st' := (impl demo_trait (VObj 10) (VObj 9) demo_state).2 in
  impl demo_trait (VObj 10) (VObj 9) demo_state = (Ok (VSym demo_trait), st') ∧
  heap st' !! 15 = heap demo_state !! 15 ∧
  own_property st' (VObj 10) (KStr "value")
  = own_property demo_state (VObj 10) (KStr "value") ∧
  (p_value <$> own_property st' (VObj 10) (KSym demo_trait)) = Some (VObj 9) ∧
  find_property demo_realm st' (VObj 10) (KStr "value")
  = find_property demo_realm demo_state (VObj 10) (KStr "value") ∧
  next_symbol st' = next_symbol demo_state.
Proof.
  intros st'.
  assert (H1 : impl demo_trait (VObj 10) (VObj 9) demo_state
               = (Ok (VSym demo_trait), st')) by reflexivity.
  split; [exact H1|].
  destruct (impl_leaves_the_rest demo_realm demo_trait (VObj 10) (VObj 9)
              demo_state (VSym demo_trait) st' H1)
    as ((l & Hl & Hothers & _ & _ & _ & _ & Hown & Hbound) & Hfind & _ & _ & Hnext).
  injection Hl as <-.
  split; [apply Hothers; discriminate|].
  split; [apply Hown; discriminate|]. split; [exact Hbound|].
  split; [apply Hfind; discriminate | exact Hnext].
Defined.

Lemma binding_is_read_only_witness :
  let st' := (impl demo_trait (VObj 10) (VObj 9) demo_state).2 in
  own_property demo_state (VObj 10) (KSym demo_trait) = None ∧
  impl demo_trait (VObj 10) (VObj 9) demo_state = (Ok (VSym demo_trait), st') ∧
  PutValue demo_realm (VObj 10) (KSym demo_trait) (VObj 12) st'
  = (Throw TypeError, st').
Proof.
  intros st'.
  assert (H1 : own_property demo_state (VObj 10) (KSym demo_trait) = None)
    by reflexivity.
  assert (H2 : impl demo_trait (VObj 10) (VObj 9) demo_state
               = (Ok (VSym demo_trait), st')) by reflexivity.
  split; [exact H1|]. split; [exact H2|].
  exact (binding_is_read_only demo_realm demo_trait (VObj 10) (VObj 9)
           demo_state (VSym demo_trait) st' (VObj 12) H1 H2).
Defined.

Lemma defineTrait_defines_witness :
  let run := defineTrait demo_realm (demo_call 1) (VObj 15) "wave" demo_state in
  uses_builtin_hasOwnProperty demo_realm demo_state (VObj 15) = true ∧
  counter_ahead demo_realm demo_state = true ∧
  run = (Ok (VSym (Sym 2 (Some "wave"))), run.2) ∧
  (Sym 2 (Some "wave") ∉ known_symbols demo_realm demo_state) ∧
  symName (Sym 2 (Some "wave")) = "wave" ∧
  "wave" ∈ for_in_keys demo_realm run.2 (VObj 15) ∧
  next_symbol run.2 = 3%N ∧
  counter_ahead demo_realm run.2 = true.
Proof.
  intros run.
  assert (H1 : uses_builtin_hasOwnProperty demo_realm demo_state (VObj 15) = true)
    by reflexivity.
  assert (H2 : run = (Ok (VSym (Sym 2 (Some "wave"))), run.2)) by reflexivity.
  assert (H3 : "wave" ≠ "__proto__") by discriminate.
  assert (H4 : counter_ahead demo_realm demo_state = true) by reflexivity.
  split; [exact H1|]. split; [exact H4|]. split; [exact H2|].
  destruct (defineTrait_defines demo_realm demo_native demo_Number_toString 1
              (VObj 15) "wave" demo_state _ run.2 H1 H3 H4 H2)
    as (_ & Hfresh & Hname & _ & Hin & Hnext & _ & _ & Hinv).
  split; [exact Hfresh|].
  split; [exact Hname|]. split; [exact Hin|]. split; [exact Hnext | exact Hinv].
Defined.

Lemma defined_traits_are_distinct_witness :
  let first := defineTrait demo_realm (demo_call 1) (VObj 15) "wave" demo_state in
  let second := defineTrait demo_realm (demo_call 1) (VObj 10) "wave" first.2 in
  uses_builtin_hasOwnProperty demo_realm demo_state (VObj 15) = true ∧
  uses_builtin_hasOwnProperty demo_realm first.2 (VObj 10) = true ∧
  first = (Ok (VSym (Sym 2 (Some "wave"))), first.2) ∧
  second = (Ok (VSym (Sym 3 (Some "wave"))), second.2) ∧
  VSym (Sym 2 (Some "wave")) ≠ VSym (Sym 3 (Some "wave")).
Proof.
  intros first second.
  assert (H1 : uses_builtin_hasOwnProperty demo_realm demo_state (VObj 15) = true)
    by reflexivity.
  assert (H2 : uses_builtin_hasOwnProperty demo_realm first.2 (VObj 10) = true)
    by reflexivity.
  assert (H3 : first = (Ok (VSym (Sym 2 (Some "wave"))), first.2)) by reflexivity.
  assert (H4 : second = (Ok (VSym (Sym 3 (Some "wave"))), second.2)) by reflexivity.
  split; [exact H1|]. split; [exact H2|]. split; [exact H3|]. split; [exact H4|].
  exact (defined_traits_are_distinct demo_realm demo_native demo_Number_toString
           1 1 (VObj 15) (VObj 10) "wave" "wave" demo_state _ first.2 _ second.2
           H1 H2 H3 H4).
Defined.



Lemma borrow_all_traits_witness :
  let run := borrowTraits demo_realm (demo_call 1) (VObj 10) (VObj 15) None
               demo_state in
  uses_builtin_hasOwnProperty demo_realm demo_state (VObj 10) = true ∧
  run = (Ok (VObj 10), run.2) ∧
  "a" ∈ for_in_keys demo_realm demo_state (VObj 15) ∧
  binding_of_name demo_realm demo_state (VObj 15) "a" = VSym demo_trait ∧
  (∃ p, own_property run.2 (VObj 10) (KStr "a") = Some p ∧
        p_value p = VSym demo_trait) ∧
  next_symbol run.2 = next_symbol demo_state.
Proof.
  intros run.
  assert (H1 : uses_builtin_hasOwnProperty demo_realm demo_state (VObj 10) = true)
    by reflexivity.
  assert (H2 : run = (Ok (VObj 10), run.2)) by reflexivity.
  assert (H3 : "a" ∈ for_in_keys demo_realm demo_state (VObj 15))
    by (apply elem_of_cons; left; reflexivity).
  assert (H4 : binding_of_name demo_realm demo_state (VObj 15) "a"
               = VSym demo_trait) by reflexivity.
  split; [exact H1|]. split; [exact H2|]. split; [exact H3|]. split; [exact H4|].
  destruct (borrow_all_traits demo_realm demo_native demo_Number_toString 1
              (VObj 10) (VObj 15) demo_state (VObj 10) run.2 H1 H2)
    as (_ & Hall & _ & Hnext).
  split; [apply (Hall "a" demo_trait H3); [discriminate | exact H4] | exact Hnext].
Defined.

Lemma define_and_impl_traits_witness :
  let run := defineAndImplTraits demo_realm (demo_call 1) (VObj 15) (VObj 10)
               (VObj 17) demo_state in
  uses_builtin_hasOwnProperty demo_realm demo_state (VObj 15) = true ∧
  run = (Ok (VObj 15), run.2) ∧
  "serialize" ∈ for_in_keys demo_realm demo_state (VObj 17) ∧
  ∃ sym d st2,
    GetV demo_realm (VObj 15) (KStr "serialize") run.2 = (Ok (VSym sym), run.2) ∧
    (p_value <$> own_property run.2 (VObj 10) (KSym sym)) = Some (VObj 12) ∧
    asFreeFunction demo_realm sym run.2 = (Ok d, st2) ∧
    demo_call 2 d VUndefined [VObj 10; VStr "x"] st2 = (Ok (VStr "x"), st2).
Proof.
  intros run.
  assert (H1 : uses_builtin_hasOwnProperty demo_realm demo_state (VObj 15) = true)
    by reflexivity.
  assert (H2 : run = (Ok (VObj 15), run.2)) by reflexivity.
  assert (H3 : "serialize" ∈ for_in_keys demo_realm demo_state (VObj 17))
    by (apply elem_of_cons; left; reflexivity).
  assert (H4 : "serialize" ≠ "__proto__") by discriminate.
  split; [exact H1|]. split; [exact H2|]. split; [exact H3|].
  destruct (define_and_impl_traits demo_realm demo_native demo_Number_toString
              1 (VObj 15) (VObj 10) (VObj 17) demo_state (VObj 15) run.2
              "serialize" H1 H2 H3 H4) as (sym & Hget & Hown & Hcall).
  assert (Hsym : Sym 2 (Some "serialize") = sym).
  { vm_compute in Hget. by injection Hget. }
  subst sym.
  set (free := asFreeFunction demo_realm (Sym 2 (Some "serialize")) run.2).
  assert (H5 : free = (Ok (VObj 18), free.2)) by reflexivity.
  exists (Sym 2 (Some "serialize")), (VObj 18), free.2.
  split; [reflexivity|]. split; [exact Hown|]. split; [exact H5|].
  rewrite (Hcall (VObj 18) free.2 VUndefined [VStr "x"] 1 H5 eq_refl).
  reflexivity.
Defined.

Lemma adapted_function_forwards_witness :
  let run := defineAndImplMemberFreeFunctionsAsTraits demo_realm (demo_call 1)
               (VObj 15) (VObj 10) (VObj 17) demo_state in
  uses_builtin_hasOwnProperty demo_realm demo_state (VObj 15) = true ∧
  run = (Ok (VObj 15), run.2) ∧
  "serialize" ∈ for_in_keys demo_realm demo_state (VObj 17) ∧
  is_callable demo_state (binding_of_name demo_realm demo_state (VObj 17)
                            "serialize") = true ∧
  ∃ sym d st2,
    GetV demo_realm (VObj 15) (KStr "serialize") run.2 = (Ok (VSym sym), run.2) ∧
    asFreeFunction demo_realm sym run.2 = (Ok d, st2) ∧
    demo_call 3 d VUndefined [VObj 10; VStr "x"] st2 = (Ok (VObj 10), st2).
Proof.
  intros run.
  assert (H1 : uses_builtin_hasOwnProperty demo_realm demo_state (VObj 15) = true)
    by reflexivity.
  assert (H2 : run = (Ok (VObj 15), run.2)) by reflexivity.
  assert (H3 : "serialize" ∈ for_in_keys demo_realm demo_state (VObj 17))
    by (apply elem_of_cons; left; reflexivity).
  assert (H4 : is_callable demo_state
                 (binding_of_name demo_realm demo_state (VObj 17) "serialize")
               = true) by reflexivity.
  assert (H5 : "serialize" ≠ "__proto__") by discriminate.
  split; [exact H1|]. split; [exact H2|]. split; [exact H3|]. split; [exact H4|].
  destruct (adapted_function_forwards demo_realm demo_native
              demo_Number_toString 1 (VObj 15) (VObj 10) (VObj 17) demo_state
              (VObj 15) run.2 "serialize" H1 H2 H3 H5 H4) as (sym & Hget & Hcall).
  assert (Hsym : Sym 2 (Some "serialize") = sym).
  { vm_compute in Hget. by injection Hget. }
  subst sym.
  set (free := asFreeFunction demo_realm (Sym 2 (Some "serialize")) run.2).
  assert (H6 : free = (Ok (VObj 19), free.2)) by reflexivity.
  exists (Sym 2 (Some "serialize")), (VObj 19), free.2.
  split; [reflexivity|]. split; [exact H6|].
  rewrite (Hcall (VObj 19) free.2 VUndefined [VStr "x"] 1 H6). reflexivity.
Defined.

Lemma implTraits_binds_witness :
  let run := implTraits demo_realm (VObj 15) (VObj 10) (VObj 19) demo_state2 in
  run = (Ok (VObj 15), run.2) ∧
  "a" ∈ for_in_keys demo_realm demo_state2 (VObj 19) ∧
  (p_value <$> own_property run.2 (VObj 10) (KSym demo_trait)) = Some (VObj 9) ∧
  demo_call 2 (VObj 11) VUndefined [VObj 10] run.2 = (Ok (VStr "ten"), run.2).
Proof.
  intros run.
  assert (H1 : run = (Ok (VObj 15), run.2)) by reflexivity.
  assert (H2 : "a" ∈ for_in_keys demo_realm demo_state2 (VObj 19))
    by (apply elem_of_cons; left; reflexivity).
  split; [exact H1|]. split; [exact H2|].
  destruct (implTraits_binds demo_realm demo_native demo_Number_toString
              (VObj 15) (VObj 10) (VObj 19) demo_state2 (VObj 15) run.2 "a"
              H1 H2) as (_ & _ & sym & k' & Hsym & Hk' & _ & Hsame & Hown & Hcall).
  assert (Hs : sym = demo_trait) by (injection Hsym as <-; reflexivity).
  assert (Hk : k' = "a").
  { apply Hsame. intros x Hx _.
    apply elem_of_cons in Hx as [Hx|Hx]; [exact Hx|].
    apply elem_of_nil in Hx. destruct Hx. }
  rewrite Hs, Hk in Hown, Hcall.
  split; [exact Hown|].
  rewrite (Hcall (VObj 11) VUndefined [] 1 eq_refl eq_refl). reflexivity.
Defined.

Lemma free_functions_of_a_set_witness :
  let run := traitsToFreeFunctions demo_realm (VObj 15) demo_state in
  proper_object demo_state (VObj 15) = true ∧
  run = (Ok (VObj 18), run.2) ∧
  "a" ∈ for_in_keys demo_realm demo_state (VObj 15) ∧
  binding_of_name demo_realm demo_state (VObj 15) "a" = VSym demo_trait ∧
  ∃ p, own_property run.2 (VObj 18) (KStr "a") = Some p ∧
       free_function_of run.2 (p_value p) demo_trait.
Proof.
  intros run.
  assert (H1 : proper_object demo_state (VObj 15) = true) by reflexivity.
  assert (H2 : run = (Ok (VObj 18), run.2)) by reflexivity.
  assert (H3 : "a" ∈ for_in_keys demo_realm demo_state (VObj 15))
    by (apply elem_of_cons; left; reflexivity).
  assert (H4 : binding_of_name demo_realm demo_state (VObj 15) "a"
               = VSym demo_trait) by reflexivity.
  split; [exact H1|]. split; [exact H2|]. split; [exact H3|]. split; [exact H4|].
  destruct (free_functions_of_a_set demo_realm (VObj 15) demo_state (VObj 18)
              run.2 H1 H2) as (_ & _ & _ & Hall & _).
  apply (Hall "a" demo_trait H3); [discriminate | exact H4].
Defined.

Lemma constructor_copies_symbols_witness :
  let run := TraitSet_new demo_realm (VObj 15) demo_state in
  proper_object demo_state (VObj 15) = true ∧
  run = (Ok (VObj 18), run.2) ∧
  "a" ∈ for_in_keys demo_realm demo_state (VObj 15) ∧
  binding_of_name demo_realm demo_state (VObj 15) "a" = VSym demo_trait ∧
  (p_value <$> own_property run.2 (VObj 18) (KStr "a")) = Some (VSym demo_trait) ∧
  next_symbol run.2 = next_symbol demo_state.
Proof.
  intros run.
  assert (H1 : proper_object demo_state (VObj 15) = true) by reflexivity.
  assert (H2 : run = (Ok (VObj 18), run.2)) by reflexivity.
  assert (H3 : "a" ∈ for_in_keys demo_realm demo_state (VObj 15))
    by (apply elem_of_cons; left; reflexivity).
  assert (H4 : binding_of_name demo_realm demo_state (VObj 15) "a"
               = VSym demo_trait) by reflexivity.
  split; [exact H1|]. split; [exact H2|]. split; [exact H3|]. split; [exact H4|].
  destruct (constructor_copies_symbols demo_realm (VObj 15) demo_state (VObj 18)
              run.2 H1 H2) as (_ & _ & _ & Hnext & Hall & _).
  split; [apply (Hall "a" demo_trait H3); [discriminate | exact H4] | exact Hnext].
Defined.

Lemma fromStrings_fresh_symbols_witness :
  let run := fromStrings demo_realm ["greet"; "wave"] demo_state in
  proper_object demo_state (VObj (ObjectPrototype demo_realm)) = true ∧
  counter_ahead demo_realm demo_state = true ∧
  run = (Ok (VObj 19), run.2) ∧
  next_symbol run.2 = 4%N ∧
  ∃ sym, (p_value <$> own_property run.2 (VObj 19) (KStr "wave"))
         = Some (VSym sym) ∧
         symName sym = "wave" ∧ (sym ∉ known_symbols demo_realm demo_state) ∧
         (2 ≤ sym_id sym < 4)%N.
Proof.
  intros run.
  assert (H1 : proper_object demo_state (VObj (ObjectPrototype demo_realm)) = true)
    by reflexivity.
  assert (H2 : run = (Ok (VObj 19), run.2)) by reflexivity.
  assert (H3 : counter_ahead demo_realm demo_state = true) by reflexivity.
  split; [exact H1|]. split; [exact H3|]. split; [exact H2|].
  destruct (fromStrings_fresh_symbols demo_realm ["greet"; "wave"] demo_state
              (VObj 19) run.2 H1 H3 H2) as (_ & _ & _ & Hnext & Hall).
  split; [exact Hnext|].
  destruct (Hall "wave") as (sym & Hown & Hname & Hfresh & Hrange).
  { apply elem_of_cons; right. apply elem_of_cons; left; reflexivity. }
  { discriminate. }
  exists sym. split; [exact Hown|]. split; [exact Hname|].
  split; [exact Hfresh|]. rewrite Hnext in Hrange. exact Hrange.
Defined.

Lemma fromKeys_own_names_witness :
  let run := fromKeys demo_realm (VObj 16) demo_state in
  let text := fromKeys demo_realm (VStr "ab") demo_state in
  proper_object demo_state (VObj (ObjectPrototype demo_realm)) = true ∧
  counter_ahead demo_realm demo_state = true ∧
  fromKeys demo_realm VNull demo_state = (Throw TypeError, demo_state) ∧
  run = (Ok (VObj 19), run.2) ∧
  own_property demo_state (VObj 16) (KStr "zzz") = Some (plain (VObj 12)) ∧
  (∃ sym, (p_value <$> own_property run.2 (VObj 19) (KStr "zzz"))
          = Some (VSym sym) ∧
          symName sym = "zzz" ∧ (sym ∉ known_symbols demo_realm demo_state)) ∧
  text = (Ok (VObj 19), text.2) ∧
  (∃ sym, (p_value <$> own_property text.2 (VObj 19) (KStr "1"))
          = Some (VSym sym) ∧
          symName sym = "1" ∧ (sym ∉ known_symbols demo_realm demo_state)).
Proof.
  intros run text.
  assert (H1 : proper_object demo_state (VObj (ObjectPrototype demo_realm)) = true)
    by reflexivity.
  assert (H2 : run = (Ok (VObj 19), run.2)) by reflexivity.
  assert (H3 : own_property demo_state (VObj 16) (KStr "zzz")
               = Some (plain (VObj 12))) by reflexivity.
  assert (H4 : counter_ahead demo_realm demo_state = true) by reflexivity.
  assert (H5 : text = (Ok (VObj 19), text.2)) by reflexivity.
  split; [exact H1|]. split; [exact H4|].
  split; [exact (proj1 (fromKeys_own_names demo_realm VNull demo_state H1 H4)
                   (or_intror eq_refl))|].
  split; [exact H2|]. split; [exact H3|]. split; [|split; [exact H5|]].
  - destruct (proj2 (fromKeys_own_names demo_realm (VObj 16) demo_state H1 H4)
                (VObj 19) run.2 H2) as (names & _ & _ & _ & Hown & _).
    destruct (Hown "zzz" (plain (VObj 12)) H3 eq_refl)
      as (sym & Hsym & Hname & Hfresh & _); [discriminate|].
    exists sym. split; [exact Hsym|]. split; [exact Hname | exact Hfresh].
  - destruct (proj2 (fromKeys_own_names demo_realm (VStr "ab") demo_state H1 H4)
                (VObj 19) text.2 H5) as (names & _ & _ & _ & _ & Hindex).
    destruct (Hindex "ab" 1%nat eq_refl) as (sym & Hsym & Hname & Hfresh & _);
      [simpl; lia|].
    exists sym. split; [exact Hsym|]. split; [exact Hname | exact Hfresh].
Defined.

Lemma defineTrait_twice_witness :
  let first := defineTrait demo_realm (demo_call 1) (VObj 15) "wave" demo_state in
  uses_builtin_hasOwnProperty demo_realm demo_state (VObj 15) = true ∧
  first = (Ok (VSym (Sym 2 (Some "wave"))), first.2) ∧
  (defineTrait demo_realm (demo_call 1) (VObj 15) "wave" first.2).1
  = Throw (AssertionError ("Trying to re-define trait `" +:+ "wave" +:+ "`")).
Proof.
  intros first.
  assert (H1 : uses_builtin_hasOwnProperty demo_realm demo_state (VObj 15) = true)
    by reflexivity.
  assert (H2 : "wave" ≠ "hasOwnProperty") by discriminate.
  assert (H3 : first = (Ok (VSym (Sym 2 (Some "wave"))), first.2)) by reflexivity.
  assert (H4 : "wave" ≠ "__proto__") by discriminate.
  split; [exact H1|]. split; [exact H3|].
  rewrite (defineTrait_twice demo_realm demo_native demo_Number_toString 1 0
             (VObj 15) "wave" demo_state _ first.2 H1 H2 H4 H3).
  reflexivity.
Defined.

Lemma borrow_collision_witness :
  for_in_keys demo_realm demo_state (VObj 15) = ["a"] ∧
  binding_of_name demo_realm demo_state (VObj 15) "a" = VSym demo_trait ∧
  uses_builtin_hasOwnProperty demo_realm demo_state (VObj 16) = true ∧
  has_own demo_realm demo_state (VObj 16) (KStr "a") = true ∧
  borrowTraits demo_realm (demo_call 1) (VObj 16) (VObj 15) None demo_state
  = (Throw (AssertionError ("Trying to re-define trait `" +:+ "a" +:+ "`")),
     demo_state).
Proof.
  assert (H1 : for_in_keys demo_realm demo_state (VObj 15) = ([] ++ "a" :: [])%list)
    by reflexivity.
  assert (H2 : forEach (borrow_key demo_realm (demo_call 1) (VObj 16) (VObj 15))
                 [] demo_state = (Ok tt, demo_state)) by reflexivity.
  assert (H3 : ¬ (VObj 15 = VUndefined ∨ VObj 15 = VNull))
    by (intros [?|?]; discriminate).
  assert (H4 : binding_of_name demo_realm demo_state (VObj 15) "a"
               = VSym demo_trait) by reflexivity.
  assert (H5 : uses_builtin_hasOwnProperty demo_realm demo_state (VObj 16) = true)
    by reflexivity.
  assert (H6 : has_own demo_realm demo_state (VObj 16) (KStr "a") = true) by reflexivity.
  split; [exact H1|]. split; [exact H4|]. split; [exact H5|]. split; [exact H6|].
  exact (borrow_collision demo_realm demo_native demo_Number_toString 0
           (VObj 16) (VObj 15) demo_state [] "a" [] demo_state demo_trait
           H1 H2 H3 H4 H5 H6).
Defined.

Lemma borrow_named_traits_witness :
  let run := borrowTraits demo_realm (demo_call 1) (VObj 10) (VObj 15)
               (Some ["a"]) demo_state in
  uses_builtin_hasOwnProperty demo_realm demo_state (VObj 10) = true ∧
  run = (Ok (VObj 10), run.2) ∧
  own_property demo_state (VObj 10) (KStr "a") = None ∧
  (p_value <$> own_property run.2 (VObj 10) (KStr "a")) = Some (VSym demo_trait) ∧
  own_property run.2 (VObj 10) (KStr "value")
  = own_property demo_state (VObj 10) (KStr "value").
Proof.
  intros run.
  assert (H1 : uses_builtin_hasOwnProperty demo_realm demo_state (VObj 10) = true)
    by reflexivity.
  assert (H2 : run = (Ok (VObj 10), run.2)) by reflexivity.
  split; [exact H1|]. split; [exact H2|].
  destruct (borrow_named_traits demo_realm demo_native demo_Number_toString 1
              (VObj 10) (VObj 15) ["a"] demo_state (VObj 10) run.2 H1 H2)
    as (_ & _ & Hall & Hout & _).
  destruct (Hall "a") as (Hnone & sy & Hsy & Hown).
  { apply elem_of_cons; left; reflexivity. }
  destruct Hown as (p & Hp & Hv); [discriminate|].
  split; [exact Hnone|]. split.
  - rewrite Hp. simpl. rewrite Hv, <- Hsy. reflexivity.
  - apply Hout. intros Hin. apply elem_of_cons in Hin as [Hin|Hin].
    + discriminate Hin.
    + apply elem_of_nil in Hin. destruct Hin.
Defined.
